(** * BattleBot: a shallow embedding of [bot.py] and its checked properties

    The bot is an asyncio program: every handler and background task is a
    coroutine that runs without interruption between two [await]s.  The
    embedding follows that structure.

    - Dictionaries are [gmap]s.  The battle dictionaries live in a store
      addressed by location, because several coroutines keep a reference
      [st] to the same dictionary, also after it has been popped from
      [ACTIVE_BATTLES].
    - A coroutine is cut into atomic segments at the suspension points that
      let other coroutines change what it relies on: the sleeps of
      [battle_join_countdown] and [run_battle], the wait for
      [select_problems_for_battle], and [await cf_user_status] in
      [handle_finished_callback].  A suspended coroutine is a [Task] with its
      local variables, and the event loop may resume the tasks in any order.
      Awaits on the database and on Telegram are not scheduling points here;
      they are run together with the code around them.
    - Answers of the outside world (Codeforces replies, the random shuffle,
      whether Telegram delivered a round announcement) are inputs of the
      segment that consumes them.  A Telegram call that is not inside a
      [try] block is taken to succeed.
    - The SQLite tables are maps keyed by [(chat_id, user_id)]; the texts of
      the messages are abstracted to constructors that keep their data.
    - The [Application] is built without [concurrent_updates] and its
      handlers block, so updates are handled one at a time: no command or
      button press is handled while [handle_finished_callback] waits for
      Codeforces; only the coroutines started with [asyncio.create_task]
      run meanwhile.  [exec], [run] and [reachable] do not enforce this,
      so what is proved of every reachable world holds of every execution;
      [serial] singles out the schedules that are executions, and every
      schedule shown as one satisfies it. *)

From Stdlib Require Import ZArith Lia Ascii String Sorted.
From stdpp Require Import gmap strings list fin_maps pretty.

Local Open Scope Z_scope.

(** ** Python values that can sit in a JSON [rating] field *)

Inductive pyval :=
| PyNone
| PyBool (b : bool)
| PyInt (z : Z)
| PyStr (s : string).

Global Instance pyval_eq_dec : EqDecision pyval.
Proof. solve_decision. Defined.

(** [isinstance(v, int)]: [bool] is a subclass of [int] in Python.  The
    result carries the integer the comparisons then see. *)
Definition isinstance_int (v : pyval) : option Z :=
  match v with
  | PyInt z => Some z
  | PyBool b => Some (if b then 1 else 0)
  | PyNone | PyStr _ => None
  end.

(** Truth value of [v], as used by [v or 0]. *)
Definition truthy (v : pyval) : bool :=
  match v with
  | PyNone => false
  | PyBool b => b
  | PyInt z => negb (z =? 0)
  | PyStr s => negb (bool_decide (s = EmptyString))
  end.

Definition or_zero (v : pyval) : pyval := if truthy v then v else PyInt 0.

(** ** Points mapping *)

Definition POINT_MAP : list ((Z * Z) * Z) :=
  [ ((800, 899), 1); ((900, 999), 1); ((1000, 1099), 2); ((1100, 1199), 2);
    ((1200, 1299), 3); ((1300, 1399), 3); ((1400, 1499), 4); ((1500, 1599), 5);
    ((1600, 1699), 6); ((1700, 1799), 7); ((1800, 1899), 8); ((1900, 1999), 10);
    ((2000, 2099), 12); ((2100, 2199), 15); ((2200, 2299), 18); ((2300, 2399), 22);
    ((2400, 2499), 27); ((2500, 2599), 33); ((2600, 2699), 40); ((2700, 2799), 48);
    ((2800, 2899), 58); ((2900, 2999), 70); ((3000, 3099), 85) ].

(** The [for (a, b), v in POINT_MAP] loop with its early [return v]. *)
Fixpoint point_lookup (m : list ((Z * Z) * Z)) (rating : Z) : Z :=
  match m with
  | [] => 0
  | ((a, b), v) :: m' =>
      if (a <=? rating) && (rating <=? b) then v else point_lookup m' rating
  end.

Definition rating_to_points (rating : pyval) : Z :=
  match isinstance_int rating with
  | None => 0
  | Some r => point_lookup POINT_MAP r
  end.

(** The point table as the specification words it: one value per band of
    width 100, starting at 800. *)
Definition band_table : list Z :=
  [1; 1; 2; 2; 3; 3; 4; 5; 6; 7; 8; 10; 12; 15; 18; 22; 27; 33; 40; 48; 58; 70; 85].

(** Consecutive bands [a, a + 99], [a + 100, a + 199], ... carrying the
    values [vs]; [POINT_MAP] is [bands_from 800 band_table]. *)
Fixpoint bands_from (a : Z) (vs : list Z) : list ((Z * Z) * Z) :=
  match vs with
  | [] => []
  | v :: vs' => ((a, a + 99), v) :: bands_from (a + 100) vs'
  end.

Definition band_value (r : Z) : Z :=
  if (800 <=? r) && (r <=? 3099)
  then nth (Z.to_nat ((r - 800) / 100)) band_table 0
  else 0.

Definition pointsFor_spec (rating : pyval) : Z :=
  match rating with
  | PyInt r => band_value r
  | _ => 0
  end.

(** ** Catalogue problems and submissions *)

Record Problem := mkProblem {
  p_contestId : option Z;
  p_index : option string;
  p_name : option string;
  p_rating : pyval }.

Global Instance Problem_eq_dec : EqDecision Problem.
Proof. solve_decision. Defined.

Record Submission := mkSubmission {
  s_problem : option Problem;
  s_verdict : option string }.

(** [s.get("problem", {})] *)
Definition empty_problem : Problem := mkProblem None None None PyNone.
Definition sub_problem (s : Submission) : Problem := default empty_problem (s_problem s).

(** [f"{pr.get('contestId')}-{pr.get('index')}"] *)
Definition fmt_int (o : option Z) : string := from_option pretty "None"%string o.
Definition fmt_str (o : option string) : string := default "None"%string o.
Definition problem_key (p : Problem) : string :=
  fmt_int (p_contestId p) +:+ "-" +:+ fmt_str (p_index p).

(** ** Problem selection *)

(** The two nested loops that fill [attempted]; a [None] entry of [results]
    is an exception object returned by [gather], which the [isinstance]
    test skips. *)
Definition add_attempted (acc : gset string) (subs : list Submission) : gset string :=
  foldl (λ acc s, {[ problem_key (sub_problem s) ]} ∪ acc) acc subs.

Definition attempted_of (results : list (option (list Submission))) : gset string :=
  foldl (λ acc r, match r with Some subs => add_attempted acc subs | None => acc end)
        ∅ results.

(** [isinstance(p.get("rating"), int) and lo <= p["rating"] <= hi] *)
Definition in_window (lo hi : Z) (p : Problem) : bool :=
  match isinstance_int (p_rating p) with
  | Some r => (lo <=? r) && (r <=? hi)
  | None => false
  end.

Definition py_min (l : list Z) : Z :=
  match l with [] => 0 | x :: xs => foldl Z.min x xs end.
Definition py_max (l : list Z) : Z :=
  match l with [] => 0 | x :: xs => foldl Z.max x xs end.

(** Range mode: [for p in pool: if key not in attempted: selected.append(p);
    if len(selected) >= num: break]. *)
Fixpoint range_loop (attempted : gset string) (num : Z)
    (pool selected : list Problem) : list Problem :=
  match pool with
  | [] => selected
  | p :: pool' =>
      if decide (problem_key p ∈ attempted) then range_loop attempted num pool' selected
      else
        let selected' := selected ++ [p] in
        if num <=? Z.of_nat (length selected') then selected'
        else range_loop attempted num pool' selected'
  end.

(** The inner search of the specific-ratings mode. *)
Definition first_unattempted (attempted : gset string) (pool : list Problem)
    : option Problem :=
  List.find (λ p, bool_decide (problem_key p ∉ attempted)) pool.

(** Specific-ratings mode.  [shuffle i] is the outcome of the [i]-th call of
    [random.shuffle].  A problem of the pool has a [rating] entry, so the
    dictionary is not empty and [if found:] is the test [found is not None]. *)
Fixpoint target_loop (attempted : gset string) (num : Z) (problems : list Problem)
    (shuffle : nat → list Problem → list Problem) (i : nat)
    (ratings : list Z) (selected : list Problem) : list Problem :=
  match ratings with
  | [] => selected
  | r :: ratings' =>
      let pool := shuffle i (List.filter (in_window (r - 50) (r + 50)) problems) in
      let selected' :=
        match first_unattempted attempted pool with
        | Some found => selected ++ [found]
        | None => selected
        end in
      if num <=? Z.of_nat (length selected') then selected'
      else target_loop attempted num problems shuffle (S i) ratings' selected'
  end.

(** [problems] is what [cf_problemset()] returned and [results] what the
    gathered [cf_user_status] calls returned; [chat_id] only feeds the log. *)
Definition select_problems_for_battle (problems : list Problem)
    (results : list (option (list Submission)))
    (shuffle : nat → list Problem → list Problem)
    (ratings : list Z) (num : Z) : list Problem :=
  match problems with
  | [] => []
  | _ :: _ =>
      let attempted := attempted_of results in
      if bool_decide (length ratings = 2%nat) && (2 <? num) then
        let min_r := py_min ratings in
        let max_r := py_max ratings in
        let pool := shuffle 0%nat (List.filter (in_window (min_r - 50) (max_r + 50)) problems) in
        range_loop attempted num pool []
      else
        target_loop attempted num problems shuffle 0%nat ratings []
  end.

(** ** Battle creation arguments *)

(** What [parse_create_args] raises.  [ErrInvalidLiteral] is the
    [ValueError] of the builtin [int]. *)
Inductive CreateError :=
| ErrMissingArgs
| ErrNeedTwo
| ErrInvalidLiteral (s : string)
| ErrNumRange
| ErrRatingRange.

Section Parse.
(** The builtin [int] on a command argument; [None] is [ValueError]. *)
Variable py_int : string → option Z.

(** [[int(x) for x in l]]: the first bad literal raises. *)
Fixpoint parse_ints (l : list string) : CreateError + list Z :=
  match l with
  | [] => inr []
  | x :: xs =>
      match py_int x with
      | None => inl (ErrInvalidLiteral x)
      | Some z =>
          match parse_ints xs with
          | inl e => inl e
          | inr zs => inr (z :: zs)
          end
      end
  end.

Definition rating_ok (r : Z) : bool := negb ((r <? 800) || (3500 <? r)).

Definition parse_create_args (args : list string) : CreateError + (Z * list Z) :=
  match args with
  | [] => inl ErrMissingArgs
  | [_] => inl ErrNeedTwo
  | a0 :: rest =>
      match py_int a0 with
      | None => inl (ErrInvalidLiteral a0)
      | Some num =>
          if (num <? 1) || (10 <? num) then inl ErrNumRange
          else
            match parse_ints rest with
            | inl e => inl e
            | inr ratings =>
                if forallb rating_ok ratings then inr (num, ratings)
                else inl ErrRatingRange
            end
      end
  end.
End Parse.

(** ** Runtime state *)

Inductive Status := joining | running | cancelled.

Global Instance Status_eq_dec : EqDecision Status.
Proof. solve_decision. Defined.

(** The [state] dictionary of one battle.  The two message identifiers
    ([message_id], [current_round_msg]) only address Telegram edits and are
    left out. *)
Record Battle := mkBattle {
  creator : Z;
  creator_handle : string;
  participants : gmap Z string;
  num_problems : Z;
  ratings : list Z;
  selected_problems : list Problem;
  round : nat;
  status : Status;
  round_winner : option (Z * string);
  round_finished : bool;
  current_problem : option Problem }.

Definition set_participants (f : gmap Z string → gmap Z string) (b : Battle) : Battle :=
  mkBattle (creator b) (creator_handle b) (f (participants b)) (num_problems b)
    (ratings b) (selected_problems b) (round b) (status b) (round_winner b)
    (round_finished b) (current_problem b).
Definition set_selected_problems (v : list Problem) (b : Battle) : Battle :=
  mkBattle (creator b) (creator_handle b) (participants b) (num_problems b)
    (ratings b) v (round b) (status b) (round_winner b)
    (round_finished b) (current_problem b).
Definition set_round (v : nat) (b : Battle) : Battle :=
  mkBattle (creator b) (creator_handle b) (participants b) (num_problems b)
    (ratings b) (selected_problems b) v (status b) (round_winner b)
    (round_finished b) (current_problem b).
Definition set_status (v : Status) (b : Battle) : Battle :=
  mkBattle (creator b) (creator_handle b) (participants b) (num_problems b)
    (ratings b) (selected_problems b) (round b) v (round_winner b)
    (round_finished b) (current_problem b).
Definition set_round_winner (v : option (Z * string)) (b : Battle) : Battle :=
  mkBattle (creator b) (creator_handle b) (participants b) (num_problems b)
    (ratings b) (selected_problems b) (round b) (status b) v
    (round_finished b) (current_problem b).
Definition set_round_finished (v : bool) (b : Battle) : Battle :=
  mkBattle (creator b) (creator_handle b) (participants b) (num_problems b)
    (ratings b) (selected_problems b) (round b) (status b) (round_winner b)
    v (current_problem b).
Definition set_current_problem (v : option Problem) (b : Battle) : Battle :=
  mkBattle (creator b) (creator_handle b) (participants b) (num_problems b)
    (ratings b) (selected_problems b) (round b) (status b) (round_winner b)
    (round_finished b) v.

(** Rows of the two SQLite tables, keyed by [(chat_id, user_id)]. *)
Record UserRow := mkUser {
  u_full_name : string;
  u_handle : string;
  u_rating : Z }.

Record PointsRow := mkPoints {
  pts : Z;
  battles : Z;
  first_solves : Z }.

(** Why [handle_finished_callback] answers [False]. *)
Inductive ClaimFail := NoBattle | NotParticipant | AlreadyWon | NoAC.

(** The result pair of [handle_finished_callback]; [ClaimRaised] is the
    [KeyError] of [st["current_problem"]] before any round was posted. *)
Inductive ClaimResult :=
| ClaimOk (handle : string) (points : Z)
| ClaimRejected (why : ClaimFail)
| ClaimRaised.

(** Texts sent back to the user that issued a command or pressed a button. *)
Inductive Reply :=
| RUsage
| RHandleNotFound
| RHandleSet (handle : string) (rating : Z)
| RAlreadyActive
| RMustSetHandle
| RInvalidArgs (e : CreateError)
| RBattleExpired
| RAlreadyStarted
| RAlreadyJoined
| RNoActiveBattle
| ROnlyCreatorCancel
| ROnlyCreatorRound
| RNotRunning
| RNoActiveRound
| RRoundCancelled (round : nat)
| RClaim (round_idx : Z) (res : ClaimResult)
| RErrorOccurred
| RNoLongerActive
| RCancelled
| RContinues.

(** Messages the bot sends or edits; the list is the transcript of attempted
    sends, kept so that notices can be talked about. *)
Inductive Output :=
| OReply (chat : Z) (r : Reply)
| OBattleCreated (chat : Z) (handle : string) (num : Z) (ratings : list Z)
| OJoinUpdate (chat : Z) (joined : nat) (remaining : Z)
| OJoined (chat : Z) (joined : nat)
| ONotEnough (chat : Z)
| OSelectFailed (chat : Z) (found : nat) (num : Z)
| ORound (chat : Z) (idx : nat) (num : Z) (p : Problem) (points : Z)
| ONextRound (chat : Z) (tags : list string)
| ORoundWon (chat : Z) (round_idx : Z) (handle : string) (points : Z)
| OBattleFinished (chat : Z) (num : Z)
| OCancelPrompt (chat : Z).

Definition is_round_post (o : Output) : bool :=
  match o with ORound _ _ _ _ _ => true | _ => false end.

(** A suspended coroutine: where it waits and the local variables it keeps.
    [st] is the reference to the battle dictionary the coroutine holds. *)
Inductive Task :=
| TCountdown (chat : Z) (k : nat)
| TRunStart (chat : Z)
| TRunSelect (chat : Z) (st : nat)
| TRunWait (chat : Z) (st : nat) (idx : nat) (rest : list Problem)
| TRunDelay (chat : Z) (st : nat) (idx : nat) (rest : list Problem)
| TClaim (chat user : Z) (st : nat) (handle : string) (round_idx : Z)
| TDone.

(** What the outside world hands to a segment when it resumes. *)
Record Input := mkInput {
  in_problems : list Problem;
  in_results : list (option (list Submission));
  in_shuffle : nat → list Problem → list Problem;
  in_sent : bool;
  in_subs : list Submission }.

Record World := mkWorld {
  heap : list Battle;
  ACTIVE_BATTLES : gmap Z nat;
  PENDING_CANCELS : gmap Z Z;
  users : gmap (Z * Z) UserRow;
  points : gmap (Z * Z) PointsRow;
  tasks : list Task;
  out : list Output }.

Definition set_heap (f : list Battle → list Battle) (w : World) : World :=
  mkWorld (f (heap w)) (ACTIVE_BATTLES w) (PENDING_CANCELS w) (users w) (points w)
    (tasks w) (out w).
Definition set_active (f : gmap Z nat → gmap Z nat) (w : World) : World :=
  mkWorld (heap w) (f (ACTIVE_BATTLES w)) (PENDING_CANCELS w) (users w) (points w)
    (tasks w) (out w).
Definition set_pending (f : gmap Z Z → gmap Z Z) (w : World) : World :=
  mkWorld (heap w) (ACTIVE_BATTLES w) (f (PENDING_CANCELS w)) (users w) (points w)
    (tasks w) (out w).
Definition set_users (f : gmap (Z * Z) UserRow → gmap (Z * Z) UserRow) (w : World) : World :=
  mkWorld (heap w) (ACTIVE_BATTLES w) (PENDING_CANCELS w) (f (users w)) (points w)
    (tasks w) (out w).
Definition set_points (f : gmap (Z * Z) PointsRow → gmap (Z * Z) PointsRow) (w : World)
    : World :=
  mkWorld (heap w) (ACTIVE_BATTLES w) (PENDING_CANCELS w) (users w) (f (points w))
    (tasks w) (out w).
Definition set_tasks (f : list Task → list Task) (w : World) : World :=
  mkWorld (heap w) (ACTIVE_BATTLES w) (PENDING_CANCELS w) (users w) (points w)
    (f (tasks w)) (out w).
Definition emit (o : Output) (w : World) : World :=
  mkWorld (heap w) (ACTIVE_BATTLES w) (PENDING_CANCELS w) (users w) (points w)
    (tasks w) (out w ++ [o]).

Definition init_world : World := mkWorld [] ∅ ∅ ∅ ∅ [] [].

(** [st[field] = v] on the dictionary at [l]. *)
Definition upd_battle (l : nat) (f : Battle → Battle) (w : World) : World :=
  set_heap (alter f l) w.

(** [ACTIVE_BATTLES.get(chat_id)] together with the dictionary it refers to. *)
Definition get_battle (chat : Z) (w : World) : option (nat * Battle) :=
  l ← ACTIVE_BATTLES w !! chat; b ← heap w !! l; Some (l, b).

(** [asyncio.create_task] *)
Definition spawn (t : Task) (w : World) : World := set_tasks (λ ts, ts ++ [t]) w.

(** ** Database helpers *)

(** [INSERT OR REPLACE INTO users] and [INSERT OR IGNORE INTO points]. *)
Definition insert_or_ignore (k : Z * Z) (tbl : gmap (Z * Z) PointsRow)
    : gmap (Z * Z) PointsRow :=
  match tbl !! k with
  | Some _ => tbl
  | None => <[k := mkPoints 0 0 0]> tbl
  end.

Definition upsert_user (chat user : Z) (full handle : string) (rating : Z) (w : World)
    : World :=
  set_points (insert_or_ignore (chat, user))
    (set_users (insert (chat, user) (mkUser full handle rating)) w).

Definition get_user (chat user : Z) (w : World) : option UserRow :=
  users w !! (chat, user).

(** The [UPDATE points SET pts=pts+? ...] statements touch the row only if
    it exists, which [alter] does. *)
Definition add_points (chat user delta : Z) (first_solve : bool) (w : World) : World :=
  set_points
    (λ tbl,
       alter (λ r, if first_solve
                   then mkPoints (pts r + delta) (battles r) (first_solves r + 1)
                   else mkPoints (pts r + delta) (battles r) (first_solves r))
             (chat, user) (insert_or_ignore (chat, user) tbl)) w.

Definition bump_battles (r : PointsRow) : PointsRow :=
  mkPoints (pts r) (battles r + 1) (first_solves r).

Definition increment_battles (chat : Z) (user_ids : list Z) (w : World) : World :=
  set_points (λ tbl, foldl (λ tbl uid, alter bump_battles (chat, uid) tbl) tbl user_ids) w.

(** [list(st["participants"].keys())]; the order of the updates does not
    matter to the table they produce. *)
Definition participant_ids (b : Battle) : list Z := (map_to_list (participants b)).*1.

(** ** Round bookkeeping shared by the supervisor *)

Definition post_round (chat : Z) (round_idx : nat) (problem : Problem) (sent : bool)
    (w : World) : World :=
  match get_battle chat w with
  | None => w
  | Some (l, b) =>
      if sent then
        upd_battle l (set_current_problem (Some problem))
          (emit (ORound chat round_idx (num_problems b) problem
                   (rating_to_points (or_zero (p_rating problem)))) w)
      else w
  end.

Definition finalize_battle (chat : Z) (w : World) : World :=
  match get_battle chat w with
  | None => w
  | Some (l, b) =>
      set_active (delete chat) (emit (OBattleFinished chat (num_problems b)) w)
  end.

(** One turn of [for idx, prob in enumerate(...)] up to the first
    [asyncio.sleep(1)]; when the iterator is exhausted the loop is left and
    [finalize_battle] runs. *)
Definition start_round (chat : Z) (l : nat) (idx : nat) (probs : list Problem)
    (sent : bool) (w : World) : Task * World :=
  match probs with
  | [] => (TDone, finalize_battle chat w)
  | prob :: rest =>
      let w1 := upd_battle l (λ b, set_round_finished false
                                     (set_round_winner None (set_round idx b))) w in
      (TRunWait chat l idx rest, post_round chat idx prob sent w1)
  end.

(** ** [handle_finished_callback], cut at [await cf_user_status] *)

(** The checks before the request is sent. *)
Definition claim_check (chat user : Z) (w : World) : ClaimFail + (nat * string) :=
  match get_battle chat w with
  | None => inl NoBattle
  | Some (l, b) =>
      match participants b !! user with
      | None => inl NotParticipant
      | Some handle =>
          match round_winner b with
          | Some _ => inl AlreadyWon
          | None => inr (l, handle)
          end
      end
  end.

Definition is_ok (s : Submission) : bool :=
  bool_decide (s_verdict s = Some "OK"%string).

(** The test inside [for s in subs]. *)
Definition sub_matches (cp : Problem) (s : Submission) : bool :=
  bool_decide (p_contestId (sub_problem s) = p_contestId cp)
  && bool_decide (p_index (sub_problem s) = p_index cp)
  && is_ok s.

(** The scan after the reply arrived.  [st] is the dictionary the coroutine
    fetched before the [await]; it reads [st["current_problem"]] now. *)
Definition claim_verify (chat user : Z) (l : nat) (handle : string) (round_idx : Z)
    (subs : list Submission) (w : World) : ClaimResult * World :=
  match subs with
  | [] => (ClaimRejected NoAC, w)
  | _ :: _ =>
      match heap w !! l with
      | None => (ClaimRaised, w)
      | Some b =>
          match current_problem b with
          | None => (ClaimRaised, w)
          | Some cp =>
              if existsb (sub_matches cp) subs then
                let points := rating_to_points (or_zero (p_rating cp)) in
                let w1 := upd_battle l (set_round_winner (Some (user, handle))) w in
                let w2 := add_points chat user points true w1 in
                let w3 := upd_battle l (set_round_finished true) w2 in
                (ClaimOk handle points, w3)
              else (ClaimRejected NoAC, w)
          end
      end
  end.

(** The handler when nothing else runs between its two segments. *)
Definition handle_finished_callback (chat user : Z) (round_idx : Z)
    (subs : list Submission) (w : World) : ClaimResult * World :=
  match claim_check chat user w with
  | inl why => (ClaimRejected why, w)
  | inr (l, handle) => claim_verify chat user l handle round_idx subs w
  end.

(** What [handle_finished_button] and [cb_query] do with the result. *)
Definition finished_button_tail (chat : Z) (round_idx : Z) (res : ClaimResult)
    (w : World) : World :=
  match res with
  | ClaimOk handle points =>
      let w1 := emit (OReply chat (RClaim round_idx res)) w in
      match get_battle chat w1 with
      | Some _ => emit (ORoundWon chat round_idx handle points) w1
      | None => w1
      end
  | ClaimRejected _ => emit (OReply chat (RClaim round_idx res)) w
  | ClaimRaised => emit (OReply chat RErrorOccurred) w
  end.

(** ** Segments of the background coroutines *)

(** [battle_join_countdown]: after the [k]-th sleep ([k < 6]). *)
Definition countdown_tick (chat : Z) (k : nat) (w : World) : Task * World :=
  match get_battle chat w with
  | None => (TDone, w)
  | Some (l, b) =>
      if decide (status b = joining) then
        (TCountdown chat (S k),
         emit (OJoinUpdate chat (size (participants b)) (30 - (Z.of_nat k + 1) * 5)) w)
      else (TDone, w)
  end.

(** [battle_join_countdown]: the code after the loop. *)
Definition countdown_elapsed (chat : Z) (w : World) : Task * World :=
  match get_battle chat w with
  | None => (TDone, w)
  | Some (l, b) =>
      if Z.of_nat (size (participants b)) <? 2 then
        (TDone, set_active (delete chat) (emit (ONotEnough chat) w))
      else
        (TDone, spawn (TRunStart chat) (upd_battle l (set_status running) w))
  end.

(** [run_battle]: after [select_problems_for_battle] returned. *)
Definition run_selected (chat : Z) (l : nat) (inp : Input) (w : World) : Task * World :=
  match heap w !! l with
  | None => (TDone, w)
  | Some b =>
      let sel := select_problems_for_battle (in_problems inp) (in_results inp)
                   (in_shuffle inp) (ratings b) (num_problems b) in
      let w1 := upd_battle l (set_selected_problems sel) w in
      if bool_decide (sel = []) || (Z.of_nat (length sel) <? num_problems b) then
        (TDone, set_active (delete chat)
                  (emit (OSelectFailed chat (length sel) (num_problems b)) w1))
      else
        start_round chat l 1 sel (in_sent inp)
          (increment_battles chat (participant_ids b) w1)
  end.

(** [run_battle]: one turn of the [while True] polling loop and what follows
    it up to the next suspension. *)
Definition run_poll (chat : Z) (l : nat) (idx : nat) (rest : list Problem)
    (inp : Input) (w : World) : Task * World :=
  match heap w !! l with
  | None => (TDone, w)
  | Some b =>
      if round_finished b || bool_decide (status b = cancelled) then
        let w1 := upd_battle l (set_round_finished false) w in
        if decide (status b = cancelled) then (TDone, w1)
        else if decide (idx < length (selected_problems b))%nat
             then (TRunDelay chat l idx rest, w1)
             else start_round chat l (S idx) rest (in_sent inp) w1
      else (TRunWait chat l idx rest, w)
  end.

(** [run_battle]: after the ten seconds between two rounds. *)
Definition run_next (chat : Z) (l : nat) (idx : nat) (rest : list Problem)
    (inp : Input) (w : World) : Task * World :=
  match heap w !! l with
  | None => (TDone, w)
  | Some b =>
      start_round chat l (S idx) rest (in_sent inp)
        (emit (ONextRound chat ((map_to_list (participants b)).*2)) w)
  end.

Definition step_task (t : Task) (inp : Input) (w : World) : Task * World :=
  match t with
  | TCountdown chat k =>
      if decide (k < 6)%nat then countdown_tick chat k w else countdown_elapsed chat w
  | TRunStart chat =>
      match get_battle chat w with
      | None => (TDone, w)
      | Some (l, _) => (TRunSelect chat l, w)
      end
  | TRunSelect chat l => run_selected chat l inp w
  | TRunWait chat l idx rest => run_poll chat l idx rest inp w
  | TRunDelay chat l idx rest => run_next chat l idx rest inp w
  | TClaim chat user l handle round_idx =>
      let '(res, w1) := claim_verify chat user l handle round_idx (in_subs inp) w in
      (TDone, finished_button_tail chat round_idx res w1)
  | TDone => (TDone, w)
  end.

(** The event loop resumes the coroutine [tid]. *)
Definition resume (tid : nat) (inp : Input) (w : World) : World :=
  match tasks w !! tid with
  | None => w
  | Some t =>
      let '(t', w1) := step_task t inp w in
      set_tasks (<[tid := t']>) w1
  end.

(** ** Commands and button handlers *)

(** A Finished handler that waits for Codeforces. *)
Definition is_claim (t : Task) : bool :=
  match t with TClaim _ _ _ _ _ => true | _ => false end.

Definition claim_pending (w : World) : bool := existsb is_claim (tasks w).

(** What a user or the event loop can make happen. *)
Inductive Event :=
| EvSetHandle (chat user : Z) (full : string) (args : list string)
    (info : option (option Z))
| EvCreateBattle (chat user : Z) (args : list string)
| EvReady (chat user : Z)
| EvFinished (chat user : Z) (round_idx : Z)
| EvCancelBattle (chat user : Z) (prompt_id : Z)
| EvCancelRound (chat user : Z)
| EvConfirmCancel (chat from_user : Z)
| EvNoCancel (chat from_user : Z)
| EvResume (tid : nat) (inp : Input).

(** [info] is the answer of [cf_user_info]: [None] when the handle is not
    found, otherwise the [rating] entry if there is one. *)
Definition cmd_sethandle (chat user : Z) (full : string) (args : list string)
    (info : option (option Z)) (w : World) : World :=
  match args with
  | [] => emit (OReply chat RUsage) w
  | handle :: _ =>
      match info with
      | None => emit (OReply chat RHandleNotFound) w
      | Some r =>
          let rating := default 0 r in
          emit (OReply chat (RHandleSet handle rating))
            (upsert_user chat user full handle rating w)
      end
  end.

Definition new_battle (user : Z) (handle : string) (num : Z) (ratings : list Z) : Battle :=
  mkBattle user handle {[ user := handle ]} num ratings [] 0%nat joining None false None.

Section Commands.
Variable py_int : string → option Z.

Definition cmd_createbattle (chat user : Z) (args : list string) (w : World) : World :=
  match ACTIVE_BATTLES w !! chat with
  | Some _ => emit (OReply chat RAlreadyActive) w
  | None =>
      match get_user chat user w with
      | None => emit (OReply chat RMustSetHandle) w
      | Some u =>
          match parse_create_args py_int args with
          | inl e => emit (OReply chat (RInvalidArgs e)) w
          | inr (num, ratings) =>
              let l := length (heap w) in
              let w1 := set_heap (λ h, h ++ [new_battle user (u_handle u) num ratings]) w in
              let w2 := set_active (insert chat l) w1 in
              spawn (TCountdown chat 0)
                (emit (OBattleCreated chat (u_handle u) num ratings) w2)
          end
      end
  end.

Definition handle_ready_callback (chat user : Z) (w : World) : World :=
  match get_battle chat w with
  | None => emit (OReply chat RBattleExpired) w
  | Some (l, b) =>
      if decide (status b = joining) then
        match get_user chat user w with
        | None => emit (OReply chat RMustSetHandle) w
        | Some u =>
            match participants b !! user with
            | Some _ => emit (OReply chat RAlreadyJoined) w
            | None =>
                emit (OJoined chat (S (size (participants b))))
                  (upd_battle l (set_participants (insert user (u_handle u))) w)
            end
        end
      else emit (OReply chat RAlreadyStarted) w
  end.

(** The first segment of [handle_finished_button]: parse the button data,
    run the checks of [handle_finished_callback], then wait for
    [cf_user_status].  While the handler waits, the dispatcher starts no
    other handler ([serial]); the timers and supervisors go on. *)
Definition finished_pressed (chat user : Z) (round_idx : Z) (w : World) : World :=
  match claim_check chat user w with
  | inl why => finished_button_tail chat round_idx (ClaimRejected why) w
  | inr (l, handle) => spawn (TClaim chat user l handle round_idx) w
  end.

(** [prompt_id] is the identifier Telegram gave to the confirmation message. *)
Definition cmd_cancelbattle (chat user : Z) (prompt_id : Z) (w : World) : World :=
  match get_battle chat w with
  | None => emit (OReply chat RNoActiveBattle) w
  | Some (l, b) =>
      if decide (creator b = user) then
        set_pending (insert chat prompt_id) (emit (OCancelPrompt chat) w)
      else emit (OReply chat ROnlyCreatorCancel) w
  end.

Definition cmd_cancelround (chat user : Z) (w : World) : World :=
  match get_battle chat w with
  | None => emit (OReply chat RNoActiveBattle) w
  | Some (l, b) =>
      if decide (creator b = user) then
        if decide (status b = running) then
          if decide (round b = 0%nat) then emit (OReply chat RNoActiveRound) w
          else
            emit (OReply chat (RRoundCancelled (round b)))
              (upd_battle l (λ b, set_round_winner None (set_round_finished true b)) w)
        else emit (OReply chat RNotRunning) w
      else emit (OReply chat ROnlyCreatorRound) w
  end.

(** [from_user] is [q.from_user.id], the user who pressed the button. *)
Definition handle_confirm_cancel (chat from_user : Z) (w : World) : World :=
  match get_battle chat w with
  | None => emit (OReply chat RNoLongerActive) w
  | Some (l, b) =>
      let w1 := upd_battle l (λ b, set_round_finished true (set_status cancelled b)) w in
      emit (OReply chat RCancelled)
        (set_pending (delete chat) (set_active (delete chat) w1))
  end.

Definition handle_no_cancel (chat from_user : Z) (w : World) : World :=
  emit (OReply chat RContinues) (set_pending (delete chat) w).

Definition exec (e : Event) (w : World) : World :=
  match e with
  | EvSetHandle chat user full args info => cmd_sethandle chat user full args info w
  | EvCreateBattle chat user args => cmd_createbattle chat user args w
  | EvReady chat user => handle_ready_callback chat user w
  | EvFinished chat user round_idx => finished_pressed chat user round_idx w
  | EvCancelBattle chat user prompt_id => cmd_cancelbattle chat user prompt_id w
  | EvCancelRound chat user => cmd_cancelround chat user w
  | EvConfirmCancel chat from_user => handle_confirm_cancel chat from_user w
  | EvNoCancel chat from_user => handle_no_cancel chat from_user w
  | EvResume tid inp => resume tid inp w
  end.

(** The worlds the bot can be in: any sequence of events from the start. *)
Definition run (evs : list Event) (w : World) : World := foldl (flip exec) w evs.

Definition reachable (w : World) : Prop := ∃ evs, w = run evs init_world.

(** An update, as opposed to the resumption of a coroutine. *)
Definition is_update (e : Event) : bool :=
  match e with EvResume _ _ => false | _ => true end.

(** The schedules the dispatcher allows: an update is handled only when no
    Finished handler is waiting. *)
Fixpoint serial (evs : list Event) (w : World) : bool :=
  match evs with
  | [] => true
  | e :: evs' => negb (is_update e && claim_pending w) && serial evs' (exec e w)
  end.
End Commands.

(** ** Concrete data for the examples *)

(** Plain decimal literals with an optional minus sign, which the builtin
    [int] reads as written here; it instantiates [py_int] in the examples. *)
Definition digit_of (a : ascii) : option Z :=
  let n := Z.of_nat (nat_of_ascii a) in
  if (48 <=? n) && (n <=? 57) then Some (n - 48) else None.

Fixpoint digits_value (acc : Z) (s : string) : option Z :=
  match s with
  | EmptyString => Some acc
  | String a s' => d ← digit_of a; digits_value (10 * acc + d) s'
  end.

Definition dec_int (s : string) : option Z :=
  match s with
  | EmptyString => None
  | String "-" EmptyString => None
  | String "-" s' => Z.opp <$> digits_value 0 s'
  | _ => digits_value 0 s
  end.

Definition id_shuffle : nat → list Problem → list Problem := λ _ pool, pool.

Definition prob_A : Problem := mkProblem (Some 1500) (Some "A"%string) (Some "Alpha"%string) (PyInt 1200).
Definition prob_B : Problem := mkProblem (Some 1501) (Some "B"%string) (Some "Beta"%string) (PyInt 1400).
Definition prob_H : Problem := mkProblem (Some 1502) (Some "H"%string) (Some "Hard"%string) (PyInt 3200).

Definition accepted (p : Problem) : Submission := mkSubmission (Some p) (Some "OK"%string).

Definition no_input : Input := mkInput [] [] id_shuffle true [].
Definition subs_input (subs : list Submission) : Input := mkInput [] [] id_shuffle true subs.
Definition catalogue_input (problems : list Problem) : Input :=
  mkInput problems [] id_shuffle true [].

(** Chat 7: users 1 and 2 register, 1 creates a battle, 2 joins, the join
    timer runs out (task 0), the supervisor starts (task 1) and posts round 1. *)
Definition setup (args : list string) (problems : list Problem) : list Event :=
  [ EvSetHandle 7 1 "Ann" ["ann"%string] (Some (Some 1500));
    EvSetHandle 7 2 "Bob" ["bob"%string] (Some None);
    EvCreateBattle 7 1 args;
    EvReady 7 2 ]
  ++ replicate 7 (EvResume 0 no_input)
  ++ [ EvResume 1 no_input; EvResume 1 (catalogue_input problems) ].

(** Targets of the specific-ratings mode whose windows [r - 50, r + 50]
    cannot share a rating: any two are more than 100 apart. *)
Fixpoint windows_disjoint (ratings : list Z) : Prop :=
  match ratings with
  | [] => True
  | r :: ratings' => Forall (λ r', 100 < Z.abs (r - r')) ratings' ∧ windows_disjoint ratings'
  end.

(** The mode test of [select_problems_for_battle]. *)
Definition range_mode (ratings : list Z) (num : Z) : Prop :=
  length ratings = 2%nat ∧ 2 < num.

(** A selected problem sits in the window of a target that is far from
    every target still to come. *)
Definition placed (problems : list Problem) (ratings : list Z) (q : Problem) : Prop :=
  q ∈ problems ∧
  ∃ r', in_window (r' - 50) (r' + 50) q = true ∧ Forall (λ r, 100 < Z.abs (r' - r)) ratings.

(** The creation arguments the specification calls invalid: fewer than two
    of them, a problem count outside 1-10, or some rating outside 800-3500. *)
Definition invalid_args (py_int : string → option Z) (args : list string) : Prop :=
  (length args < 2)%nat
  ∨ (∃ a0 rest num, args = a0 :: rest ∧ py_int a0 = Some num ∧ (num < 1 ∨ 10 < num))
  ∨ (∃ a0 rest x r, args = a0 :: rest ∧ x ∈ rest ∧ py_int x = Some r ∧ (r < 800 ∨ 3500 < r)).

(** Among the fetched submissions there is an accepted one for problem [cp]. *)
Definition has_accepted (cp : Problem) (subs : list Submission) : Prop :=
  ∃ s, s ∈ subs ∧ p_contestId (sub_problem s) = p_contestId cp
       ∧ p_index (sub_problem s) = p_index cp ∧ s_verdict s = Some "OK"%string.

(** The points a win on [cp] is worth. *)
Definition points_of (cp : Problem) : Z := rating_to_points (or_zero (p_rating cp)).

(** A round result reported to the chat. *)
Definition is_award (o : Output) : bool :=
  match o with OReply _ (RClaim _ (ClaimOk _ _)) => true | _ => false end.

(** A claimant told that the round was already won. *)
Definition is_already_won (o : Output) : bool :=
  match o with OReply _ (RClaim _ (ClaimRejected AlreadyWon)) => true | _ => false end.

(** A one-round battle whose round user 2 has won (the claim ran as task 2). *)
Definition won_round : list Event :=
  setup ["1"; "1200"]%string [prob_A]
  ++ [ EvFinished 7 2 1; EvResume 2 (subs_input [accepted prob_A]) ].

(** A two-round battle: user 2 wins round 1 (task 2), the supervisor
    notices it and pauses before round 2. *)
Definition first_win : list Event :=
  setup ["2"; "1200"; "1400"]%string [prob_A; prob_B]
  ++ [ EvFinished 7 2 1; EvResume 2 (subs_input [accepted prob_A]); EvResume 1 no_input ].

(** During that pause the creator sends /cancelround, and then user 1
    presses the Finished button of round 1, holding an accepted submission
    for its problem too (task 3). *)
Definition second_win : list Event :=
  first_win
  ++ [ EvCancelRound 7 1; EvFinished 7 1 1; EvResume 3 (subs_input [accepted prob_A]) ].

(** User 1 creates a battle, cancels it at once and creates another one,
    which user 2 joins.  The join timer of the first battle (task 0) finds
    a joining battle at each of its ticks and goes on beside the timer of
    the second (task 1).  Each tick awaits the edit of the join message, and
    the two sixth ticks have both made their test before either edit
    returns; then both timers run their last part.  The supervisor started
    by the first of them (task 2) selects and posts round 1. *)
Definition double_start : list Event :=
  [ EvSetHandle 7 1 "Ann" ["ann"%string] (Some (Some 1500));
    EvSetHandle 7 2 "Bob" ["bob"%string] (Some None);
    EvCreateBattle 7 1 ["1"; "1200"]%string;
    EvCancelBattle 7 1 99; EvConfirmCancel 7 1;
    EvCreateBattle 7 1 ["1"; "1200"]%string;
    EvReady 7 2 ]
  ++ concat (replicate 6 [EvResume 0 no_input; EvResume 1 no_input])
  ++ [ EvResume 0 no_input; EvResume 1 no_input;
       EvResume 2 no_input; EvResume 2 (catalogue_input [prob_A]) ].

(** The supervisor started by the second timer (task 3) then enters too. *)
Definition double_entry : list Event :=
  double_start ++ [ EvResume 3 no_input; EvResume 3 (catalogue_input [prob_A]) ].

(** A two-round battle in which the creator has asked to cancel. *)
Definition cancel_asked : list Event :=
  setup ["2"; "1200"; "1400"]%string [prob_A; prob_B] ++ [ EvCancelBattle 7 1 99 ].

(** What follows the confirmation of that request: the supervisor polls,
    user 2 presses Finished, and user 1 sets up the next battle. *)
Definition after_cancel : list Event :=
  [ EvResume 1 no_input; EvFinished 7 2 1; EvCreateBattle 7 1 ["1"; "1200"]%string ].

(** The creator skips round 1, whose announcement keeps its Finished
    button; the supervisor moves on and posts round 2. *)
Definition second_round : list Event :=
  setup ["2"; "1200"; "1400"]%string [prob_A; prob_B]
  ++ [ EvCancelRound 7 1; EvResume 1 no_input; EvResume 1 no_input ].

(** The same, but Telegram refuses the announcement of round 2. *)
Definition undelivered_round : list Event :=
  setup ["2"; "1200"; "1400"]%string [prob_A; prob_B]
  ++ [ EvCancelRound 7 1; EvResume 1 no_input;
       EvResume 1 (mkInput [] [] id_shuffle false []) ].

(** A one-round battle on a problem rated 3200. *)
Definition hard_round : list Event := setup ["1"; "3200"]%string [prob_H].

(** ** Invariants of the reachable worlds *)

(** A dictionary or a supervisor waiting for its problems belongs to the
    chat that registered it. *)
Definition owns (w : World) (chat : Z) (l : nat) : Prop :=
  ACTIVE_BATTLES w !! chat = Some l ∨ TRunSelect chat l ∈ tasks w.

Record inv (w : World) : Prop := mkInv {
  (* a running battle has at least two participants *)
  inv_gated : ∀ l b, heap w !! l = Some b → status b = running →
              (2 ≤ size (participants b))%nat;
  (* the problem count was validated at creation *)
  inv_count : ∀ l b, heap w !! l = Some b → 1 ≤ num_problems b ≤ 10;
  (* registering a handle creates the points row *)
  inv_rows : ∀ k, is_Some (users w !! k) → is_Some (points w !! k);
  inv_bound : ∀ chat l, owns w chat l → (l < length (heap w))%nat;
  inv_home : ∀ chat chat' l, owns w chat l → owns w chat' l → chat = chat';
  (* participants registered a handle in the battle's chat *)
  inv_members : ∀ chat l b u, owns w chat l → heap w !! l = Some b →
                is_Some (participants b !! u) → is_Some (users w !! (chat, u)) }.

(** Updates of a battle dictionary that leave its participants and problem
    count alone and do not start it. *)
Definition inert (f : Battle → Battle) : Prop :=
  ∀ b, participants (f b) = participants b
       ∧ num_problems (f b) = num_problems b
       ∧ (status (f b) = running → status b = running).

(** A coroutine may be parked as [t] in world [w]. *)
Definition parks (w : World) (t : Task) : Prop :=
  ∀ chat l, t = TRunSelect chat l → ACTIVE_BATTLES w !! chat = Some l.

(** The join phase of chat 7 up to the last tick of the countdown (task 0),
    with and without a second participant. *)
Definition join_phase (second_joins : bool) : list Event :=
  [ EvSetHandle 7 1 "Ann" ["ann"%string] (Some (Some 1500));
    EvSetHandle 7 2 "Bob" ["bob"%string] (Some None);
    EvCreateBattle 7 1 ["2"; "1200"; "1400"]%string ]
  ++ (if second_joins then [EvReady 7 2] else [])
  ++ replicate 6 (EvResume 0 no_input).

(** The same battle when the supervisor (task 1) waits for its problems. *)
Definition selecting : list Event :=
  join_phase true ++ [ EvResume 0 no_input; EvResume 1 no_input ].

Definition small_catalogue : list Problem := [prob_A; prob_B; prob_H].

(** ** The candidate pools of the selector *)

(** A problem none of the fetched histories mentions. *)
Definition is_fresh (attempted : gset string) (p : Problem) : bool :=
  bool_decide (problem_key p ∉ attempted).

(** The candidates of range mode, before the shuffle. *)
Definition range_pool (problems : list Problem) (ratings : list Z) : list Problem :=
  List.filter (in_window (py_min ratings - 50) (py_max ratings + 50)) problems.

(** The candidates of one target of the specific-ratings mode. *)
Definition target_pool (problems : list Problem) (r : Z) : list Problem :=
  List.filter (in_window (r - 50) (r + 50)) problems.

(** What the specific-ratings mode finds target by target, were it never
    to stop early: the first fresh problem of each shuffled pool, targets
    without one left out. *)
Fixpoint target_finds (attempted : gset string) (problems : list Problem)
    (shuffle : nat → list Problem → list Problem) (i : nat) (ratings : list Z)
    : list Problem :=
  match ratings with
  | [] => []
  | r :: ratings' =>
      match first_unattempted attempted (shuffle i (target_pool problems r)) with
      | Some found => found :: target_finds attempted problems shuffle (S i) ratings'
      | None => target_finds attempted problems shuffle (S i) ratings'
      end
  end.

(** The rating of [p] is an integer between [lo] and [hi]. *)
Definition rated_within (lo hi : Z) (p : Problem) : Prop :=
  ∃ z, isinstance_int (p_rating p) = Some z ∧ lo ≤ z ≤ hi.

(** Chat 7 with a battle created from [args], joined by user 2, whose
    supervisor (task 1) waits for its problems. *)
Definition selecting_with (args : list string) : list Event :=
  [ EvSetHandle 7 1 "Ann" ["ann"%string] (Some (Some 1500));
    EvSetHandle 7 2 "Bob" ["bob"%string] (Some None);
    EvCreateBattle 7 1 args;
    EvReady 7 2 ]
  ++ replicate 7 (EvResume 0 no_input)
  ++ [ EvResume 1 no_input ].

(** ** Well-formed worlds *)

(** The battle dictionary a suspended coroutine refers to, with the chat
    it works for. *)
Definition task_ref (t : Task) : option (Z * nat) :=
  match t with
  | TRunSelect chat l | TRunWait chat l _ _ | TRunDelay chat l _ _
  | TClaim chat _ l _ _ => Some (chat, l)
  | TCountdown _ _ | TRunStart _ | TDone => None
  end.

(** The chat a coroutine works for; a finished one works for none. *)
Definition task_chat (t : Task) : option Z :=
  match t with
  | TCountdown chat _ | TRunStart chat | TRunSelect chat _ | TRunWait chat _ _ _
  | TRunDelay chat _ _ _ | TClaim chat _ _ _ _ => Some chat
  | TDone => None
  end.

(** Dictionary [l] is reachable from chat [chat]: through the registry or
    through a coroutine of that chat. *)
Definition refs (w : World) (chat : Z) (l : nat) : Prop :=
  ACTIVE_BATTLES w !! chat = Some l ∨ ∃ t, t ∈ tasks w ∧ task_ref t = Some (chat, l).

Record wf (w : World) : Prop := mkWf {
  wf_bound : ∀ chat l, refs w chat l → (l < length (heap w))%nat;
  (* a dictionary is only ever reachable from the chat it was created in *)
  wf_home : ∀ chat chat' l, refs w chat l → refs w chat' l → chat = chat';
  wf_members : ∀ chat l b u, refs w chat l → heap w !! l = Some b →
               is_Some (participants b !! u) → is_Some (users w !! (chat, u));
  wf_claims : ∀ chat user l h i, TClaim chat user l h i ∈ tasks w →
              is_Some (users w !! (chat, user));
  (* the two tables have the same keys *)
  wf_tables : ∀ k, is_Some (points w !! k) ↔ is_Some (users w !! k);
  wf_rows : ∀ k r, points w !! k = Some r →
            0 ≤ pts r ≤ 85 * first_solves r ∧ 0 ≤ battles r;
  (* a registered battle is not cancelled *)
  wf_live : ∀ chat l b, ACTIVE_BATTLES w !! chat = Some l → heap w !! l = Some b →
            status b ≠ cancelled;
  wf_creator : ∀ l b, heap w !! l = Some b → is_Some (participants b !! creator b) }.

(** Updates of a battle dictionary that keep its creator and participants
    and do not cancel it. *)
Definition quiet (f : Battle → Battle) : Prop :=
  ∀ b, participants (f b) = participants b
       ∧ creator (f b) = creator b
       ∧ (status (f b) = cancelled → status b = cancelled).

(** A task that may replace another one or be spawned in [w]. *)
Definition fits (w : World) (t : Task) : Prop :=
  (∀ chat l, task_ref t = Some (chat, l) → refs w chat l)
  ∧ (∀ chat user l h i, t = TClaim chat user l h i → is_Some (users w !! (chat, user))).

(** ** What a handler may change *)

(** The order in which a battle's status advances. *)
Definition status_le (s s' : Status) : Prop := s = s' ∨ s = joining ∨ s' = cancelled.

(** A later state of the same battle dictionary. *)
Record evolves (b b' : Battle) : Prop := mkEvolves {
  ev_creator : creator b' = creator b;
  ev_creator_handle : creator_handle b' = creator_handle b;
  ev_num : num_problems b' = num_problems b;
  ev_ratings : ratings b' = ratings b;
  ev_participants : participants b ⊆ participants b';
  ev_status : status_le (status b) (status b') }.

Definition minor (f : Battle → Battle) : Prop := ∀ b, evolves b (f b).

(** A later state of the same row of the points table. *)
Definition row_le (r r' : PointsRow) : Prop :=
  pts r ≤ pts r' ∧ battles r ≤ battles r' ∧ first_solves r ≤ first_solves r'.

(** [w'] differs from [w] only in what belongs to chat [c]; of the battle
    dictionaries only those at the locations [L] were written. *)
Record changes (c : Z) (L : nat → Prop) (w w' : World) : Prop := mkChanges {
  ch_heap : ∀ l b, heap w !! l = Some b →
            ∃ b', heap w' !! l = Some b' ∧ evolves b b' ∧ (¬ L l → b' = b);
  ch_active : ∀ c', c' ≠ c → ACTIVE_BATTLES w' !! c' = ACTIVE_BATTLES w !! c';
  ch_pending : ∀ c', c' ≠ c → PENDING_CANCELS w' !! c' = PENDING_CANCELS w !! c';
  ch_users : ∀ c' u, c' ≠ c → users w' !! (c', u) = users w !! (c', u);
  ch_points : ∀ c' u, c' ≠ c → points w' !! (c', u) = points w !! (c', u);
  ch_handles : ∀ k, is_Some (users w !! k) → is_Some (users w' !! k);
  ch_rows : ∀ k r, points w !! k = Some r → ∃ r', points w' !! k = Some r' ∧ row_le r r';
  ch_tasks : ∀ tid t, tasks w !! tid = Some t → task_chat t ≠ Some c →
             tasks w' !! tid = Some t }.

(** The chat an event addresses: the chat of the command, the chat named in
    the button data, or the chat the resumed coroutine works for. *)
Definition event_chat (w : World) (e : Event) : option Z :=
  match e with
  | EvSetHandle chat _ _ _ _ | EvCreateBattle chat _ _ | EvReady chat _
  | EvFinished chat _ _ | EvCancelBattle chat _ _ | EvCancelRound chat _
  | EvConfirmCancel chat _ | EvNoCancel chat _ => Some chat
  | EvResume tid _ => t ← tasks w !! tid; task_chat t
  end.

(** ** Statistics *)

(** [SELECT pts, battles, first_solves FROM points WHERE chat_id=? AND user_id=?] *)
Definition get_user_stats (chat user : Z) (w : World) : option PointsRow :=
  points w !! (chat, user).

Inductive StatsReply :=
| RNoStats
| RStats (pts battles first_solves : Z).

(** [cmd_userstats]: a fetched row is a non-empty tuple, hence truthy. *)
Definition cmd_userstats (chat user : Z) (w : World) : StatsReply :=
  match get_user_stats chat user w with
  | None => RNoStats
  | Some r => RStats (pts r) (battles r) (first_solves r)
  end.

(** ** More concrete data *)

(** The two-round battle of chat 7 in its first round, and a battle that
    user 1 has just created in chat 8. *)
Definition two_chats : list Event :=
  setup ["2"; "1200"; "1400"]%string [prob_A; prob_B]
  ++ [ EvSetHandle 8 1 "Ann" ["ann"%string] (Some (Some 1500));
       EvCreateBattle 8 1 ["1"; "1200"]%string ].

Definition blank_battle : Battle := new_battle 0 EmptyString 0 [].

(** ** Inline buttons and [cb_query] *)

Inductive Button :=
| BReady (chat : Z)
| BFinished (chat : Z) (round_idx : nat)
| BConfirmCancel (chat : Z)
| BNoCancel (chat : Z).

(** The [callback_data] f-strings of [cmd_createbattle] (and the join
    message edits), [post_round] and [cmd_cancelbattle]. *)
Definition callback_data (b : Button) : string :=
  match b with
  | BReady chat => "ready:" +:+ pretty chat
  | BFinished chat round_idx =>
      "finished:" +:+ pretty chat +:+ ":" +:+ pretty (Z.of_nat round_idx)
  | BConfirmCancel chat => "confirmcancel:" +:+ pretty chat
  | BNoCancel chat => "nocancel:" +:+ pretty chat
  end.

(** The integers formatted into the data of a button. *)
Definition button_ints (b : Button) : list Z :=
  match b with
  | BReady chat | BConfirmCancel chat | BNoCancel chat => [chat]
  | BFinished chat round_idx => [chat; Z.of_nat round_idx]
  end.

(** The update that pressing a button is meant to cause. *)
Definition pressed (from_user : Z) (b : Button) : Event :=
  match b with
  | BReady chat => EvReady chat from_user
  | BFinished chat round_idx => EvFinished chat from_user (Z.of_nat round_idx)
  | BConfirmCancel chat => EvConfirmCancel chat from_user
  | BNoCancel chat => EvNoCancel chat from_user
  end.

(** [s.split(":")] *)
Fixpoint split_colon (s : string) : list string :=
  match s with
  | EmptyString => [EmptyString]
  | String a s' =>
      if Ascii.eqb a ":" then EmptyString :: split_colon s'
      else match split_colon s' with
           | p :: ps => String a p :: ps
           | [] => [String a EmptyString]
           end
  end.

(** [s.split(":", 1)] *)
Fixpoint split_colon_once (s : string) : list string :=
  match s with
  | EmptyString => [EmptyString]
  | String a s' =>
      if Ascii.eqb a ":" then [EmptyString; s']
      else match split_colon_once s' with
           | p :: ps => String a p :: ps
           | [] => [String a EmptyString]
           end
  end.

Fixpoint colon_free (s : string) : bool :=
  match s with
  | EmptyString => true
  | String a s' => negb (Ascii.eqb a ":") && colon_free s'
  end.

(** What [cb_query] does with the data of a pressed button: it hands the
    update to a handler, does nothing, or answers that an error occurred
    because the handler raised while reading the data. *)
Inductive Routed :=
| Handled (e : Event)
| Unhandled
| ErrorOccurred.

Section Callbacks.
Variable py_int : string → option Z.

(** [_, chat_s = data.split(":", 1); chat_id = int(chat_s)] *)
Definition callback_chat (data : string) : option Z :=
  match split_colon_once data with
  | [_; chat_s] => py_int chat_s
  | _ => None
  end.

(** [parts = data.split(":")], [int(parts[1])], [int(parts[2])] *)
Definition callback_round (data : string) : option (Z * Z) :=
  let parts := split_colon data in
  chat_s ← parts !! 1%nat; chat ← py_int chat_s;
  round_s ← parts !! 2%nat; round_idx ← py_int round_s;
  Some (chat, round_idx).

Definition cb_query (from_user : Z) (data : string) : Routed :=
  if String.prefix "ready:" data then
    match callback_chat data with
    | Some chat => Handled (EvReady chat from_user)
    | None => ErrorOccurred
    end
  else if String.prefix "finished:" data then
    match callback_round data with
    | Some (chat, round_idx) => Handled (EvFinished chat from_user round_idx)
    | None => ErrorOccurred
    end
  else if String.prefix "confirmcancel:" data then
    match callback_chat data with
    | Some chat => Handled (EvConfirmCancel chat from_user)
    | None => ErrorOccurred
    end
  else if String.prefix "nocancel:" data then
    match callback_chat data with
    | Some chat => Handled (EvNoCancel chat from_user)
    | None => ErrorOccurred
    end
  else Unhandled.
End Callbacks.

(** ** Commands of one user *)

(** The commands and buttons that are checked against the user who issued
    them; the two buttons of the cancel prompt are not. *)
Definition acts_for (chat user : Z) (e : Event) : Prop :=
  match e with
  | EvCreateBattle c u _ | EvReady c u | EvFinished c u _ | EvCancelBattle c u _
  | EvCancelRound c u => c = chat ∧ u = user
  | EvSetHandle _ _ _ _ _ | EvConfirmCancel _ _ | EvNoCancel _ _ | EvResume _ _ => False
  end.

(** ** The problem-set cache *)

(** [PROBLEMSET_CACHE] and [PROBLEMSET_LAST]; [T] is the type of the clock
    values [time.time()] returns. *)
Record Cache (T : Type) := mkCache {
  PROBLEMSET_CACHE : list Problem;
  PROBLEMSET_LAST : T }.
Arguments mkCache {T} _ _.
Arguments PROBLEMSET_CACHE {T} _.
Arguments PROBLEMSET_LAST {T} _.

Section ProblemSet.
Context {T : Type}.
(** [expired now last] is the test [now - last > 60 * 60 * 6]. *)
Variable expired : T → T → bool.

(** [reply] is what [cf_api] answered, read as the function reads it:
    [Some problems] for data with status OK, [None] otherwise. *)
Definition cf_problemset (now : T) (reply : option (list Problem)) (c : Cache T)
    : list Problem * Cache T :=
  if bool_decide (PROBLEMSET_CACHE c = []) || expired now (PROBLEMSET_LAST c) then
    match reply with
    | Some problems => (problems, mkCache problems now)
    | None => (PROBLEMSET_CACHE c, c)
    end
  else (PROBLEMSET_CACHE c, c).

(** Successive calls, each with its clock value and the answer Codeforces
    would give; the lists returned, in order, and the cache left behind. *)
Fixpoint serve (calls : list (T * option (list Problem))) (c : Cache T)
    : list (list Problem) * Cache T :=
  match calls with
  | [] => ([], c)
  | (now, reply) :: calls' =>
      let '(res, c1) := cf_problemset now reply c in
      let '(ress, c2) := serve calls' c1 in
      (res :: ress, c2)
  end.
End ProblemSet.

(** Clock values in whole seconds. *)
Definition expired_Z (now last : Z) : bool := 60 * 60 * 6 <? now - last.

(** ** A battle cancelled while a round is in progress *)

(** A coroutine that is not a supervisor waiting for its problems or
    pausing between two rounds. *)
Definition in_round_task (t : Task) : Prop :=
  match t with
  | TRunSelect _ _ | TRunDelay _ _ _ _ => False
  | _ => True
  end.

(** The dictionary at [l] is cancelled and holds the round data of [b0];
    it is registered for no chat; the coroutines that still refer to it are
    supervisors in their polling loop. *)
Record retired (l : nat) (b0 : Battle) (w : World) : Prop := mkRetired {
  rt_entry : ∃ b, heap w !! l = Some b ∧ status b = cancelled
                  ∧ round b = round b0 ∧ round_winner b = round_winner b0
                  ∧ current_problem b = current_problem b0
                  ∧ selected_problems b = selected_problems b0
                  ∧ participants b = participants b0;
  rt_free : ∀ c, ACTIVE_BATTLES w !! c ≠ Some l;
  rt_tasks : ∀ t c, t ∈ tasks w → task_ref t = Some (c, l) →
             ∃ idx rest, t = TRunWait c l idx rest }.

(** * Properties *)

(** ** The point table *)

Lemma band_value_out (r : Z) : r < 800 ∨ 3099 < r → band_value r = 0.
Proof.
  intros Hr. unfold band_value.
  destruct (Z.leb_spec 800 r); destruct (Z.leb_spec r 3099); cbn [andb]; try reflexivity; lia.
Qed.

(** The loop over a table of consecutive bands of width 100 finds the band
    by division. *)
Lemma point_lookup_bands (vs : list Z) (a r : Z) :
  a ≤ r →
  point_lookup (bands_from a vs) r =
  if r <? a + 100 * Z.of_nat (length vs) then nth (Z.to_nat ((r - a) / 100)) vs 0 else 0.
Proof.
  revert a. induction vs as [|v vs IH]; intros a Ha.
  - cbn [bands_from point_lookup length].
    destruct (r <? _); [|reflexivity]. by destruct (Z.to_nat _).
  - cbn [bands_from point_lookup].
    rewrite (proj2 (Z.leb_le a r)) by lia. cbn [andb].
    destruct (Z.leb_spec r (a + 99)) as [Hin|Hout].
    + rewrite (proj2 (Z.ltb_lt _ _)) by (cbn [length]; lia).
      replace ((r - a) / 100) with 0 by (symmetry; apply Z.div_small; lia). reflexivity.
    + rewrite IH by lia. cbn [length].
      replace (a + 100 + 100 * Z.of_nat (length vs))
        with (a + 100 * Z.of_nat (S (length vs))) by lia.
      destruct (r <? a + 100 * Z.of_nat (S (length vs))); [|reflexivity].
      replace ((r - a) / 100) with ((r - (a + 100)) / 100 + 1).
      * rewrite Z2Nat.inj_add by (try apply Z.div_pos; lia).
        rewrite Nat.add_comm. reflexivity.
      * replace (r - a) with ((r - (a + 100)) + 1 * 100) by lia.
        rewrite Z.div_add by lia. reflexivity.
Qed.

Lemma point_lookup_below (m : list ((Z * Z) * Z)) (r : Z) :
  Forall (λ e, r < e.1.1) m → point_lookup m r = 0.
Proof.
  induction 1 as [|[[a b] v] m Ha _ IH]; [reflexivity|]. simpl in *.
  rewrite (proj2 (Z.leb_gt _ _)) by lia. exact IH.
Qed.

Lemma point_lookup_band (r : Z) : point_lookup POINT_MAP r = band_value r.
Proof.
  unfold band_value. destruct (Z.leb_spec 800 r) as [Hlo|Hlo]; cbn [andb].
  - change POINT_MAP with (bands_from 800 band_table).
    rewrite point_lookup_bands by done.
    change (800 + 100 * Z.of_nat (length band_table)) with 3100.
    destruct (Z.ltb_spec r 3100), (Z.leb_spec r 3099); try reflexivity; lia.
  - apply point_lookup_below. unfold POINT_MAP. repeat constructor; simpl; lia.
Qed.

(** C4: [rating_to_points] returns a value for every input, and it is the
    value of the band table: for an integer rating in 800-3099 the entry of
    its 100-wide band (1, 1, 2, 2, 3, 3, 4, 5, 6, 7, 8, 10, 12, 15, 18, 22,
    27, 33, 40, 48, 58, 70, 85), and 0 for an integer outside all bands and
    for a rating that is missing or not an integer. *)
Theorem rating_to_points_total (v : pyval) : rating_to_points v = pointsFor_spec v.
Proof.
  destruct v as [|b|z|s]; try reflexivity.
  - destruct b; reflexivity.
  - apply point_lookup_band.
Qed.
(** ** The problem selector *)

(** *** The attempted set *)

Section Selector.
Implicit Types (attempted : gset string) (pool selected : list Problem).

Lemma add_attempted_spec acc subs k :
  k ∈ add_attempted acc subs ↔ k ∈ acc ∨ ∃ s, s ∈ subs ∧ k = problem_key (sub_problem s).
Proof.
  revert acc k. induction subs as [|s subs IH]; intros acc k; simpl.
  - split; [auto | intros [?|(s & Hs & _)]; [done | inversion Hs]].
  - rewrite IH. split.
    + intros [Hk | (s' & Hs' & ->)].
      * apply elem_of_union in Hk as [Hk | Hk]; [|auto].
        apply elem_of_singleton in Hk as ->. right. exists s. split; [left | done].
      * right. exists s'. split; [by right | done].
    + intros [Hk | (s' & Hs' & ->)].
      * left. apply elem_of_union. by right.
      * apply elem_of_cons in Hs' as [-> | Hs']; [left | right; eauto].
        apply elem_of_union. left. by apply elem_of_singleton.
Qed.

Lemma attempted_of_from acc results k :
  k ∈ foldl (λ acc r, match r with Some subs => add_attempted acc subs | None => acc end)
        acc results
  ↔ k ∈ acc ∨ ∃ subs s, Some subs ∈ results ∧ s ∈ subs ∧ k = problem_key (sub_problem s).
Proof.
  revert acc k. induction results as [|r results IH]; intros acc k; simpl.
  - split; [auto | intros [?|(subs & s & Hs & _)]; [done | inversion Hs]].
  - rewrite IH. destruct r as [subs0|].
    + rewrite add_attempted_spec. split.
      * intros [[Hk | (s & Hs & ->)] | (subs & s & Hin & Hs & ->)]; [by left | |].
        -- right. exists subs0, s. split; [left | done].
        -- right. exists subs, s. split; [by right | done].
      * intros [Hk | (subs & s & Hin & Hs & ->)]; [by left; left |].
        apply elem_of_cons in Hin as [Heq | Hin].
        -- injection Heq as ->. left. right. eauto.
        -- right. eauto.
    + split.
      * intros [Hk | (subs & s & Hin & Hs & ->)]; [by left |].
        right. exists subs, s. split; [by right | done].
      * intros [Hk | (subs & s & Hin & Hs & ->)]; [by left |].
        apply elem_of_cons in Hin as [Heq | Hin]; [done | right; eauto].
Qed.

Lemma attempted_of_spec results k :
  k ∈ attempted_of results
  ↔ ∃ subs s, Some subs ∈ results ∧ s ∈ subs ∧ k = problem_key (sub_problem s).
Proof.
  unfold attempted_of. rewrite attempted_of_from. split; [|auto].
  intros [Hk | H]; [set_solver | done].
Qed.

(** *** Range mode *)

Lemma range_loop_fresh attempted num pool selected p :
  p ∈ range_loop attempted num pool selected →
  p ∈ selected ∨ problem_key p ∉ attempted.
Proof.
  revert selected. induction pool as [|q pool IH]; intros selected; simpl; [auto|].
  destruct (decide (problem_key q ∈ attempted)) as [Hq|Hq]; [apply IH|].
  assert (p ∈ selected ++ [q] → p ∈ selected ∨ problem_key p ∉ attempted) as Hsnoc.
  { intros Hp. apply elem_of_app in Hp as [Hp|Hp]; [auto|].
    apply list_elem_of_singleton in Hp as ->. auto. }
  destruct (num <=? Z.of_nat (length (selected ++ [q]))); [done|].
  intros Hp. apply IH in Hp as [Hp|Hp]; auto.
Qed.

Lemma range_loop_length attempted num pool selected :
  Z.of_nat (length selected) < num →
  Z.of_nat (length (range_loop attempted num pool selected)) ≤ num.
Proof.
  revert selected. induction pool as [|q pool IH]; intros selected Hlen; simpl; [lia|].
  destruct (decide (problem_key q ∈ attempted)); [by apply IH|].
  destruct (Z.leb_spec num (Z.of_nat (length (selected ++ [q])))) as [Hfull|Hroom].
  - rewrite length_app in *. simpl in *. lia.
  - by apply IH.
Qed.

Lemma range_loop_NoDup attempted num pool selected :
  NoDup (problem_key <$> selected ++ pool) →
  NoDup (problem_key <$> range_loop attempted num pool selected).
Proof.
  revert selected. induction pool as [|q pool IH]; intros selected Hnd; simpl.
  - by rewrite app_nil_r in Hnd.
  - assert (NoDup (problem_key <$> (selected ++ [q]) ++ pool)) as Hnd'.
    { by rewrite <- app_assoc. }
    destruct (decide (problem_key q ∈ attempted)).
    + apply IH. rewrite fmap_app in *. simpl in Hnd.
      apply NoDup_app in Hnd as (H1 & H2 & H3). apply NoDup_app. split_and!; [done| |].
      * intros x Hx Hx'. apply (H2 x Hx). by right.
      * by apply NoDup_cons in H3 as [_ ?].
    + destruct (num <=? Z.of_nat (length (selected ++ [q]))); [|by apply IH].
      rewrite fmap_app in Hnd'. by apply NoDup_app in Hnd' as (? & _ & _).
Qed.
End Selector.

(** *** Specific-ratings mode *)

Section SelectorTargets.
Implicit Types (attempted : gset string) (pool selected : list Problem).

Lemma first_unattempted_Some attempted pool p :
  first_unattempted attempted pool = Some p → p ∈ pool ∧ problem_key p ∉ attempted.
Proof.
  unfold first_unattempted. intros H. apply find_some in H as [Hin Hp].
  split; [by apply list_elem_of_In | by apply bool_decide_eq_true in Hp].
Qed.

Lemma target_loop_fresh attempted num problems shuffle i ratings selected p :
  p ∈ target_loop attempted num problems shuffle i ratings selected →
  p ∈ selected ∨ problem_key p ∉ attempted.
Proof.
  revert i selected. induction ratings as [|r ratings IH]; intros i selected; simpl; [auto|].
  set (pool := shuffle i _).
  destruct (first_unattempted attempted pool) as [found|] eqn:Hfound.
  - apply first_unattempted_Some in Hfound as [_ Hfresh].
    assert (p ∈ selected ++ [found] → p ∈ selected ∨ problem_key p ∉ attempted) as Hsnoc.
    { intros Hp. apply elem_of_app in Hp as [Hp|Hp]; [auto|].
      apply list_elem_of_singleton in Hp as ->. auto. }
    destruct (num <=? Z.of_nat (length (selected ++ [found]))); [done|].
    intros Hp. apply IH in Hp as [Hp|Hp]; auto.
  - destruct (num <=? Z.of_nat (length selected)); [auto | apply IH].
Qed.

Lemma target_loop_length attempted num problems shuffle i ratings selected :
  Z.of_nat (length selected) < num →
  Z.of_nat (length (target_loop attempted num problems shuffle i ratings selected)) ≤ num.
Proof.
  revert i selected. induction ratings as [|r ratings IH]; intros i selected Hlen; simpl; [lia|].
  set (pool := shuffle i _).
  destruct (first_unattempted attempted pool) as [found|].
  - destruct (Z.leb_spec num (Z.of_nat (length (selected ++ [found])))) as [Hfull|Hroom].
    + rewrite length_app in *. simpl in *. lia.
    + by apply IH.
  - destruct (Z.leb_spec num (Z.of_nat (length selected))); [lia | by apply IH].
Qed.

Lemma in_window_far r r' p q :
  in_window (r - 50) (r + 50) p = true → in_window (r' - 50) (r' + 50) q = true →
  100 < Z.abs (r' - r) → p ≠ q.
Proof.
  unfold in_window. intros Hp Hq Hfar ->.
  destruct (isinstance_int (p_rating q)) as [z|]; [|done].
  apply andb_true_iff in Hp as [?%Z.leb_le ?%Z.leb_le].
  apply andb_true_iff in Hq as [?%Z.leb_le ?%Z.leb_le]. lia.
Qed.

Lemma key_inj_on problems p q :
  NoDup (problem_key <$> problems) → p ∈ problems → q ∈ problems →
  problem_key p = problem_key q → p = q.
Proof.
  induction problems as [|x problems IH]; simpl; intros Hnd Hp Hq Hk; [inversion Hp|].
  apply NoDup_cons in Hnd as [Hx Hnd].
  apply elem_of_cons in Hp as [->|Hp]; apply elem_of_cons in Hq as [->|Hq]; auto.
  - exfalso. apply Hx. rewrite Hk. apply list_elem_of_fmap. eauto.
  - exfalso. apply Hx. rewrite <- Hk. apply list_elem_of_fmap. eauto.
Qed.

Lemma target_loop_NoDup attempted num problems shuffle i ratings selected :
  (∀ i l, shuffle i l ≡ₚ l) →
  NoDup (problem_key <$> problems) →
  windows_disjoint ratings →
  Forall (placed problems ratings) selected →
  NoDup (problem_key <$> selected) →
  NoDup (problem_key <$> target_loop attempted num problems shuffle i ratings selected).
Proof.
  intros Hperm Hcat. revert i selected.
  induction ratings as [|r ratings IH]; intros i selected Hdis Hplaced Hnd; simpl; [done|].
  destruct Hdis as [Hfar Hdis].
  assert (Forall (placed problems ratings) selected) as Hplaced'.
  { eapply Forall_impl; [exact Hplaced|]. intros q (Hq & r' & Hw & Hall).
    split; [done|]. exists r'. split; [done|]. by apply Forall_cons in Hall as [_ ?]. }
  set (pool := shuffle i _).
  destruct (first_unattempted attempted pool) as [found|] eqn:Hfound.
  - apply first_unattempted_Some in Hfound as [Hin _].
    unfold pool in Hin. rewrite Hperm in Hin.
    apply list_elem_of_In, filter_In in Hin as [Hin%list_elem_of_In Hwin].
    assert (NoDup (problem_key <$> selected ++ [found])) as Hnd'.
    { rewrite fmap_app. apply NoDup_app. split_and!; [done| |apply NoDup_singleton].
      intros k Hk Hk'. apply list_elem_of_singleton in Hk'. subst k.
      apply list_elem_of_fmap in Hk as (q & Hkey & Hq).
      rewrite Forall_forall in Hplaced. destruct (Hplaced q Hq) as (Hqin & r' & Hw & Hall).
      apply Forall_cons in Hall as [Hr _].
      apply (in_window_far r r' found q Hwin Hw Hr).
      by apply (key_inj_on problems). }
    destruct (num <=? Z.of_nat (length (selected ++ [found]))); [done|].
    apply IH; [done| |done].
    apply Forall_app. split; [done|]. apply Forall_singleton.
    split; [done|]. exists r. split; [done|].
    eapply Forall_impl; [exact Hfar|]. simpl. intros; lia.
  - destruct (num <=? Z.of_nat (length selected)); [done|]. by apply IH.
Qed.
End SelectorTargets.

(** C2, as the code has it.  For every catalogue, fetched submission
    histories, shuffle and target list: no selected problem has the
    identifier of a problem that occurs in a participant's history; for a
    requested count of at least one, at most [num] problems are selected;
    and if the shuffle permutes its pool and the catalogue lists every
    identifier once, the selected identifiers are pairwise different in
    range mode, and in specific-ratings mode when the targets are more than
    100 apart. *)
Theorem select_problems_sound problems results shuffle ratings num :
  let sel := select_problems_for_battle problems results shuffle ratings num in
  (∀ p subs s, p ∈ sel → Some subs ∈ results → s ∈ subs →
     problem_key p ≠ problem_key (sub_problem s))
  ∧ (1 ≤ num → Z.of_nat (length sel) ≤ num)
  ∧ ((∀ i l, shuffle i l ≡ₚ l) →
     NoDup (problem_key <$> problems) →
     range_mode ratings num ∨ windows_disjoint ratings →
     NoDup (problem_key <$> sel)).
Proof.
  intros sel. subst sel. unfold select_problems_for_battle.
  destruct problems as [|p0 problems'] eqn:Hproblems.
  { simpl. split_and!; [intros ? ? ? H; inversion H | lia | intros; constructor]. }
  rewrite <- Hproblems. clear Hproblems.
  destruct (bool_decide (length ratings = 2%nat) && (2 <? num)) eqn:Hmode.
  - split_and!.
    + intros p subs s Hp Hsubs Hs Hkey.
      apply range_loop_fresh in Hp as [Hp|Hp]; [inversion Hp|].
      apply Hp. apply attempted_of_spec. eauto.
    + intros Hnum. apply range_loop_length. simpl. lia.
    + intros Hperm Hcat _. apply range_loop_NoDup. simpl. rewrite Hperm.
      eapply sublist_NoDup; [exact Hcat|]. apply fmap_sublist.
      clear. induction problems as [|q qs IH]; simpl; [constructor|].
      destruct (in_window _ _ q); by constructor.
  - split_and!.
    + intros p subs s Hp Hsubs Hs Hkey.
      apply target_loop_fresh in Hp as [Hp|Hp]; [inversion Hp|].
      apply Hp. apply attempted_of_spec. eauto.
    + intros Hnum. apply target_loop_length. simpl. lia.
    + intros Hperm Hcat [[Hlen Hbig]|Hdis].
      * apply andb_false_iff in Hmode as [Hmode|Hmode].
        -- by apply bool_decide_eq_false in Hmode.
        -- apply Z.ltb_ge in Hmode. lia.
      * apply target_loop_NoDup; [done|done|done|constructor|constructor].
Qed.

(** C2, as stated, fails.  With one fresh problem rated 1200 in the
    catalogue and the targets 1200, 1200, the specific-ratings mode selects
    that problem for both rounds: no test compares a found problem with the
    ones already selected.  Two edges of the domain fail as well: a
    catalogue that lists a problem twice yields it twice in range mode, and
    for a requested count of 0 the specific-ratings mode still returns one
    problem. *)
Lemma select_problems_repeats :
  (select_problems_for_battle [prob_A] [] id_shuffle [1200; 1200] 2 = [prob_A; prob_A]
   ∧ ¬ NoDup (problem_key <$>
              select_problems_for_battle [prob_A] [] id_shuffle [1200; 1200] 2))
  ∧ ¬ NoDup (problem_key <$>
             select_problems_for_battle [prob_A; prob_A] [] id_shuffle [1200; 1300] 3)
  ∧ ¬ Z.of_nat (length (select_problems_for_battle [prob_A] [] id_shuffle [1200] 0)) ≤ 0.
Proof.
  split_and!.
  - reflexivity.
  - intros Hnd. vm_compute in Hnd. apply NoDup_cons in Hnd as [Hnot _]. apply Hnot. left.
  - intros Hnd. vm_compute in Hnd. apply NoDup_cons in Hnd as [Hnot _]. apply Hnot. left.
  - vm_compute. intros H. by apply H.
Qed.

(** ** Resolving a Finished claim *)

Lemma get_battle_Some chat w l b :
  get_battle chat w = Some (l, b) ↔ ACTIVE_BATTLES w !! chat = Some l ∧ heap w !! l = Some b.
Proof.
  unfold get_battle. split.
  - destruct (ACTIVE_BATTLES w !! chat) as [l'|]; simpl; [|done].
    destruct (heap w !! l') as [b'|] eqn:Hb; simpl; [|done].
    intros [= -> ->]. done.
  - intros [-> Hb]. simpl. by rewrite Hb.
Qed.

Lemma get_battle_None chat w : ACTIVE_BATTLES w !! chat = None → get_battle chat w = None.
Proof. unfold get_battle. by intros ->. Qed.

Lemma existsb_sub_matches cp subs :
  existsb (sub_matches cp) subs = true ↔ has_accepted cp subs.
Proof.
  rewrite existsb_exists. unfold has_accepted, sub_matches, is_ok. split.
  - intros (s & Hin & Hm). exists s.
    apply andb_true_iff in Hm as [Hm Hv]. apply andb_true_iff in Hm as [Hc Hi].
    apply bool_decide_eq_true in Hc, Hi, Hv. by apply list_elem_of_In in Hin.
  - intros (s & Hin & Hc & Hi & Hv). exists s. apply list_elem_of_In in Hin.
    split; [done|]. by rewrite !andb_true_iff, !bool_decide_eq_true.
Qed.

Lemma claim_check_inr chat user w l handle :
  claim_check chat user w = inr (l, handle) ↔
  ∃ b, get_battle chat w = Some (l, b) ∧ participants b !! user = Some handle
       ∧ round_winner b = None.
Proof.
  unfold claim_check. split.
  - destruct (get_battle chat w) as [[l' b]|]; [|done].
    destruct (participants b !! user) as [h|] eqn:Hu; [|done].
    destruct (round_winner b) eqn:Hw; [done|]. intros [= <- <-]. eauto.
  - intros (b & -> & -> & ->). done.
Qed.

(** The second segment: what the scan answers, whatever happened while the
    request was pending. *)
Lemma claim_verify_accepts chat user l handle round_idx subs w b cp :
  heap w !! l = Some b → current_problem b = Some cp →
  ((claim_verify chat user l handle round_idx subs w).1 = ClaimOk handle (points_of cp)
   ↔ has_accepted cp subs)
  ∧ ((claim_verify chat user l handle round_idx subs w).1 = ClaimRejected NoAC
     ↔ ¬ has_accepted cp subs).
Proof.
  intros Hl Hcp. unfold claim_verify. rewrite <- existsb_sub_matches.
  destruct subs as [|s subs]; [simpl; split; split; done|].
  rewrite Hl, Hcp. destruct (existsb (sub_matches cp) (s :: subs)); simpl.
  - split; split; done.
  - split; split; done.
Qed.

Lemma rating_to_points_unrated v :
  (∀ r, v = PyInt r → r < 800 ∨ 3099 < r) → rating_to_points (or_zero v) = 0.
Proof.
  intros Hout. destruct v as [|[]|r|s]; try reflexivity.
  - unfold or_zero. cbn [truthy]. destruct (r =? 0); [reflexivity|]. cbn [negb].
    change (point_lookup POINT_MAP r = 0). rewrite point_lookup_band.
    apply band_value_out. by apply Hout.
  - unfold or_zero. simpl. by destruct (bool_decide (s = EmptyString)).
Qed.

(** Once a winner is recorded, a claim that starts afterwards is turned
    away and changes nothing. *)
Lemma claim_after_win_rejected chat user round_idx subs w l b winner :
  get_battle chat w = Some (l, b) → round_winner b = Some winner →
  ∃ why, handle_finished_callback chat user round_idx subs w = (ClaimRejected why, w)
         ∧ (is_Some (participants b !! user) → why = AlreadyWon).
Proof.
  intros Hb Hw. unfold handle_finished_callback, claim_check. rewrite Hb.
  destruct (participants b !! user) as [h|].
  - rewrite Hw. eauto.
  - exists NotParticipant. split; [done|]. by intros [? ?].
Qed.

(** A claim that starts when no battle is registered for the chat is turned
    away and changes nothing. *)
Lemma claim_without_battle_rejected chat user round_idx subs w :
  ACTIVE_BATTLES w !! chat = None →
  handle_finished_callback chat user round_idx subs w = (ClaimRejected NoBattle, w).
Proof.
  intros Hnone. unfold handle_finished_callback, claim_check.
  by rewrite get_battle_None.
Qed.

(** C1 fails on the code.  The guard on [round_winner] gives one winner as
    long as the field stays set, but [cmd_cancelround] clears it without
    looking whether the round has been won.  In [second_win], a schedule the
    dispatcher allows, user 2 wins round 1 and gets 3 points; during the
    pause before round 2 the creator skips the round, which is still round
    1; user 1 then presses Finished and is recorded as the winner of round
    1 as well and gets 3 points.  Nobody is told the round was already
    won. *)
Theorem skipped_round_awarded_twice :
  let w1 := run dec_int first_win init_world in
  let w2 := run dec_int second_win init_world in
  serial dec_int second_win init_world = true
  ∧ fmap round (heap w1 !! 0%nat) = Some 1%nat
  ∧ fmap round_winner (heap w1 !! 0%nat) = Some (Some (2, "bob"%string))
  ∧ points w1 !! (7, 1) = Some (mkPoints 0 1 0)
  ∧ points w1 !! (7, 2) = Some (mkPoints 3 1 1)
  ∧ fmap round (heap w2 !! 0%nat) = Some 1%nat
  ∧ fmap round_winner (heap w2 !! 0%nat) = Some (Some (1, "ann"%string))
  ∧ points w2 !! (7, 1) = Some (mkPoints 3 1 1)
  ∧ points w2 !! (7, 2) = Some (mkPoints 3 1 1)
  ∧ List.filter is_award (out w2)
    = [OReply 7 (RClaim 1 (ClaimOk "bob" 3)); OReply 7 (RClaim 1 (ClaimOk "ann" 3))]
  ∧ List.filter is_already_won (out w2) = [].
Proof. intros w1 w2. split_and!; vm_compute; reflexivity. Qed.

(** C9, as stated, fails.  In [undelivered_round] Telegram refused the
    announcement of round 2, so [post_round] did not store its problem:
    the battle is in round 2, whose problem is 1501-B, but a claim with an
    accepted submission for 1501-B is turned down, and one with an accepted
    submission for 1500-A, the problem of round 1, wins. *)
Lemma claim_checked_against_undelivered_round :
  let w := run dec_int undelivered_round init_world in
  serial dec_int undelivered_round init_world = true
  ∧ fmap round (heap w !! 0%nat) = Some 2%nat
  ∧ (heap w !! 0%nat ≫= λ b, selected_problems b !! 1%nat) = Some prob_B
  ∧ fmap round_winner (heap w !! 0%nat) = Some None
  ∧ has_accepted prob_B [accepted prob_B]
  ∧ (handle_finished_callback 7 2 2 [accepted prob_B] w).1 = ClaimRejected NoAC
  ∧ ¬ has_accepted prob_B [accepted prob_A]
  ∧ (handle_finished_callback 7 2 2 [accepted prob_A] w).1 = ClaimOk "bob" 3.
Proof.
  intros w. split_and!; try (vm_compute; reflexivity).
  - exists (accepted prob_B). split; [left | split; [reflexivity | split; reflexivity]].
  - intros (s & Hs & Hc & _). apply list_elem_of_singleton in Hs as ->. discriminate Hc.
Qed.

(** C9, as the code has it.  The round index carried by the button is not
    consulted: result and new state of a claim are the same for every
    index.  A participant's claim on a round without winner is checked
    against the problem stored as [current_problem]: it is accepted exactly
    when a fetched submission is an accepted one for that problem, and then
    the claimant is recorded as winner of the round the battle is in, the
    round is marked finished and the points of that problem are added;
    otherwise nothing changes.  While no problem is stored, a claim with a
    fetched submission raises.  The supervisor opens round [idx] by storing
    [idx] and, when the announcement is delivered, the problem of the round;
    when it is refused the stored problem stays the one announced before.
    The scan of a claim that resumes in a later state [w1] is against the
    problem stored then. *)
Theorem claim_checked_against_current_problem chat user round_idx subs w l b handle :
  get_battle chat w = Some (l, b) →
  participants b !! user = Some handle →
  round_winner b = None →
  let res := handle_finished_callback chat user round_idx subs w in
  (∀ round_idx', handle_finished_callback chat user round_idx' subs w = res)
  ∧ (∀ cp, current_problem b = Some cp →
       (res.1 = ClaimOk handle (points_of cp) ↔ has_accepted cp subs)
       ∧ (res.1 = ClaimRejected NoAC ↔ ¬ has_accepted cp subs)
       ∧ (has_accepted cp subs →
            (∃ b', heap res.2 !! l = Some b'
                   ∧ round b' = round b
                   ∧ round_winner b' = Some (user, handle)
                   ∧ round_finished b' = true
                   ∧ current_problem b' = Some cp
                   ∧ status b' = status b)
            ∧ ACTIVE_BATTLES res.2 !! chat = Some l
            ∧ points res.2 !! (chat, user)
              = Some (match points w !! (chat, user) with
                      | Some r => mkPoints (pts r + points_of cp) (battles r)
                                    (first_solves r + 1)
                      | None => mkPoints (points_of cp) 0 1
                      end))
       ∧ (¬ has_accepted cp subs → res.2 = w))
  ∧ (current_problem b = None →
       (subs ≠ [] → res = (ClaimRaised, w))
       ∧ (subs = [] → res = (ClaimRejected NoAC, w)))
  ∧ (∀ w0 b0 idx prob rest sent,
       get_battle chat w0 = Some (l, b0) →
       ∃ b1, heap (start_round chat l idx (prob :: rest) sent w0).2 !! l = Some b1
             ∧ round b1 = idx ∧ round_winner b1 = None
             ∧ current_problem b1 = (if sent then Some prob else current_problem b0))
  ∧ (∀ w1 b1 cp1 round_idx1,
       heap w1 !! l = Some b1 → current_problem b1 = Some cp1 →
       let res1 := claim_verify chat user l handle round_idx1 subs w1 in
       res1 = claim_verify chat user l handle round_idx subs w1
       ∧ (res1.1 = ClaimOk handle (points_of cp1) ↔ has_accepted cp1 subs)).
Proof.
  intros Hb Hu Hw res.
  assert (claim_check chat user w = inr (l, handle)) as Hcheck
    by (apply claim_check_inr; eauto).
  assert (res = claim_verify chat user l handle round_idx subs w) as ->.
  { subst res. unfold handle_finished_callback. by rewrite Hcheck. }
  apply get_battle_Some in Hb as [Hact Hl].
  split_and!.
  - intros round_idx'. unfold handle_finished_callback. by rewrite Hcheck.
  - intros cp Hcp.
    destruct (claim_verify_accepts chat user l handle round_idx subs w b cp Hl Hcp)
      as [Hok Hno].
    split_and!; [done|done| |].
    + intros Hsub. apply existsb_sub_matches in Hsub.
      unfold claim_verify. rewrite Hl, Hcp, Hsub.
      destruct subs as [|s0 subs]; [done|]. simpl. split_and!.
      * eexists. split; [by rewrite !list_lookup_alter_eq, Hl|]. done.
      * done.
      * rewrite lookup_alter_eq. unfold insert_or_ignore.
        destruct (points w !! (chat, user)) as [r|] eqn:Hr.
        -- by rewrite Hr.
        -- by rewrite lookup_insert_eq.
    + intros Hsub. unfold claim_verify. destruct subs as [|s0 subs]; [done|].
      rewrite Hl, Hcp.
      destruct (existsb (sub_matches cp) (s0 :: subs)) eqn:Hex; [|done].
      by apply existsb_sub_matches in Hex.
  - intros Hnone. unfold claim_verify. rewrite Hl, Hnone.
    split; [by destruct subs | by intros ->].
  - intros w0 b0 idx prob rest sent [Hact0 Hl0]%get_battle_Some.
    unfold start_round, post_round. cbn [fst snd].
    set (b1 := set_round_finished false (set_round_winner None (set_round idx b0))).
    set (w1 := upd_battle l _ w0).
    assert (heap w1 !! l = Some b1) as Hb1.
    { unfold w1. simpl. by rewrite list_lookup_alter_eq, Hl0. }
    assert (get_battle chat w1 = Some (l, b1)) as -> by (by apply get_battle_Some).
    destruct sent.
    + eexists. split; [simpl; by rewrite !list_lookup_alter_eq, Hl0|]. done.
    + exists b1. done.
  - intros w1 b1 cp1 round_idx1 Hl1 Hcp1 res1. split; [done|].
    apply (claim_verify_accepts chat user l handle round_idx1 subs w1 b1 cp1 Hl1 Hcp1).
Qed.

(** C10: a win on a problem whose rating is missing, not an integer, or an
    integer outside 800-3099 is worth 0 points, yet it is recorded: the
    round gets its winner and is marked finished, and the winner's
    first-solve count grows by one while the points stay (a missing points
    row is created).  This is what the scan of a claim does in any state,
    and so what the whole handler does when its checks pass. *)
Theorem unrated_win_scores_zero chat user round_idx subs w l b handle cp :
  heap w !! l = Some b →
  current_problem b = Some cp →
  has_accepted cp subs →
  (∀ r, p_rating cp = PyInt r → r < 800 ∨ 3099 < r) →
  let res := claim_verify chat user l handle round_idx subs w in
  res.1 = ClaimOk handle 0
  ∧ heap res.2 !! l
    = Some (mkBattle (creator b) (creator_handle b) (participants b) (num_problems b)
              (ratings b) (selected_problems b) (round b) (status b)
              (Some (user, handle)) true (current_problem b))
  ∧ points res.2 !! (chat, user)
    = Some (match points w !! (chat, user) with
            | Some r => mkPoints (pts r) (battles r) (first_solves r + 1)
            | None => mkPoints 0 0 1
            end)
  ∧ (∀ k, k ≠ (chat, user) → points res.2 !! k = points w !! k)
  ∧ (claim_check chat user w = inr (l, handle) →
     handle_finished_callback chat user round_idx subs w = res).
Proof.
  intros Hl Hcp Hsub Hout res. subst res.
  unfold claim_verify. rewrite Hl, Hcp.
  apply existsb_sub_matches in Hsub. rewrite Hsub.
  destruct subs as [|s0 subs]; [done|].
  rewrite (rating_to_points_unrated _ Hout). simpl. split_and!.
  - done.
  - rewrite list_lookup_alter_eq, list_lookup_alter_eq, Hl.
    unfold set_round_finished, set_round_winner. simpl. by rewrite Hcp.
  - rewrite lookup_alter_eq. unfold insert_or_ignore.
    destruct (points w !! (chat, user)) as [r|] eqn:Hr.
    + rewrite Hr. simpl. by rewrite Z.add_0_r.
    + by rewrite lookup_insert_eq.
  - intros k Hk. rewrite lookup_alter_ne by done. unfold insert_or_ignore.
    destruct (points w !! (chat, user)); [done|]. by rewrite lookup_insert_ne.
  - intros Hcheck. unfold handle_finished_callback. rewrite Hcheck.
    unfold claim_verify. rewrite Hl, Hcp, Hsub.
    by rewrite (rating_to_points_unrated _ Hout).
Qed.

(** ** Cancelling a battle *)

(** Only the creator gets the confirmation prompt. *)
Lemma cancelbattle_needs_creator chat user prompt_id w l b :
  get_battle chat w = Some (l, b) → creator b ≠ user →
  cmd_cancelbattle chat user prompt_id w = emit (OReply chat ROnlyCreatorCancel) w.
Proof.
  intros Hb Hne. unfold cmd_cancelbattle. rewrite Hb. by destruct (decide (creator b = user)).
Qed.

(** Declining discards the prompt and touches nothing else. *)
Lemma no_cancel_keeps_battle chat from_user w :
  let w' := handle_no_cancel chat from_user w in
  heap w' = heap w ∧ ACTIVE_BATTLES w' = ACTIVE_BATTLES w ∧ tasks w' = tasks w
  ∧ users w' = users w ∧ points w' = points w
  ∧ PENDING_CANCELS w' !! chat = None.
Proof. simpl. split_and!; try done. apply lookup_delete_eq. Qed.

(** Confirming marks the dictionary cancelled and removes it from the
    registry, whoever pressed the button. *)
Lemma confirm_cancel_effect chat from_user w l b :
  get_battle chat w = Some (l, b) →
  let w' := handle_confirm_cancel chat from_user w in
  heap w' !! l = Some (set_round_finished true (set_status cancelled b))
  ∧ ACTIVE_BATTLES w' !! chat = None
  ∧ PENDING_CANCELS w' !! chat = None
  ∧ points w' = points w ∧ tasks w' = tasks w.
Proof.
  intros Hb. unfold handle_confirm_cancel. rewrite Hb.
  apply get_battle_Some in Hb as [_ Hl]. simpl. split_and!; try done.
  - by rewrite list_lookup_alter_eq, Hl.
  - apply lookup_delete_eq.
  - apply lookup_delete_eq.
Qed.

(** Neither the user who pressed the button nor [PENDING_CANCELS] is read:
    confirming has the same effect on the battles for every presser,
    whether or not a prompt is recorded for the chat. *)
Lemma confirm_cancel_reads_neither chat u u' f w :
  let w1 := handle_confirm_cancel chat u w in
  let w2 := handle_confirm_cancel chat u' (set_pending f w) in
  heap w2 = heap w1 ∧ ACTIVE_BATTLES w2 = ACTIVE_BATTLES w1 ∧ out w2 = out w1.
Proof.
  unfold handle_confirm_cancel, get_battle. simpl.
  destruct (ACTIVE_BATTLES w !! chat) as [l|]; simpl; [|done].
  by destruct (heap w !! l).
Qed.

(** C3 fails on the code in its first half.  [cmd_cancelbattle] shows the
    prompt to the creator only, but [handle_confirm_cancel] never looks at
    who pressed the button: here user 1 created the battle and asked to
    cancel, and user 2 confirms; the battle is cancelled and removed. *)
Theorem confirm_cancel_by_other_user :
  let w := run dec_int cancel_asked init_world in
  let w' := exec dec_int (EvConfirmCancel 7 2) w in
  fmap creator (heap w !! 0%nat) = Some 1
  ∧ ACTIVE_BATTLES w !! 7 = Some 0%nat
  ∧ PENDING_CANCELS w !! 7 = Some 99
  ∧ fmap status (heap w !! 0%nat) = Some running
  ∧ fmap status (heap w' !! 0%nat) = Some cancelled
  ∧ ACTIVE_BATTLES w' !! 7 = None
  ∧ last (out w') = Some (OReply 7 RCancelled).
Proof. by vm_compute. Qed.

(** The supervisor leaves its loop at the first poll that sees the
    cancellation: nothing is sent, no table is written, the coroutine ends. *)
Lemma supervisor_stops_on_cancel chat l idx rest inp w b :
  heap w !! l = Some b → status b = cancelled →
  run_poll chat l idx rest inp w = (TDone, upd_battle l (set_round_finished false) w).
Proof.
  intros Hl Hc. unfold run_poll. rewrite Hl, Hc.
  rewrite bool_decide_eq_true_2 by done. rewrite orb_true_r.
  by destruct (decide (cancelled = cancelled)).
Qed.

(** ** Creating a battle *)

Section Create.
Variable py_int : string → option Z.

Lemma parse_ints_bad rest x r :
  x ∈ rest → py_int x = Some r → (r < 800 ∨ 3500 < r) →
  match parse_ints py_int rest with
  | inl _ => True
  | inr ratings => forallb rating_ok ratings = false
  end.
Proof.
  induction rest as [|y rest IH]; intros Hin Hx Hr; [inversion Hin|]. simpl.
  destruct (py_int y) as [z|] eqn:Hy; [|done].
  apply elem_of_cons in Hin as [->|Hin].
  - destruct (parse_ints py_int rest); [done|]. simpl.
    assert (z = r) as -> by congruence.
    assert (rating_ok r = false) as ->; [|done].
    unfold rating_ok. destruct (Z.ltb_spec r 800), (Z.ltb_spec 3500 r); simpl; try done; lia.
  - specialize (IH Hin Hx Hr). destruct (parse_ints py_int rest); [done|].
    simpl. rewrite IH. apply andb_false_r.
Qed.

Lemma invalid_args_rejected args :
  invalid_args py_int args → ∃ e, parse_create_args py_int args = inl e.
Proof.
  intros [Hlen | [(a0 & rest & num & -> & Ha0 & Hnum) | (a0 & rest & x & r & -> & Hin & Hx & Hr)]].
  - destruct args as [|a0 [|a1 args]]; simpl in *; eauto. lia.
  - simpl. destruct rest; [eauto|]. rewrite Ha0.
    destruct (Z.ltb_spec num 1), (Z.ltb_spec 10 num); simpl; eauto; lia.
  - pose proof (parse_ints_bad rest x r Hin Hx Hr) as Hbad.
    unfold parse_create_args. destruct rest as [|a1 rest]; [inversion Hin|].
    destruct (py_int a0) as [num|]; [|eauto].
    destruct ((num <? 1) || (10 <? num)); [eauto|].
    destruct (parse_ints py_int (a1 :: rest)); [eauto|]. rewrite Hbad. eauto.
Qed.
End Create.

(** C8: a creation request with fewer than two arguments, a problem count
    outside 1-10 or a rating outside 800-3500 only produces a reply: the
    registry, the battle dictionaries, the tasks and both tables are left
    as they were, so no battle gets registered.  When the chat is free and
    the user registered, the reply is the invalid-arguments message carrying
    the error [parse_create_args] raised. *)
Theorem invalid_create_rejected py_int chat user args w :
  invalid_args py_int args →
  let w' := cmd_createbattle py_int chat user args w in
  ACTIVE_BATTLES w' = ACTIVE_BATTLES w ∧ heap w' = heap w ∧ tasks w' = tasks w
  ∧ PENDING_CANCELS w' = PENDING_CANCELS w ∧ users w' = users w ∧ points w' = points w
  ∧ (∃ r, out w' = out w ++ [OReply chat r])
  ∧ (ACTIVE_BATTLES w !! chat = None → is_Some (get_user chat user w) →
     ∃ e, parse_create_args py_int args = inl e
          ∧ out w' = out w ++ [OReply chat (RInvalidArgs e)]).
Proof.
  intros Hbad. apply invalid_args_rejected in Hbad as [e He].
  unfold cmd_createbattle. rewrite He.
  destruct (ACTIVE_BATTLES w !! chat) as [l|] eqn:Hactive.
  { simpl. split_and!; eauto. intros Hfree. done. }
  destruct (get_user chat user w) as [u|] eqn:Hu.
  - simpl. split_and!; eauto.
  - simpl. split_and!; eauto. intros _ [? ?]. done.
Qed.

(** ** The invariant and its preservation *)

Create HintDb bot discriminated.

Lemma inert_set_round v : inert (set_round v).
Proof. by intros b. Qed.
Lemma inert_set_round_winner v : inert (set_round_winner v).
Proof. by intros b. Qed.
Lemma inert_set_round_finished v : inert (set_round_finished v).
Proof. by intros b. Qed.
Lemma inert_set_current_problem v : inert (set_current_problem v).
Proof. by intros b. Qed.
Lemma inert_set_selected_problems v : inert (set_selected_problems v).
Proof. by intros b. Qed.
Lemma inert_set_cancelled : inert (set_status cancelled).
Proof. intros b. simpl. split_and!; done. Qed.
Lemma inert_compose f g : inert f → inert g → inert (λ b, f (g b)).
Proof.
  intros Hf Hg b. destruct (Hf (g b)) as (-> & -> & Hs), (Hg b) as (-> & -> & Hs').
  split_and!; auto.
Qed.
#[local] Hint Resolve inert_set_round inert_set_round_winner inert_set_round_finished
  inert_set_current_problem inert_set_selected_problems inert_set_cancelled
  inert_compose : bot.

Lemma inv_init : inv init_world.
Proof.
  split; simpl; try (intros; by simplify_list_eq).
  - intros k [? H]. by simplify_map_eq.
  - intros chat l [H|H]; [by simplify_map_eq | inversion H].
  - intros chat chat' l [H|H]; [by simplify_map_eq | inversion H].
Qed.

Lemma inv_emit o w : inv w → inv (emit o w).
Proof. intros []. by split. Qed.

Lemma inv_set_pending f w : inv w → inv (set_pending f w).
Proof. intros []. by split. Qed.

Lemma owns_spawn t w chat l :
  owns (spawn t w) chat l → owns w chat l ∨ t = TRunSelect chat l.
Proof.
  intros [H|H]; [left; by left|]. simpl in H.
  apply elem_of_app in H as [H|H]; [left; by right|].
  apply list_elem_of_singleton in H. by right.
Qed.

Lemma inv_spawn t w : (∀ chat l, t ≠ TRunSelect chat l) → inv w → inv (spawn t w).
Proof.
  intros Ht [].
  assert (∀ chat l, owns (spawn t w) chat l → owns w chat l) as Howns.
  { intros chat l H. apply owns_spawn in H as [H|H]; [done|]. by destruct (Ht chat l). }
  split; simpl; eauto.
Qed.

Lemma owns_set_task tid t w chat l :
  owns (set_tasks (<[tid := t]>) w) chat l → owns w chat l ∨ t = TRunSelect chat l.
Proof.
  intros [H|H]; [left; by left|]. simpl in H.
  apply list_elem_of_lookup in H as [i Hi].
  apply list_lookup_insert_Some in Hi as [(-> & <- & _) | (_ & Hi)]; [by right|].
  left. right. apply list_elem_of_lookup. eauto.
Qed.

Lemma inv_set_task tid t w : parks w t → inv w → inv (set_tasks (<[tid := t]>) w).
Proof.
  intros Ht [].
  assert (∀ chat l, owns (set_tasks (<[tid := t]>) w) chat l → owns w chat l) as Howns.
  { intros chat l H. apply owns_set_task in H as [H|H]; [done|]. left. by apply Ht. }
  split; simpl; eauto.
Qed.

Lemma inv_delete chat w : inv w → inv (set_active (delete chat) w).
Proof.
  intros [].
  assert (∀ c l, owns (set_active (delete chat) w) c l → owns w c l) as Howns.
  { intros c l [H|H]; [|by right]. simpl in H.
    apply lookup_delete_Some in H as [_ H]. by left. }
  split; simpl; eauto.
Qed.

Lemma inv_upd l f w : inert f → inv w → inv (upd_battle l f w).
Proof.
  intros Hf [].
  assert (∀ l' b', heap (upd_battle l f w) !! l' = Some b' →
          ∃ b, heap w !! l' = Some b ∧ participants b' = participants b
               ∧ num_problems b' = num_problems b
               ∧ (status b' = running → status b = running)) as Hheap.
  { intros l' b'. simpl. destruct (decide (l = l')) as [->|Hne].
    - rewrite list_lookup_alter_eq. destruct (heap w !! l') as [b|]; [|done].
      intros [= <-]. exists b. split; [done|]. apply Hf.
    - rewrite list_lookup_alter_ne by done. eauto. }
  split; simpl.
  - intros l' b' Hb' Hs. apply Hheap in Hb' as (b & Hb & -> & _ & Hst). eauto.
  - intros l' b' Hb'. apply Hheap in Hb' as (b & Hb & _ & -> & _). eauto.
  - done.
  - intros chat l' H. rewrite length_alter. eauto.
  - eauto.
  - intros chat l' b' u Ho Hb'. apply Hheap in Hb' as (b & Hb & -> & _). eauto.
Qed.

Lemma inv_set_points f w :
  (∀ tbl k, is_Some (tbl !! k) → is_Some (f tbl !! k)) → inv w → inv (set_points f w).
Proof. intros Hf []. split; simpl; eauto. Qed.

Lemma insert_or_ignore_keeps k tbl k' :
  is_Some (tbl !! k') → is_Some (insert_or_ignore k tbl !! k').
Proof.
  unfold insert_or_ignore. destruct (tbl !! k) eqn:Hk; [done|].
  intros H. destruct (decide (k = k')) as [->|]; [by rewrite lookup_insert_eq|].
  by rewrite lookup_insert_ne.
Qed.

Lemma inv_add_points chat user delta first w : inv w → inv (add_points chat user delta first w).
Proof.
  apply inv_set_points. intros tbl k Hk. rewrite lookup_alter.
  apply (insert_or_ignore_keeps (chat, user)) in Hk.
  case_decide; [subst|done]. destruct Hk as [r ->]. by eexists.
Qed.

Lemma increment_keeps (chat : Z) (ids : list Z) (tbl : gmap (Z * Z) PointsRow) (k : Z * Z) :
  is_Some (tbl !! k) →
  is_Some (foldl (λ tbl uid, alter bump_battles (chat, uid) tbl) tbl ids !! k).
Proof.
  revert tbl. induction ids as [|u ids IH]; intros tbl Hk; simpl; [done|].
  apply IH. rewrite lookup_alter. case_decide; [subst|done].
  destruct Hk as [r ->]. by eexists.
Qed.

Lemma inv_increment_battles chat ids w : inv w → inv (increment_battles chat ids w).
Proof. apply inv_set_points. intros tbl k. apply increment_keeps. Qed.

Lemma inv_upsert_user chat user full handle rating w :
  inv w → inv (upsert_user chat user full handle rating w).
Proof.
  intros []. split; simpl; eauto.
  - intros k Hk. destruct (decide (k = (chat, user))) as [->|Hne].
    + unfold insert_or_ignore. destruct (points w !! (chat, user)) eqn:Hp; [by rewrite Hp|].
      by rewrite lookup_insert_eq.
    + rewrite lookup_insert_ne in Hk by done. apply insert_or_ignore_keeps. eauto.
  - intros c l b u Ho Hb Hu. destruct (decide ((chat, user) = (c, u))) as [->|Hne].
    + by rewrite lookup_insert_eq.
    + rewrite lookup_insert_ne by done. eauto.
Qed.
#[local] Hint Resolve inv_emit inv_set_pending inv_delete inv_upd inv_add_points
  inv_increment_battles inv_upsert_user : bot.

Lemma parks_other w t : (∀ chat l, t ≠ TRunSelect chat l) → parks w t.
Proof. intros Ht chat l ->. by destruct (Ht chat l). Qed.

Lemma inv_post_round chat idx problem sent w : inv w → inv (post_round chat idx problem sent w).
Proof.
  intros Hw. unfold post_round.
  destruct (get_battle chat w) as [[l b]|]; [|done]. destruct sent; eauto with bot.
Qed.

Lemma inv_finalize_battle chat w : inv w → inv (finalize_battle chat w).
Proof.
  intros Hw. unfold finalize_battle.
  destruct (get_battle chat w) as [[l b]|]; eauto with bot.
Qed.

Lemma start_round_inv chat l idx probs sent w :
  inv w →
  inv (start_round chat l idx probs sent w).2
  ∧ ∀ c l', (start_round chat l idx probs sent w).1 ≠ TRunSelect c l'.
Proof.
  intros Hw. unfold start_round. destruct probs as [|prob rest]; simpl.
  - split; [by apply inv_finalize_battle | done].
  - split; [|done]. apply inv_post_round. eauto 10 with bot.
Qed.

Lemma inv_start l b w :
  heap w !! l = Some b → (2 ≤ size (participants b))%nat →
  inv w → inv (upd_battle l (set_status running) w).
Proof.
  intros Hl Hsize [].
  assert (∀ l' b', heap (upd_battle l (set_status running) w) !! l' = Some b' →
          ∃ b0, heap w !! l' = Some b0 ∧ participants b' = participants b0
               ∧ num_problems b' = num_problems b0
               ∧ (l' ≠ l → status b' = status b0)) as Hheap.
  { intros l' b'. simpl. destruct (decide (l = l')) as [->|Hne].
    - rewrite list_lookup_alter_eq, Hl. intros [= <-]. exists b. by split_and!.
    - rewrite list_lookup_alter_ne by done. intros. exists b'. by split_and!. }
  split; simpl.
  - intros l' b' Hb' Hs. apply Hheap in Hb' as (b0 & Hb0 & -> & _ & Hst).
    destruct (decide (l' = l)) as [->|Hne]; [congruence|].
    rewrite Hst in Hs by done. eauto.
  - intros l' b' Hb'. apply Hheap in Hb' as (b0 & Hb0 & _ & -> & _). eauto.
  - done.
  - intros chat l' H. rewrite length_alter. eauto.
  - eauto.
  - intros chat l' b' u Ho Hb'. apply Hheap in Hb' as (b0 & Hb0 & -> & _). eauto.
Qed.

Lemma inv_join chat user handle l b w :
  get_battle chat w = Some (l, b) → participants b !! user = None →
  is_Some (users w !! (chat, user)) →
  inv w → inv (upd_battle l (set_participants (insert user handle)) w).
Proof.
  intros Hb Hnew Huser []. apply get_battle_Some in Hb as [Hact Hl].
  assert (∀ l' b', heap (upd_battle l (set_participants (insert user handle)) w) !! l'
                   = Some b' →
          (l' ≠ l ∧ heap w !! l' = Some b')
          ∨ (l' = l ∧ b' = set_participants (insert user handle) b)) as Hheap.
  { intros l' b'. simpl. destruct (decide (l = l')) as [->|Hne].
    - rewrite list_lookup_alter_eq, Hl. intros [= <-]. by right.
    - rewrite list_lookup_alter_ne by done. intros. by left. }
  split; simpl.
  - intros l' b' Hb' Hs. apply Hheap in Hb' as [[_ Hb']|[-> ->]]; [eauto|].
    simpl in Hs |- *. rewrite map_size_insert_None by done.
    apply Nat.le_le_succ_r. exact (inv_gated0 l b Hl Hs).
  - intros l' b' Hb'. apply Hheap in Hb' as [[_ Hb']|[-> ->]]; [eauto|].
    exact (inv_count0 l b Hl).
  - done.
  - intros c l' H. rewrite length_alter. eauto.
  - eauto.
  - intros c l' b' u Ho Hb' Hu. apply Hheap in Hb' as [[_ Hb']|[-> ->]]; [eauto|].
    assert (c = chat) as -> by (eapply inv_home0; [exact Ho | by left]).
    simpl in Hu. destruct (decide (user = u)) as [->|Hne]; [done|].
    rewrite lookup_insert_ne in Hu by done. eauto.
Qed.

Lemma inv_create chat user handle num ratings w :
  ACTIVE_BATTLES w !! chat = None → is_Some (users w !! (chat, user)) → 1 ≤ num ≤ 10 →
  inv w →
  inv (set_active (insert chat (length (heap w)))
         (set_heap (λ h, h ++ [new_battle user handle num ratings]) w)).
Proof.
  intros Hfree Huser Hnum [].
  set (w' := set_active _ _).
  assert (∀ l b, heap w' !! l = Some b →
          (heap w !! l = Some b ∧ (l < length (heap w))%nat)
          ∨ (l = length (heap w) ∧ b = new_battle user handle num ratings)) as Hheap.
  { intros l b. simpl. intros H. apply lookup_app_Some in H as [H|[Hge H]].
    - left. split; [done|]. by eapply lookup_lt_Some.
    - right. apply list_lookup_singleton_Some in H as [Hl <-]. split; [lia|done]. }
  assert (∀ c l, owns w' c l →
          (owns w c l ∧ (l < length (heap w))%nat ∧ c ≠ chat ∨
           owns w c l ∧ (l < length (heap w))%nat ∧ TRunSelect c l ∈ tasks w)
          ∨ (c = chat ∧ l = length (heap w))) as Howns.
  { intros c l [H|H].
    - simpl in H. apply lookup_insert_Some in H as [[<- <-]|[Hne H]]; [by right|].
      left. left. split_and!; [by left | apply (inv_bound0 c); by left | done].
    - left. right. split_and!; [by right | apply (inv_bound0 c); by right | done]. }
  split.
  - intros l b Hb Hs. apply Hheap in Hb as [[Hb _]|[_ ->]]; [eauto|done].
  - intros l b Hb. apply Hheap in Hb as [[Hb _]|[_ ->]]; [eauto|done].
  - done.
  - intros c l Ho. subst w'. simpl. rewrite length_app. simpl.
    apply Howns in Ho as [[(_ & ? & _)|(_ & ? & _)]|[_ ->]]; lia.
  - intros c c' l Ho Ho'.
    apply Howns in Ho as [[(Ho & Hlt & Hc)|(Ho & Hlt & Hc)]|[-> ->]];
      apply Howns in Ho' as [[(Ho' & Hlt' & Hc')|(Ho' & Hlt' & Hc')]|[-> Hl']];
      eauto; lia.
  - intros c l b u Ho Hb Hu.
    apply Hheap in Hb as [[Hb Hlt]|[-> ->]].
    + apply Howns in Ho as [[(Ho & _ & _)|(Ho & _ & _)]|[_ ->]]; [eauto|eauto|lia].
    + apply Howns in Ho as [[(_ & ? & _)|(_ & ? & _)]|[-> _]]; [lia|lia|].
      simpl in Hu. destruct (decide (user = u)) as [->|Hne]; [done|].
      rewrite lookup_singleton_ne in Hu by done. by destruct Hu.
Qed.

Lemma claim_verify_inv chat user l handle round_idx subs w :
  inv w → inv (claim_verify chat user l handle round_idx subs w).2.
Proof.
  intros Hw. unfold claim_verify. destruct subs as [|s subs]; [done|].
  destruct (heap w !! l) as [b|]; [|done].
  destruct (current_problem b) as [cp|]; [|done].
  destruct (existsb (sub_matches cp) (s :: subs)); simpl; eauto 10 with bot.
Qed.

Lemma finished_button_tail_inv chat round_idx res w :
  inv w → inv (finished_button_tail chat round_idx res w).
Proof.
  intros Hw. unfold finished_button_tail. destruct res; eauto with bot.
  destruct (get_battle chat _); eauto with bot.
Qed.

Lemma step_task_inv t inp w :
  inv w → inv (step_task t inp w).2 ∧ parks (step_task t inp w).2 (step_task t inp w).1.
Proof.
  intros Hw. destruct t as [chat k|chat|chat l|chat l idx rest|chat l idx rest
                            |chat user l handle round_idx|]; simpl.
  - destruct (decide (k < 6)%nat) as [Hk|Hk].
    + unfold countdown_tick. destruct (get_battle chat w) as [[l b]|]; [|by split].
      destruct (decide (status b = joining)); simpl; [|by split].
      split; [eauto with bot | by apply parks_other].
    + unfold countdown_elapsed. destruct (get_battle chat w) as [[l b]|] eqn:Hb; [|by split].
      destruct (Z.ltb_spec (Z.of_nat (size (participants b))) 2); simpl.
      * split; [eauto with bot | by apply parks_other].
      * split; [|by apply parks_other]. apply inv_spawn; [done|].
        apply get_battle_Some in Hb as [_ Hl]. eapply inv_start; [exact Hl|lia|done].
  - destruct (get_battle chat w) as [[l b]|] eqn:Hb; simpl; [|by split].
    split; [done|]. intros c l' [= <- <-]. by apply get_battle_Some in Hb as [? _].
  - unfold run_selected. destruct (heap w !! l) as [b|]; [|by split].
    destruct (_ || _); simpl.
    + split; [eauto 10 with bot | by apply parks_other].
    + match goal with |- context [start_round ?c ?l ?i ?p ?s ?w'] =>
        destruct (start_round_inv c l i p s w') as [H1 H2]; [eauto 10 with bot|] end.
      split; [done | by apply parks_other].
  - unfold run_poll. destruct (heap w !! l) as [b|]; [|by split].
    destruct (_ || _); simpl; [|by split].
    destruct (decide (status b = cancelled)); simpl.
    { split; [eauto with bot | by apply parks_other]. }
    destruct (decide (idx < length (selected_problems b))%nat) as [Hidx|Hidx]; simpl.
    { split; [eauto with bot | by apply parks_other]. }
    match goal with |- context [start_round ?c ?l ?i ?p ?s ?w'] =>
      destruct (start_round_inv c l i p s w') as [H1 H2]; [eauto 10 with bot|] end.
    split; [done | by apply parks_other].
  - unfold run_next. destruct (heap w !! l) as [b|]; [|by split].
    match goal with |- context [start_round ?c ?l ?i ?p ?s ?w'] =>
      destruct (start_round_inv c l i p s w') as [H1 H2]; [eauto 10 with bot|] end.
    split; [done | by apply parks_other].
  - pose proof (claim_verify_inv chat user l handle round_idx (in_subs inp) w Hw) as Hv.
    destruct (claim_verify chat user l handle round_idx (in_subs inp) w) as [res w1].
    simpl in *. split; [by apply finished_button_tail_inv | by apply parks_other].
  - by split.
Qed.

Lemma resume_inv tid inp w : inv w → inv (resume tid inp w).
Proof.
  intros Hw. unfold resume. destruct (tasks w !! tid) as [t|]; [|done].
  destruct (step_task_inv t inp w Hw) as [H1 H2].
  destruct (step_task t inp w) as [t' w1]. simpl in *. by apply inv_set_task.
Qed.

Lemma parse_create_args_count py_int args num ratings :
  parse_create_args py_int args = inr (num, ratings) → 1 ≤ num ≤ 10.
Proof.
  unfold parse_create_args. destruct args as [|a0 [|a1 rest]]; [done|done|].
  destruct (py_int a0) as [n|]; [|done].
  destruct ((n <? 1) || (10 <? n)) eqn:Hrange; [done|].
  destruct (parse_ints py_int (a1 :: rest)) as [e|rs]; [done|].
  destruct (forallb rating_ok rs); [|done]. intros [= <- _].
  apply orb_false_iff in Hrange as [?%Z.ltb_ge ?%Z.ltb_ge]. lia.
Qed.

Lemma exec_inv py_int e w : inv w → inv (exec py_int e w).
Proof.
  intros Hw. destruct e as [chat user full args info|chat user args|chat user
                            |chat user round_idx|chat user prompt_id|chat user
                            |chat from_user|chat from_user|tid inp]; simpl.
  - unfold cmd_sethandle. destruct args; [eauto with bot|].
    destruct info; eauto with bot.
  - unfold cmd_createbattle. destruct (ACTIVE_BATTLES w !! chat) eqn:Hfree; [eauto with bot|].
    destruct (get_user chat user w) as [u|] eqn:Hu; [|eauto with bot].
    destruct (parse_create_args py_int args) as [e|[num ratings]] eqn:Hargs; [eauto with bot|].
    apply inv_spawn; [done|]. apply inv_emit. apply inv_create; [done|by eexists| |done].
    by eapply parse_create_args_count.
  - unfold handle_ready_callback. destruct (get_battle chat w) as [[l b]|] eqn:Hb; [|eauto with bot].
    destruct (decide (status b = joining)); [|eauto with bot].
    destruct (get_user chat user w) as [u|] eqn:Hu; [|eauto with bot].
    destruct (participants b !! user) eqn:Hp; [eauto with bot|].
    apply inv_emit. eapply inv_join; [exact Hb|done|by eexists|done].
  - unfold finished_pressed. destruct (claim_check chat user w) as [why|[l handle]].
    + by apply finished_button_tail_inv.
    + by apply inv_spawn.
  - unfold cmd_cancelbattle. destruct (get_battle chat w) as [[l b]|]; [|eauto with bot].
    destruct (decide (creator b = user)); eauto with bot.
  - unfold cmd_cancelround. destruct (get_battle chat w) as [[l b]|]; [|eauto with bot].
    destruct (decide (creator b = user)); [|eauto with bot].
    destruct (decide (status b = running)); [|eauto with bot].
    destruct (decide (round b = 0%nat)); eauto 10 with bot.
  - unfold handle_confirm_cancel. destruct (get_battle chat w) as [[l b]|]; eauto 10 with bot.
  - unfold handle_no_cancel. eauto with bot.
  - by apply resume_inv.
Qed.

Lemma run_snoc py_int evs e w : run py_int (evs ++ [e]) w = exec py_int e (run py_int evs w).
Proof. unfold run. by rewrite foldl_app. Qed.

Lemma reachable_inv py_int w : reachable py_int w → inv w.
Proof.
  intros [evs ->]. induction evs as [|e evs IH] using rev_ind; [apply inv_init|].
  rewrite run_snoc. by apply exec_inv.
Qed.

(** ** The join timer and the entry to the rounds *)

(** C5: when the countdown coroutine of a chat runs its last segment on a
    registered battle, the battle is running afterwards exactly when it has
    at least two participants; in that case it stays registered and
    [run_battle] is started, otherwise the chat is deregistered with the
    not-enough-participants notice, the dictionary is left as it was and
    nothing is started.  In every reachable world, this one and the next
    included, each running battle has at least two participants. *)
Theorem join_timer_gate py_int w tid inp chat l b :
  reachable py_int w →
  tasks w !! tid = Some (TCountdown chat 6) →
  get_battle chat w = Some (l, b) →
  let w' := resume tid inp w in
  (fmap status (heap w' !! l) = Some running ↔ (2 ≤ size (participants b))%nat)
  ∧ ((2 ≤ size (participants b))%nat →
     ACTIVE_BATTLES w' !! chat = Some l
     ∧ tasks w' = <[tid := TDone]> (tasks w ++ [TRunStart chat])
     ∧ out w' = out w)
  ∧ ((size (participants b) < 2)%nat →
     ACTIVE_BATTLES w' !! chat = None
     ∧ heap w' = heap w
     ∧ out w' = out w ++ [ONotEnough chat]
     ∧ tasks w' = <[tid := TDone]> (tasks w))
  ∧ reachable py_int w'
  ∧ (∀ w0, reachable py_int w0 → ∀ l0 b0, heap w0 !! l0 = Some b0 → status b0 = running →
     (2 ≤ size (participants b0))%nat).
Proof.
  intros Hreach Htask Hb w'.
  assert (inv w) as Hinv by (by eapply reachable_inv).
  assert (inv w') as Hinv' by (by apply resume_inv).
  pose proof Hb as Hb'. apply get_battle_Some in Hb' as [Hact Hl].
  assert (w' = set_tasks (<[tid := TDone]>) (countdown_elapsed chat w).2) as Hw'.
  { subst w'. unfold resume. rewrite Htask. simpl.
    by destruct (countdown_elapsed chat w) as [t w1] eqn:Hce;
      unfold countdown_elapsed in Hce; rewrite Hb in Hce;
      destruct (_ <? 2); injection Hce as <- <-. }
  match goal with |- ?A ∧ ?B ∧ ?C ∧ _ => enough (A ∧ B ∧ C) as (HA & HB & HC) end.
  { split_and!; try done.
    - destruct Hreach as [evs ->]. exists (evs ++ [EvResume tid inp]). by rewrite run_snoc.
    - intros w0 Hw0. apply inv_gated. by eapply reachable_inv. }
  clear Hinv'. clearbody w'. subst w'. unfold countdown_elapsed. rewrite Hb.
  destruct (Z.ltb_spec (Z.of_nat (size (participants b))) 2) as [Hfew|Hmany]; simpl.
  - split_and!.
    + rewrite Hl. simpl. split; [|lia]. intros [= Hs].
      pose proof (inv_gated w Hinv l b Hl Hs). lia.
    + lia.
    + intros _. split_and!; try done. apply lookup_delete_eq.
  - split_and!.
    + rewrite list_lookup_alter_eq, Hl. simpl. split; [lia|done].
    + done.
    + lia.
Qed.

Lemma points_post_round chat idx problem sent w :
  points (post_round chat idx problem sent w) = points w.
Proof.
  unfold post_round. destruct (get_battle chat w) as [[l b]|]; [|done]. by destruct sent.
Qed.

Lemma points_start_round chat l idx probs sent w :
  points (start_round chat l idx probs sent w).2 = points w.
Proof.
  unfold start_round. destruct probs as [|prob rest]; simpl.
  - unfold finalize_battle. by destruct (get_battle chat w) as [[l' b]|].
  - by rewrite points_post_round.
Qed.

Lemma increment_lookup (chat : Z) (ids : list Z) (tbl : gmap (Z * Z) PointsRow) (c u : Z) :
  NoDup ids →
  foldl (λ tbl uid, alter bump_battles (chat, uid) tbl) tbl ids !! (c, u)
  = if decide (c = chat ∧ u ∈ ids) then bump_battles <$> tbl !! (c, u) else tbl !! (c, u).
Proof.
  revert tbl. induction ids as [|u0 ids IH]; intros tbl Hnd; simpl.
  - case_decide as H; [|done]. destruct H as [_ H]. inversion H.
  - apply NoDup_cons in Hnd as [Hu0 Hnd]. rewrite IH by done.
    destruct (decide ((chat, u0) = (c, u))) as [[= <- <-]|Hne].
    + rewrite lookup_alter_eq. rewrite decide_False by (by intros [_ ?]).
      rewrite decide_True; [done|]. split; [done|left].
    + rewrite lookup_alter_ne by done.
      case_decide as H1; case_decide as H2; try done.
      * destruct H2. destruct H1 as [-> H1]. split; [done|by right].
      * destruct H1. destruct H2 as [-> H2]. split; [done|].
        apply elem_of_cons in H2 as [->|H2]; [done|done].
Qed.

Lemma elem_of_participant_ids b u :
  u ∈ participant_ids b ↔ is_Some (participants b !! u).
Proof.
  unfold participant_ids. rewrite list_elem_of_fmap. split.
  - intros ([u' h] & -> & Hin). apply elem_of_map_to_list in Hin. by eexists.
  - intros [h Hh]. exists (u, h). split; [done|]. by apply elem_of_map_to_list.
Qed.

(** One entry of [run_battle] into the rounds: when it gets fewer problems
    than requested, the chat is deregistered, the failure notice is sent and
    the points table is not written; otherwise every participant has a
    points row and its battle count grows by exactly one, all other rows
    staying as they were. *)
Lemma run_entry_counts_battles py_int w tid inp chat l b :
  reachable py_int w →
  tasks w !! tid = Some (TRunSelect chat l) →
  heap w !! l = Some b →
  let sel := select_problems_for_battle (in_problems inp) (in_results inp)
               (in_shuffle inp) (ratings b) (num_problems b) in
  let w' := resume tid inp w in
  (Z.of_nat (length sel) < num_problems b →
     ACTIVE_BATTLES w' !! chat = None
     ∧ points w' = points w
     ∧ out w' = out w ++ [OSelectFailed chat (length sel) (num_problems b)]
     ∧ tasks w' !! tid = Some TDone)
  ∧ (num_problems b ≤ Z.of_nat (length sel) →
     (∀ u, is_Some (participants b !! u) →
        ∃ r, points w !! (chat, u) = Some r
             ∧ points w' !! (chat, u) = Some (bump_battles r))
     ∧ (∀ c u, c ≠ chat ∨ participants b !! u = None →
        points w' !! (c, u) = points w !! (c, u))).
Proof.
  intros Hreach Htask Hl sel w'.
  assert (inv w) as Hinv by (by eapply reachable_inv).
  assert (1 ≤ num_problems b ≤ 10) as Hnum by (by eapply inv_count).
  subst w'. unfold resume. rewrite Htask. simpl. unfold run_selected. rewrite Hl.
  fold sel. split.
  - intros Hshort.
    rewrite (proj2 (Z.ltb_lt _ _) Hshort), orb_true_r. simpl.
    split_and!; try done.
    + apply lookup_delete_eq.
    + apply list_lookup_insert_eq. by eapply lookup_lt_Some.
  - intros Hfull.
    rewrite (proj2 (Z.ltb_ge _ _) Hfull), orb_false_r.
    rewrite bool_decide_eq_false_2; [|intros Hnil; rewrite Hnil in Hfull; simpl in Hfull; lia].
    match goal with |- context [start_round ?c ?l ?i ?p ?s ?w'] =>
      pose proof (points_start_round c l i p s w') as Hpts;
      destruct (start_round c l i p s w') as [t' w1] end.
    simpl in Hpts |- *. rewrite Hpts. clear Hpts.
    assert (NoDup (participant_ids b)) as Hnd by apply NoDup_fst_map_to_list.
    split.
    + intros u Hu.
      assert (is_Some (points w !! (chat, u))) as [r Hr].
      { apply (inv_rows w Hinv). apply (inv_members w Hinv chat l b u); [|done|done].
        right. apply list_elem_of_lookup. eauto. }
      exists r. split; [done|]. rewrite increment_lookup by done.
      rewrite decide_True by (by rewrite elem_of_participant_ids). by rewrite Hr.
    + intros c u Hother. rewrite increment_lookup by done.
      rewrite decide_False; [done|]. rewrite elem_of_participant_ids.
      intros [-> [h Hh]]. destruct Hother as [?|Hnone]; [done|congruence].
Qed.

(** C6 fails on the code in its second half.  A join timer does not know
    which battle it was started for, and its last part lacks the test of
    the status that its ticks make.  In [double_entry], a schedule the
    dispatcher allows, the timer left over from a battle cancelled at once
    and the timer of the battle created in its place both start
    [run_battle] for the one battle the chat has: the first supervisor
    counts the battle for both participants and posts round 1, and then the
    second counts it again. *)
Theorem stale_timer_counts_twice :
  let w1 := run dec_int double_start init_world in
  let w2 := run dec_int double_entry init_world in
  serial dec_int double_entry init_world = true
  ∧ ACTIVE_BATTLES w1 !! 7 = Some 1%nat
  ∧ fmap status (heap w1 !! 0%nat) = Some cancelled
  ∧ fmap round (heap w1 !! 0%nat) = Some 0%nat
  ∧ fmap round (heap w1 !! 1%nat) = Some 1%nat
  ∧ List.filter is_round_post (out w1) = [ORound 7 1 1 prob_A 3]
  ∧ points w1 !! (7, 1) = Some (mkPoints 0 1 0)
  ∧ points w1 !! (7, 2) = Some (mkPoints 0 1 0)
  ∧ tasks w1 !! 3%nat = Some (TRunStart 7)
  ∧ ACTIVE_BATTLES w2 !! 7 = Some 1%nat
  ∧ length (heap w2) = 2%nat
  ∧ points w2 !! (7, 1) = Some (mkPoints 0 2 0)
  ∧ points w2 !! (7, 2) = Some (mkPoints 0 2 0).
Proof. intros w1 w2. split_and!; vm_compute; reflexivity. Qed.

(** ** The theorems at concrete inputs *)

Lemma select_problems_sound_witness :
  let sel := select_problems_for_battle small_catalogue [Some [accepted prob_A]]
               id_shuffle [1200; 1400] 2 in
  sel = [prob_B] ∧ Z.of_nat (length sel) ≤ 2 ∧ NoDup (problem_key <$> sel).
Proof.
  intros sel.
  destruct (select_problems_sound small_catalogue [Some [accepted prob_A]]
              id_shuffle [1200; 1400] 2) as (_ & Hlen & Hnd).
  split_and!; [reflexivity | apply Hlen; lia |]. apply Hnd.
  - done.
  - apply (bool_decide_unpack _). vm_compute. exact I.
  - right. simpl. repeat split; try done; repeat constructor; simpl; lia.
Defined.

Lemma join_timer_gate_witness :
  (let w := run dec_int (join_phase true) init_world in
   let w' := resume 0 no_input w in
   fmap status (heap w' !! 0%nat) = Some running ∧ ACTIVE_BATTLES w' !! 7 = Some 0%nat)
  ∧ (let w := run dec_int (join_phase false) init_world in
     let w' := resume 0 no_input w in
     fmap status (heap w' !! 0%nat) ≠ Some running
     ∧ ACTIVE_BATTLES w' !! 7 = None
     ∧ last (out w') = Some (ONotEnough 7)).
Proof.
  split.
  - intros w w'.
    destruct (heap w !! 0%nat) as [b|] eqn:Hb; [|by vm_compute in Hb].
    destruct (join_timer_gate dec_int w 0%nat no_input 7 0%nat b) as (Hrun & Hmany & _).
    + by exists (join_phase true).
    + by vm_compute.
    + apply get_battle_Some. split; [by vm_compute | exact Hb].
    + assert (2 ≤ size (participants b))%nat as Hsize.
      { vm_compute in Hb. injection Hb as <-. vm_compute. lia. }
      split; [by apply Hrun | by apply Hmany].
  - intros w w'.
    destruct (heap w !! 0%nat) as [b|] eqn:Hb; [|by vm_compute in Hb].
    destruct (join_timer_gate dec_int w 0%nat no_input 7 0%nat b)
      as (Hrun & _ & Hfew & _).
    + by exists (join_phase false).
    + by vm_compute.
    + apply get_battle_Some. split; [by vm_compute | exact Hb].
    + assert (size (participants b) < 2)%nat as Hsize.
      { vm_compute in Hb. injection Hb as <-. vm_compute. lia. }
      destruct (Hfew Hsize) as (Hgone & _ & Hout & _).
      split_and!; [| exact Hgone |].
      * intros Hs. apply Hrun in Hs. lia.
      * subst w'. rewrite Hout. apply last_snoc.
Defined.

Lemma run_entry_counts_battles_witness :
  let w := run dec_int selecting init_world in
  let w' := resume 1 (catalogue_input small_catalogue) w in
  points w !! (7, 2) = Some (mkPoints 0 0 0)
  ∧ points w' !! (7, 2) = Some (mkPoints 0 1 0).
Proof.
  intros w w'.
  destruct (heap w !! 0%nat) as [b|] eqn:Hb; [|by vm_compute in Hb].
  destruct (run_entry_counts_battles dec_int w 1 (catalogue_input small_catalogue)
              7 0%nat b) as (_ & Hfull).
  - by exists selecting.
  - by vm_compute.
  - exact Hb.
  - destruct Hfull as [Hbump _].
    { vm_compute in Hb. injection Hb as <-. vm_compute. by intros [=]. }
    destruct (Hbump 2) as (r & Hr & Hr').
    { vm_compute in Hb. injection Hb as <-. vm_compute. by eexists. }
    assert (points w !! (7, 2) = Some (mkPoints 0 0 0)) as Hrow by (by vm_compute).
    rewrite Hrow in Hr. injection Hr as <-. by split.
Defined.

Lemma invalid_create_rejected_witness :
  let w := run dec_int [EvSetHandle 7 1 "Ann" ["ann"%string] (Some (Some 1500))] init_world in
  let w' := cmd_createbattle dec_int 7 1 ["11"; "1200"]%string w in
  ACTIVE_BATTLES w' = ACTIVE_BATTLES w
  ∧ out w' = out w ++ [OReply 7 (RInvalidArgs ErrNumRange)].
Proof.
  intros w w'.
  destruct (invalid_create_rejected dec_int 7 1 ["11"; "1200"]%string w)
    as (Hact & _ & _ & _ & _ & _ & _ & Hmsg).
  - right. left. exists "11"%string, ["1200"%string], 11.
    split_and!; [reflexivity | by vm_compute | right; lia].
  - split; [exact Hact|].
    destruct Hmsg as (e & He & Hout); [by vm_compute | by vm_compute; eexists |].
    vm_compute in He. injection He as <-. exact Hout.
Defined.

Lemma claim_checked_against_current_problem_witness :
  let w := run dec_int second_round init_world in
  let res := handle_finished_callback 7 2 1 [accepted prob_B] w in
  fmap round (heap w !! 0%nat) = Some 2%nat
  ∧ res.1 = ClaimOk "bob" 4
  ∧ fmap round (heap res.2 !! 0%nat) = Some 2%nat
  ∧ fmap round_winner (heap res.2 !! 0%nat) = Some (Some (2, "bob"%string))
  ∧ fmap round_finished (heap res.2 !! 0%nat) = Some true
  ∧ points res.2 !! (7, 2) = Some (mkPoints 4 1 1).
Proof.
  intros w res.
  set (b := default blank_battle (heap w !! 0%nat)).
  assert (heap w !! 0%nat = Some b) as Hb by (vm_compute; reflexivity).
  assert (round b = 2%nat) as Hround by (vm_compute; reflexivity).
  assert (points w !! (7, 2) = Some (mkPoints 0 1 0)) as Hrow by (vm_compute; reflexivity).
  destruct (claim_checked_against_current_problem 7 2 1 [accepted prob_B] w 0%nat b "bob")
    as (_ & Hcp & _).
  - apply get_battle_Some. split; [vm_compute; reflexivity | exact Hb].
  - vm_compute. reflexivity.
  - vm_compute. reflexivity.
  - destruct (Hcp prob_B) as (Hiff & _ & Hrec & _); [vm_compute; reflexivity|].
    assert (has_accepted prob_B [accepted prob_B]) as Hsub.
    { exists (accepted prob_B). split; [left | split; [reflexivity | split; reflexivity]]. }
    destruct (Hrec Hsub) as ((b' & Hb' & Hr' & Hw' & Hf' & _) & _ & Hpts).
    fold res in Hb', Hpts. rewrite Hrow in Hpts.
    split_and!.
    + by rewrite Hb.
    + by apply Hiff.
    + rewrite Hb'. simpl. by rewrite Hr', Hround.
    + rewrite Hb'. simpl. by rewrite Hw'.
    + rewrite Hb'. simpl. by rewrite Hf'.
    + exact Hpts.
Defined.

Lemma unrated_win_scores_zero_witness :
  let w := run dec_int hard_round init_world in
  let res := handle_finished_callback 7 2 1 [accepted prob_H] w in
  res.1 = ClaimOk "bob" 0
  ∧ fmap round_winner (heap w !! 0%nat) = Some None
  ∧ fmap round_winner (heap res.2 !! 0%nat) = Some (Some (2, "bob"%string))
  ∧ fmap round_finished (heap res.2 !! 0%nat) = Some true
  ∧ points w !! (7, 2) = Some (mkPoints 0 1 0)
  ∧ points res.2 !! (7, 2) = Some (mkPoints 0 1 1).
Proof.
  intros w res.
  set (b := default blank_battle (heap w !! 0%nat)).
  assert (heap w !! 0%nat = Some b) as Hb by (vm_compute; reflexivity).
  assert (points w !! (7, 2) = Some (mkPoints 0 1 0)) as Hrow by (vm_compute; reflexivity).
  destruct (unrated_win_scores_zero 7 2 1 [accepted prob_H] w 0%nat b "bob" prob_H)
    as (Hres & Hheap & Hpts & _ & Hsame).
  - exact Hb.
  - vm_compute. reflexivity.
  - exists (accepted prob_H).
    split; [left | split; [reflexivity | split; reflexivity]].
  - intros r [= <-]. lia.
  - assert (res = claim_verify 7 2 0%nat "bob" 1 [accepted prob_H] w) as ->.
    { apply Hsame. vm_compute. reflexivity. }
    rewrite Hheap, Hpts, Hrow.
    split_and!; [exact Hres | by rewrite Hb | reflexivity | reflexivity | reflexivity
                | reflexivity].
Defined.

(** * Further properties of the code *)

(** ** The point table *)

Lemma nth_sorted (l : list Z) (i j : nat) :
  StronglySorted Z.le l → (i ≤ j < length l)%nat → nth i l 0 ≤ nth j l 0.
Proof.
  intros Hs. revert i j. induction Hs as [|x l Hs IH Hx]; intros i j Hij; simpl in *; [lia|].
  destruct i as [|i], j as [|j]; try lia.
  - rewrite Forall_forall in Hx. apply Hx. apply list_elem_of_In, nth_In. lia.
  - apply IH. lia.
Qed.

Lemma band_table_sorted : StronglySorted Z.le band_table.
Proof. unfold band_table. repeat (constructor; [|repeat constructor; lia]). constructor. Qed.

Lemma band_value_bounds (r : Z) : 0 ≤ band_value r ≤ 85.
Proof.
  unfold band_value. destruct ((800 <=? r) && (r <=? 3099)) eqn:Hin; [|lia].
  apply andb_true_iff in Hin as [Hlo%Z.leb_le Hhi%Z.leb_le].
  assert (0 ≤ (r - 800) / 100 ≤ 22) as Hk.
  { split; [apply Z.div_pos; lia|].
    assert ((r - 800) / 100 < 23) by (apply Z.div_lt_upper_bound; lia). lia. }
  split.
  - apply Z.le_trans with (nth 0 band_table 0); [simpl; lia|].
    apply nth_sorted; [apply band_table_sorted|]. simpl. lia.
  - change 85 with (nth 22 band_table 0).
    apply nth_sorted; [apply band_table_sorted|]. simpl. lia.
Qed.

(** X1: the points of a rating are between 0 and 85; they are positive
    exactly for the integers 800-3099; and up to 3099 a higher rating never
    pays less. *)
Theorem points_bounded_monotone :
  (∀ v, 0 ≤ rating_to_points v ≤ 85)
  ∧ (∀ r, 0 < rating_to_points (PyInt r) ↔ 800 ≤ r ≤ 3099)
  ∧ (∀ r1 r2, r1 ≤ r2 → r2 ≤ 3099 →
       rating_to_points (PyInt r1) ≤ rating_to_points (PyInt r2)).
Proof.
  assert (∀ r, rating_to_points (PyInt r) = band_value r) as Hband
    by (intros r; apply point_lookup_band).
  split_and!.
  - intros [| [] |r|s]; try (by vm_compute).
    rewrite Hband. apply band_value_bounds.
  - intros r. rewrite Hband. split.
    + intros Hpos. destruct (decide (800 ≤ r ≤ 3099)) as [|Hout]; [done|].
      rewrite band_value_out in Hpos by lia. lia.
    + intros [Hlo Hhi]. unfold band_value.
      rewrite (proj2 (Z.leb_le 800 r)), (proj2 (Z.leb_le r 3099)) by lia. cbn [andb].
      assert (0 ≤ (r - 800) / 100 ≤ 22) as Hk.
      { split; [apply Z.div_pos; lia|].
        assert ((r - 800) / 100 < 23) by (apply Z.div_lt_upper_bound; lia). lia. }
      eapply Z.lt_le_trans; [|apply (nth_sorted band_table 0);
                               [apply band_table_sorted | simpl; lia]].
      reflexivity.
  - intros r1 r2 Hle Hhi. rewrite !Hband.
    destruct (decide (800 ≤ r1)) as [Hlo|Hlo].
    + unfold band_value.
      rewrite (proj2 (Z.leb_le 800 r1)), (proj2 (Z.leb_le r1 3099)) by lia.
      rewrite (proj2 (Z.leb_le 800 r2)), (proj2 (Z.leb_le r2 3099)) by lia. cbn [andb].
      assert (0 ≤ (r1 - 800) / 100) by (apply Z.div_pos; lia).
      assert ((r1 - 800) / 100 ≤ (r2 - 800) / 100) by (apply Z.div_le_mono; lia).
      assert ((r2 - 800) / 100 < 23) by (apply Z.div_lt_upper_bound; lia).
      apply nth_sorted; [apply band_table_sorted|]. simpl. lia.
    + rewrite (band_value_out r1) by lia. apply band_value_bounds.
Qed.

(** ** Creation arguments *)

Lemma parse_ints_inr py_int (l : list string) (zs : list Z) :
  parse_ints py_int l = inr zs ↔ Forall2 (λ s z, py_int s = Some z) l zs.
Proof.
  revert zs. induction l as [|x xs IH]; intros zs; simpl.
  - split; [intros [= <-]; constructor | intros H; by inversion H].
  - destruct (py_int x) as [z|] eqn:Hx.
    + destruct (parse_ints py_int xs) as [e|zs'] eqn:Hxs.
      * split; [done|]. intros H. inversion H as [|? z' ? zs'' Hz Hrest]; subst.
        apply IH in Hrest. done.
      * split.
        -- intros [= <-]. constructor; [done|]. by apply IH.
        -- intros H. inversion H as [|? z' ? zs'' Hz Hrest]; subst.
           apply IH in Hrest. congruence.
    + split; [done|]. intros H. inversion H; congruence.
Qed.

(** X2: [parse_create_args] accepts exactly the argument lists with a count
    and at least one rating in which the count reads as an integer in 1-10
    and every rating reads as an integer in 800-3500; it returns the
    integers read, ratings in the order given.  The number of ratings is
    not compared with the count. *)
Theorem parse_create_args_accepts py_int (args : list string) (num : Z) (ratings : list Z) :
  parse_create_args py_int args = inr (num, ratings)
  ↔ ∃ a0 rest, args = a0 :: rest ∧ rest ≠ []
               ∧ py_int a0 = Some num ∧ 1 ≤ num ≤ 10
               ∧ Forall2 (λ s r, py_int s = Some r) rest ratings
               ∧ Forall (λ r, 800 ≤ r ≤ 3500) ratings.
Proof.
  assert (∀ rs, forallb rating_ok rs = true ↔ Forall (λ r, 800 ≤ r ≤ 3500) rs) as Hok.
  { intros rs. rewrite forallb_forall, Forall_forall. unfold rating_ok.
    split; intros H r Hr.
    - apply list_elem_of_In, H in Hr. apply negb_true_iff, orb_false_iff in Hr as [H1 H2].
      apply Z.ltb_ge in H1, H2. lia.
    - apply list_elem_of_In, H in Hr. apply negb_true_iff, orb_false_iff.
      split; apply Z.ltb_ge; lia. }
  unfold parse_create_args. split.
  - destruct args as [|a0 [|a1 rest]]; [done|done|].
    destruct (py_int a0) as [n|] eqn:Ha0; [|done].
    destruct ((n <? 1) || (10 <? n)) eqn:Hrange; [done|].
    destruct (parse_ints py_int (a1 :: rest)) as [e|rs] eqn:Hrs; [done|].
    destruct (forallb rating_ok rs) eqn:Hall; [|done]. intros [= <- <-].
    apply orb_false_iff in Hrange as [?%Z.ltb_ge ?%Z.ltb_ge].
    exists a0, (a1 :: rest).
    split; [done|]. split; [done|]. split; [done|]. split; [lia|].
    split; [by apply parse_ints_inr | by apply Hok].
  - intros (a0 & rest & -> & Hne & Ha0 & Hnum & Hrs & Hall).
    destruct rest as [|a1 rest]; [done|]. rewrite Ha0.
    assert ((num <? 1) || (10 <? num) = false) as ->.
    { apply orb_false_iff. split; apply Z.ltb_ge; lia. }
    apply parse_ints_inr in Hrs. rewrite Hrs.
    apply Hok in Hall. by rewrite Hall.
Qed.

(** ** More on the problem selector *)

Section SelectorShape.
Implicit Types (attempted : gset string) (pool selected : list Problem).

Lemma first_unattempted_find attempted pool :
  first_unattempted attempted pool = List.find (is_fresh attempted) pool.
Proof. reflexivity. Qed.

(** The loop of range mode appends fresh problems until [num] are there. *)
Lemma range_loop_take attempted num pool selected :
  Z.of_nat (length selected) < num →
  range_loop attempted num pool selected
  = selected ++ take (Z.to_nat num - length selected)
                     (List.filter (is_fresh attempted) pool).
Proof.
  revert selected. induction pool as [|p pool IH]; intros selected Hlen; simpl.
  - by rewrite take_nil, app_nil_r.
  - unfold is_fresh at 1.
    destruct (decide (problem_key p ∈ attempted)) as [Hp|Hp].
    + rewrite bool_decide_eq_false_2 by (by intros ?). by apply IH.
    + rewrite bool_decide_eq_true_2 by done.
      destruct (Z.leb_spec num (Z.of_nat (length (selected ++ [p])))) as [Hfull|Hroom].
      * rewrite length_app in Hfull. simpl in Hfull.
        replace (Z.to_nat num - length selected)%nat with 1%nat by lia.
        simpl. by rewrite take_0.
      * rewrite IH by done. rewrite length_app in *. simpl in *.
        replace (Z.to_nat num - length selected)%nat
          with (S (Z.to_nat num - (length selected + 1)))%nat by lia.
        simpl. by rewrite <- app_assoc.
Qed.

(** The loop of the specific-ratings mode appends the finds of the targets
    until [num] are there. *)
Lemma target_loop_take attempted num problems shuffle i ratings selected :
  Z.of_nat (length selected) < num →
  target_loop attempted num problems shuffle i ratings selected
  = selected ++ take (Z.to_nat num - length selected)
                     (target_finds attempted problems shuffle i ratings).
Proof.
  revert i selected. induction ratings as [|r ratings IH]; intros i selected Hlen; simpl.
  - by rewrite take_nil, app_nil_r.
  - fold (target_pool problems r).
    destruct (first_unattempted attempted (shuffle i (target_pool problems r)))
      as [found|].
    + destruct (Z.leb_spec num (Z.of_nat (length (selected ++ [found])))) as [Hfull|Hroom].
      * rewrite length_app in Hfull. simpl in Hfull.
        replace (Z.to_nat num - length selected)%nat with 1%nat by lia.
        simpl. by rewrite take_0.
      * rewrite IH by done. rewrite length_app in *. simpl in *.
        replace (Z.to_nat num - length selected)%nat
          with (S (Z.to_nat num - (length selected + 1)))%nat by lia.
        simpl. by rewrite <- app_assoc.
    + destruct (Z.leb_spec num (Z.of_nat (length selected))); [lia|]. by apply IH.
Qed.

Lemma target_finds_length attempted problems shuffle i ratings :
  (length (target_finds attempted problems shuffle i ratings) ≤ length ratings)%nat.
Proof.
  revert i. induction ratings as [|r ratings IH]; intros i; simpl; [lia|].
  destruct (first_unattempted _ _); simpl; specialize (IH (S i)); lia.
Qed.

Lemma target_loop_length_targets attempted num problems shuffle i ratings selected :
  (length (target_loop attempted num problems shuffle i ratings selected)
   ≤ length selected + length ratings)%nat.
Proof.
  revert i selected. induction ratings as [|r ratings IH]; intros i selected;
    cbn [target_loop length]; [lia|].
  destruct (first_unattempted _ _) as [found|].
  - destruct (num <=? _).
    + rewrite length_app. simpl. lia.
    + etrans; [apply IH|]. rewrite length_app. simpl. lia.
  - destruct (num <=? _); [lia|]. etrans; [apply IH|]. lia.
Qed.

Lemma filter_length_perm (f : Problem → bool) (l k : list Problem) :
  l ≡ₚ k → length (List.filter f l) = length (List.filter f k).
Proof.
  induction 1 as [|x l k _ IH|x y l|l k m _ IH1 _ IH2]; simpl.
  - done.
  - destruct (f x); simpl; lia.
  - destruct (f x), (f y); simpl; lia.
  - lia.
Qed.
End SelectorShape.

(** X3: in range mode the selector returns the first [num] fresh problems
    of the shuffled pool of catalogue problems rated within 50 of the
    range; so it returns [num] problems when the pool holds that many fresh
    ones, and all of them otherwise. *)
Theorem range_mode_first_fresh problems results shuffle ratings num :
  range_mode ratings num →
  (∀ i l, shuffle i l ≡ₚ l) →
  let attempted := attempted_of results in
  let sel := select_problems_for_battle problems results shuffle ratings num in
  sel = take (Z.to_nat num)
          (List.filter (is_fresh attempted) (shuffle 0%nat (range_pool problems ratings)))
  ∧ length sel
    = (Z.to_nat num `min`
       length (List.filter (is_fresh attempted) (range_pool problems ratings)))%nat.
Proof.
  intros [Hlen Hnum] Hperm attempted sel.
  assert (sel = take (Z.to_nat num)
            (List.filter (is_fresh attempted) (shuffle 0%nat (range_pool problems ratings))))
    as Hsel.
  { subst sel. unfold select_problems_for_battle.
    destruct problems as [|p0 problems'] eqn:Hproblems.
    - assert (shuffle 0%nat (range_pool [] ratings) = []) as ->;
        [|simpl; by rewrite take_nil].
      apply Permutation_nil_r. by rewrite Hperm.
    - rewrite <- Hproblems.
      rewrite bool_decide_eq_true_2 by done.
      rewrite (proj2 (Z.ltb_lt 2 num)) by done. cbn [andb].
      rewrite range_loop_take by (simpl; lia). simpl. by rewrite Nat.sub_0_r. }
  split; [done|]. rewrite Hsel, length_take.
  by rewrite (filter_length_perm _ _ _ (Hperm 0%nat (range_pool problems ratings))).
Qed.

(** X4: outside range mode the selector returns at most one problem per
    target, whatever the count asked for. *)
Theorem target_mode_one_per_target problems results shuffle ratings num :
  ¬ range_mode ratings num →
  (length (select_problems_for_battle problems results shuffle ratings num)
   ≤ length ratings)%nat.
Proof.
  intros Hmode. unfold select_problems_for_battle.
  destruct problems as [|p0 problems']; [simpl; lia|].
  destruct (bool_decide (length ratings = 2%nat) && (2 <? num)) eqn:Hb.
  { destruct Hmode. apply andb_true_iff in Hb as [H1%bool_decide_eq_true H2%Z.ltb_lt].
    by split. }
  etrans; [apply target_loop_length_targets|]. simpl. lia.
Qed.

Section SelectorOrigin.
Implicit Types (attempted : gset string) (pool selected : list Problem).

Lemma range_loop_from_pool attempted num pool selected p :
  p ∈ range_loop attempted num pool selected → p ∈ selected ∨ p ∈ pool.
Proof.
  revert selected. induction pool as [|q pool IH]; intros selected; simpl; [auto|].
  destruct (decide (problem_key q ∈ attempted)).
  - intros Hp. apply IH in Hp as [Hp|Hp]; [by left | right; by right].
  - assert (p ∈ selected ++ [q] → p ∈ selected ∨ p ∈ q :: pool) as Hsnoc.
    { intros Hp. apply elem_of_app in Hp as [Hp|Hp]; [by left|].
      apply list_elem_of_singleton in Hp as ->. right. left. }
    destruct (num <=? _); [done|].
    intros Hp. apply IH in Hp as [Hp|Hp]; [auto | right; by right].
Qed.

Lemma target_loop_from_pools attempted num problems shuffle i ratings selected p :
  p ∈ target_loop attempted num problems shuffle i ratings selected →
  p ∈ selected ∨ ∃ r j, r ∈ ratings ∧ p ∈ shuffle j (target_pool problems r).
Proof.
  revert i selected. induction ratings as [|r ratings IH]; intros i selected;
    cbn [target_loop]; [auto|].
  fold (target_pool problems r).
  destruct (first_unattempted attempted (shuffle i (target_pool problems r)))
    as [found|] eqn:Hfound.
  - apply first_unattempted_Some in Hfound as [Hin _].
    assert (p ∈ selected ++ [found] →
            p ∈ selected ∨ ∃ r' j, r' ∈ r :: ratings ∧ p ∈ shuffle j (target_pool problems r'))
      as Hsnoc.
    { intros Hp. apply elem_of_app in Hp as [Hp|Hp]; [by left|].
      apply list_elem_of_singleton in Hp as ->. right. exists r, i. split; [left|done]. }
    destruct (num <=? _); [done|].
    intros Hp. apply IH in Hp as [Hp|(r' & j & Hr' & Hp)]; [auto|].
    right. exists r', j. split; [by right|done].
  - destruct (num <=? _); [auto|].
    intros Hp. apply IH in Hp as [Hp|(r' & j & Hr' & Hp)]; [auto|].
    right. exists r', j. split; [by right|done].
Qed.

Lemma in_window_rated lo hi p : in_window lo hi p = true ↔ rated_within lo hi p.
Proof.
  unfold in_window, rated_within. destruct (isinstance_int (p_rating p)) as [z|].
  - rewrite andb_true_iff, !Z.leb_le. split; [eauto|]. by intros (? & [= <-] & ?).
  - split; [done|]. by intros (? & ? & ?).
Qed.

Lemma filter_window_elem lo hi problems p :
  p ∈ List.filter (in_window lo hi) problems ↔ p ∈ problems ∧ rated_within lo hi p.
Proof. by rewrite list_elem_of_In, filter_In, <- list_elem_of_In, in_window_rated. Qed.

Lemma target_finds_all attempted problems shuffle i ratings :
  (∀ j l, shuffle j l ≡ₚ l) →
  Forall (λ r, ∃ p, p ∈ problems ∧ rated_within (r - 50) (r + 50) p
                    ∧ problem_key p ∉ attempted) ratings →
  length (target_finds attempted problems shuffle i ratings) = length ratings.
Proof.
  intros Hperm Hall. revert i.
  induction Hall as [|r ratings (p & Hin & Hw & Hfresh) _ IH]; intros i; simpl; [done|].
  destruct (first_unattempted attempted (shuffle i (target_pool problems r)))
    as [found|] eqn:Hfound; [simpl; by rewrite IH|].
  exfalso. unfold first_unattempted in Hfound.
  eapply find_none in Hfound.
  - apply bool_decide_eq_false in Hfound. by apply Hfound.
  - apply list_elem_of_In. rewrite Hperm. by apply filter_window_elem.
Qed.
End SelectorOrigin.

(** X5: every selected problem is a catalogue problem with an integer
    rating within 50 of the range (range mode) or within 50 of one of the
    targets (specific-ratings mode). *)
Theorem selected_from_catalogue problems results shuffle ratings num p :
  (∀ i l, shuffle i l ≡ₚ l) →
  p ∈ select_problems_for_battle problems results shuffle ratings num →
  p ∈ problems
  ∧ ((range_mode ratings num
      ∧ rated_within (py_min ratings - 50) (py_max ratings + 50) p)
     ∨ (¬ range_mode ratings num
        ∧ ∃ r, r ∈ ratings ∧ rated_within (r - 50) (r + 50) p)).
Proof.
  intros Hperm. unfold select_problems_for_battle.
  destruct problems as [|p0 problems'] eqn:Hproblems;
    [intros Hp; by apply elem_of_nil in Hp|].
  rewrite <- Hproblems. clear Hproblems.
  destruct (bool_decide (length ratings = 2%nat) && (2 <? num)) eqn:Hb.
  - apply andb_true_iff in Hb as [H1%bool_decide_eq_true H2%Z.ltb_lt].
    intros Hp. apply range_loop_from_pool in Hp as [Hp|Hp]; [by apply elem_of_nil in Hp|].
    rewrite Hperm in Hp. apply filter_window_elem in Hp as [Hin Hw].
    split; [done|]. left. by split.
  - assert (¬ range_mode ratings num) as Hmode.
    { intros [H1 H2]. apply andb_false_iff in Hb as [Hb|Hb].
      - by apply bool_decide_eq_false in Hb.
      - apply Z.ltb_ge in Hb. lia. }
    intros Hp. apply target_loop_from_pools in Hp as [Hp|(r & j & Hr & Hp)];
      [by apply elem_of_nil in Hp|].
    rewrite Hperm in Hp. apply filter_window_elem in Hp as [Hin Hw].
    split; [done|]. right. split; [done|]. eauto.
Qed.

(** X6: outside range mode, when at most as many problems are asked for as
    there are targets and every target has a fresh catalogue problem within
    50 of it, the selector returns exactly the number asked for. *)
Theorem target_mode_complete problems results shuffle ratings num :
  ¬ range_mode ratings num →
  1 ≤ num ≤ Z.of_nat (length ratings) →
  (∀ i l, shuffle i l ≡ₚ l) →
  (∀ r, r ∈ ratings →
     ∃ p, p ∈ problems ∧ rated_within (r - 50) (r + 50) p
          ∧ problem_key p ∉ attempted_of results) →
  length (select_problems_for_battle problems results shuffle ratings num) = Z.to_nat num.
Proof.
  intros Hmode Hnum Hperm Hsupply. unfold select_problems_for_battle.
  destruct problems as [|p0 problems'] eqn:Hproblems.
  { destruct ratings as [|r ratings]; [simpl in Hnum; lia|].
    destruct (Hsupply r) as (p & Hp & _); [left|]. by apply elem_of_nil in Hp. }
  clear Hproblems.
  destruct (bool_decide (length ratings = 2%nat) && (2 <? num)) eqn:Hb.
  { destruct Hmode. apply andb_true_iff in Hb as [H1%bool_decide_eq_true H2%Z.ltb_lt].
    by split. }
  rewrite target_loop_take by (simpl; lia). simpl app.
  rewrite length_take, Nat.sub_0_r.
  rewrite target_finds_all; [lia|done|]. apply Forall_forall. exact Hsupply.
Qed.

(** X7: [run_battle] gives up at its start, whatever Codeforces answers,
    when the catalogue comes back empty, and when the battle asks for more
    rounds than it has targets without being in range mode: the chat is
    deregistered, the failure notice is sent, no battle is counted and the
    coroutine ends. *)
Theorem run_aborts_without_problems w tid inp chat l b :
  tasks w !! tid = Some (TRunSelect chat l) →
  heap w !! l = Some b →
  in_problems inp = []
  ∨ (¬ range_mode (ratings b) (num_problems b)
     ∧ Z.of_nat (length (ratings b)) < num_problems b) →
  let w' := resume tid inp w in
  ACTIVE_BATTLES w' !! chat = None
  ∧ points w' = points w
  ∧ (∃ found, out w' = out w ++ [OSelectFailed chat found (num_problems b)])
  ∧ tasks w' !! tid = Some TDone.
Proof.
  intros Htask Hl Hwhy w'. subst w'. unfold resume. rewrite Htask. simpl.
  unfold run_selected. rewrite Hl.
  set (sel := select_problems_for_battle _ _ _ _ _).
  assert (bool_decide (sel = []) || (Z.of_nat (length sel) <? num_problems b) = true) as ->.
  { destruct Hwhy as [Hempty|[Hmode Hshort]].
    - subst sel. rewrite Hempty. reflexivity.
    - apply orb_true_iff. right. apply Z.ltb_lt.
      enough (length sel ≤ length (ratings b))%nat by lia.
      subst sel. unfold select_problems_for_battle.
      destruct (in_problems inp) as [|p0 ps]; [simpl; lia|].
      destruct (bool_decide (length (ratings b) = 2%nat) && (2 <? num_problems b)) eqn:Hb.
      { destruct Hmode.
        apply andb_true_iff in Hb as [H1%bool_decide_eq_true H2%Z.ltb_lt]. by split. }
      etrans; [apply target_loop_length_targets|]. simpl. lia. }
  simpl. split_and!; [apply lookup_delete_eq | done | eauto |].
  apply list_lookup_insert_eq. by eapply lookup_lt_Some.
Qed.

(** ** Well-formed worlds: every reachable world is one *)

Lemma quiet_set_round v : quiet (set_round v).
Proof. by intros b. Qed.
Lemma quiet_set_round_winner v : quiet (set_round_winner v).
Proof. by intros b. Qed.
Lemma quiet_set_round_finished v : quiet (set_round_finished v).
Proof. by intros b. Qed.
Lemma quiet_set_current_problem v : quiet (set_current_problem v).
Proof. by intros b. Qed.
Lemma quiet_set_selected_problems v : quiet (set_selected_problems v).
Proof. by intros b. Qed.
Lemma quiet_set_running : quiet (set_status running).
Proof. intros b. simpl. split_and!; done. Qed.
Lemma quiet_compose f g : quiet f → quiet g → quiet (λ b, f (g b)).
Proof.
  intros Hf Hg b. destruct (Hf (g b)) as (-> & -> & Hs), (Hg b) as (-> & -> & Hs').
  split_and!; auto.
Qed.
#[local] Hint Resolve quiet_set_round quiet_set_round_winner quiet_set_round_finished
  quiet_set_current_problem quiet_set_selected_problems quiet_set_running
  quiet_compose : bot.

Lemma wf_init : wf init_world.
Proof.
  assert (∀ chat l, ¬ refs init_world chat l) as Hno.
  { intros chat l [H|(t & H & _)]; [by simplify_map_eq | by apply elem_of_nil in H]. }
  split; simpl.
  - intros chat l H. by destruct (Hno chat l).
  - intros chat chat' l H. by destruct (Hno chat l).
  - intros chat l b u H. by destruct (Hno chat l).
  - intros chat user l h i H. by apply elem_of_nil in H.
  - intros k. rewrite !lookup_empty. done.
  - intros k r H. by simplify_map_eq.
  - intros chat l b H. by simplify_map_eq.
  - intros l b H. by rewrite lookup_nil in H.
Qed.

Lemma wf_emit o w : wf w → wf (emit o w).
Proof. intros []. by split. Qed.

Lemma wf_set_pending f w : wf w → wf (set_pending f w).
Proof. intros []. by split. Qed.

Lemma fits_other w t : task_ref t = None → fits w t.
Proof. intros Ht. split; [intros ? ?; congruence | intros ? ? ? ? ? ->; done]. Qed.

Lemma refs_spawn t w chat l :
  refs (spawn t w) chat l → refs w chat l ∨ task_ref t = Some (chat, l).
Proof.
  intros [H|(t' & H & Ht')]; [left; by left|]. simpl in H.
  apply elem_of_app in H as [H|H]; [left; right; eauto|].
  apply list_elem_of_singleton in H as ->. by right.
Qed.

Lemma wf_spawn t w : fits w t → wf w → wf (spawn t w).
Proof.
  intros [Href Hclaim] [].
  assert (∀ chat l, refs (spawn t w) chat l → refs w chat l) as Hrefs.
  { intros chat l H. apply refs_spawn in H as [H|H]; auto. }
  split; simpl; eauto.
  intros chat user l h i H. apply elem_of_app in H as [H|H]; [eauto|].
  apply list_elem_of_singleton in H. eauto.
Qed.

Lemma elem_of_list_insert_inv {A} (l : list A) (i : nat) (x y : A) :
  y ∈ <[i := x]> l → y = x ∨ y ∈ l.
Proof.
  intros H. apply list_elem_of_lookup in H as [j Hj].
  apply list_lookup_insert_Some in Hj as [(-> & <- & _) | (_ & Hj)]; [by left|].
  right. apply list_elem_of_lookup. eauto.
Qed.

Lemma wf_set_task tid t w : fits w t → wf w → wf (set_tasks (<[tid := t]>) w).
Proof.
  intros [Href Hclaim] [].
  assert (∀ chat l, refs (set_tasks (<[tid := t]>) w) chat l → refs w chat l) as Hrefs.
  { intros chat l [H|(t' & H & Ht')]; [by left|]. simpl in H.
    apply elem_of_list_insert_inv in H as [->|H]; [auto | right; eauto]. }
  split; simpl; eauto.
  intros chat user l h i H. apply elem_of_list_insert_inv in H as [H|H]; eauto.
Qed.

Lemma wf_delete chat w : wf w → wf (set_active (delete chat) w).
Proof.
  intros [].
  assert (∀ c l, refs (set_active (delete chat) w) c l → refs w c l) as Hrefs.
  { intros c l [H|H]; [|by right]. simpl in H.
    apply lookup_delete_Some in H as [_ H]. by left. }
  split; simpl; eauto.
  intros c l b H. apply lookup_delete_Some in H as [_ H]. eauto.
Qed.

Lemma wf_upd l f w : quiet f → wf w → wf (upd_battle l f w).
Proof.
  intros Hf [].
  assert (∀ l' b', heap (upd_battle l f w) !! l' = Some b' →
          ∃ b, heap w !! l' = Some b ∧ participants b' = participants b
               ∧ creator b' = creator b
               ∧ (status b' = cancelled → status b = cancelled)) as Hheap.
  { intros l' b'. simpl. destruct (decide (l = l')) as [->|Hne].
    - rewrite list_lookup_alter_eq. destruct (heap w !! l') as [b|]; [|done].
      intros [= <-]. exists b. split; [done|]. apply Hf.
    - rewrite list_lookup_alter_ne by done. eauto. }
  split; simpl; try done.
  - intros chat l' H. rewrite length_alter. eauto.
  - intros chat l' b' u Ho Hb'. apply Hheap in Hb' as (b & Hb & -> & _). eauto.
  - intros chat l' b' Hact Hb' Hs. apply Hheap in Hb' as (b & Hb & _ & _ & Hst).
    eapply wf_live0; eauto.
  - intros l' b' Hb'. apply Hheap in Hb' as (b & Hb & -> & -> & _). eauto.
Qed.

Lemma wf_add_points chat user delta w :
  0 ≤ delta ≤ 85 → is_Some (users w !! (chat, user)) →
  wf w → wf (add_points chat user delta true w).
Proof.
  intros Hdelta Huser []. split; simpl; try done.
  - intros k. rewrite <- wf_tables0. rewrite lookup_alter. unfold insert_or_ignore.
    assert (is_Some (points w !! (chat, user))) as [r Hr] by (by apply wf_tables0).
    rewrite Hr. case_decide; [subst; rewrite Hr|]; simpl; split; intros [? ?]; eauto.
  - intros k r. rewrite lookup_alter. unfold insert_or_ignore.
    assert (is_Some (points w !! (chat, user))) as [r0 Hr0] by (by apply wf_tables0).
    rewrite Hr0. case_decide; [subst; rewrite Hr0; simpl|by eauto].
    intros [= <-]. simpl. destruct (wf_rows0 _ _ Hr0). lia.
Qed.

Lemma wf_increment_battles chat ids w : wf w → wf (increment_battles chat ids w).
Proof.
  intros Hw. unfold increment_battles.
  assert (∀ tbl : gmap (Z * Z) PointsRow,
    (∀ k, is_Some (tbl !! k) ↔ is_Some (users w !! k)) →
    (∀ k r, tbl !! k = Some r → 0 ≤ pts r ≤ 85 * first_solves r ∧ 0 ≤ battles r) →
    let tbl' := foldl (λ tbl uid, alter bump_battles (chat, uid) tbl) tbl ids in
    (∀ k, is_Some (tbl' !! k) ↔ is_Some (users w !! k))
    ∧ (∀ k r, tbl' !! k = Some r → 0 ≤ pts r ≤ 85 * first_solves r ∧ 0 ≤ battles r)) as Hfold.
  { induction ids as [|u ids IH]; intros tbl H1 H2; simpl; [done|]. apply IH.
    - intros k. rewrite <- H1, lookup_alter. case_decide; [subst|done].
      destruct (tbl !! (chat, u)); simpl; split; intros [? ?]; eauto.
    - intros k r. rewrite lookup_alter. case_decide; [subst|by eauto].
      destruct (tbl !! (chat, u)) as [r0|] eqn:Hr0; simpl; [|done].
      intros [= <-]. simpl. destruct (H2 _ _ Hr0). lia. }
  destruct Hw. destruct (Hfold (points w) wf_tables0 wf_rows0). by split.
Qed.

Lemma wf_upsert_user chat user full handle rating w :
  wf w → wf (upsert_user chat user full handle rating w).
Proof.
  intros []. split; simpl; try done.
  - intros c l b u Ho Hb Hu. destruct (decide ((chat, user) = (c, u))) as [->|Hne].
    + by rewrite lookup_insert_eq.
    + rewrite lookup_insert_ne by done. eauto.
  - intros c u l h i H. destruct (decide ((chat, user) = (c, u))) as [->|Hne].
    + by rewrite lookup_insert_eq.
    + rewrite lookup_insert_ne by done. eauto.
  - intros k. unfold insert_or_ignore.
    destruct (decide (k = (chat, user))) as [->|Hne].
    + rewrite lookup_insert_eq.
      destruct (points w !! (chat, user)) eqn:Hp; [rewrite Hp|rewrite lookup_insert_eq];
        split; eauto.
    + rewrite lookup_insert_ne by done. rewrite <- wf_tables0.
      destruct (points w !! (chat, user)); [done|]. by rewrite lookup_insert_ne.
  - intros k r. unfold insert_or_ignore.
    destruct (points w !! (chat, user)) eqn:Hp; [by eauto|].
    destruct (decide ((chat, user) = k)) as [<-|Hne].
    + rewrite lookup_insert_eq. intros [= <-]. simpl. lia.
    + rewrite lookup_insert_ne by done. eauto.
Qed.
#[local] Hint Resolve wf_emit wf_set_pending wf_delete wf_upd wf_increment_battles
  wf_upsert_user : bot.

Lemma rating_to_points_range v : 0 ≤ rating_to_points v ≤ 85.
Proof.
  destruct v as [| [] |r|s]; try (by vm_compute).
  rewrite (point_lookup_band r : rating_to_points (PyInt r) = band_value r).
  apply band_value_bounds.
Qed.

Lemma wf_post_round chat idx prob sent w : wf w → wf (post_round chat idx prob sent w).
Proof.
  intros Hw. unfold post_round. destruct (get_battle chat w) as [[l b]|]; [|done].
  destruct sent; eauto with bot.
Qed.

Lemma wf_finalize_battle chat w : wf w → wf (finalize_battle chat w).
Proof.
  intros Hw. unfold finalize_battle.
  destruct (get_battle chat w) as [[l b]|]; eauto with bot.
Qed.
#[local] Hint Resolve wf_post_round wf_finalize_battle : bot.

Lemma start_round_wf chat l idx probs sent w :
  wf w → wf (start_round chat l idx probs sent w).2.
Proof.
  intros Hw. unfold start_round. destruct probs as [|prob rest]; simpl; eauto 10 with bot.
Qed.

Lemma post_round_tasks chat idx prob sent w : tasks (post_round chat idx prob sent w) = tasks w.
Proof.
  unfold post_round. destruct (get_battle chat w) as [[l b]|]; [|done]. by destruct sent.
Qed.

Lemma finalize_battle_tasks chat w : tasks (finalize_battle chat w) = tasks w.
Proof. unfold finalize_battle. by destruct (get_battle chat w) as [[l b]|]. Qed.

Lemma start_round_tasks chat l idx probs sent w :
  tasks (start_round chat l idx probs sent w).2 = tasks w.
Proof.
  unfold start_round. destruct probs as [|prob rest]; simpl.
  - apply finalize_battle_tasks.
  - by rewrite post_round_tasks.
Qed.

Lemma start_round_next chat l idx probs sent w :
  (start_round chat l idx probs sent w).1 = TDone
  ∨ ∃ rest, (start_round chat l idx probs sent w).1 = TRunWait chat l idx rest.
Proof. unfold start_round. destruct probs as [|prob rest]; simpl; eauto. Qed.

(** The supervisor parks at a point that refers to the dictionary it
    already held. *)
Lemma fits_start_round chat l idx probs sent w t :
  t ∈ tasks w → task_ref t = Some (chat, l) →
  fits (start_round chat l idx probs sent w).2 (start_round chat l idx probs sent w).1.
Proof.
  intros Ht Href. destruct (start_round_next chat l idx probs sent w) as [->|[rest ->]].
  - by apply fits_other.
  - split; [|done]. intros c l' [= <- <-]. right. exists t.
    by rewrite start_round_tasks.
Qed.

Lemma fits_park w t t' :
  t ∈ tasks w → task_ref t' = task_ref t →
  (∀ chat user l h i, t' ≠ TClaim chat user l h i) → fits w t'.
Proof.
  intros Ht Href Hno. split.
  - intros chat l H. right. exists t. by rewrite <- Href.
  - intros chat user l h i ->. by destruct (Hno chat user l h i).
Qed.

Lemma wf_start l w : wf w → wf (upd_battle l (set_status running) w).
Proof. eauto with bot. Qed.

Lemma claim_verify_wf chat user l handle round_idx subs w :
  is_Some (users w !! (chat, user)) →
  wf w → wf (claim_verify chat user l handle round_idx subs w).2.
Proof.
  intros Hu Hw. unfold claim_verify. destruct subs as [|s subs]; [done|].
  destruct (heap w !! l) as [b|]; [|done].
  destruct (current_problem b) as [cp|]; [|done].
  destruct (existsb (sub_matches cp) (s :: subs)); simpl; [|done].
  apply wf_upd; [auto with bot|].
  apply wf_add_points; [apply rating_to_points_range | done | auto with bot].
Qed.

Lemma claim_verify_tasks chat user l handle round_idx subs w :
  tasks (claim_verify chat user l handle round_idx subs w).2 = tasks w.
Proof.
  unfold claim_verify. destruct subs as [|s subs]; [done|].
  destruct (heap w !! l) as [b|]; [|done].
  destruct (current_problem b) as [cp|]; [|done].
  by destruct (existsb (sub_matches cp) (s :: subs)).
Qed.

Lemma finished_button_tail_wf chat round_idx res w :
  wf w → wf (finished_button_tail chat round_idx res w).
Proof.
  intros Hw. unfold finished_button_tail. destruct res; eauto with bot.
  destruct (get_battle chat _); eauto with bot.
Qed.

Lemma step_task_wf t inp w :
  t ∈ tasks w → wf w →
  wf (step_task t inp w).2 ∧ fits (step_task t inp w).2 (step_task t inp w).1.
Proof.
  intros Ht Hw. destruct t as [chat k|chat|chat l|chat l idx rest|chat l idx rest
                               |chat user l handle round_idx|]; simpl.
  - destruct (decide (k < 6)%nat) as [Hk|Hk].
    + unfold countdown_tick. destruct (get_battle chat w) as [[l b]|];
        [|split; [done | by apply fits_other]].
      destruct (decide (status b = joining)); simpl;
        (split; [eauto with bot | by apply fits_other]).
    + unfold countdown_elapsed. destruct (get_battle chat w) as [[l b]|] eqn:Hb;
        [|split; [done | by apply fits_other]].
      destruct (Z.ltb_spec (Z.of_nat (size (participants b))) 2); simpl.
      * split; [eauto with bot | by apply fits_other].
      * split; [|by apply fits_other]. apply wf_spawn; [by apply fits_other|].
        eauto with bot.
  - destruct (get_battle chat w) as [[l b]|] eqn:Hb; simpl;
      [|split; [done | by apply fits_other]].
    split; [done|]. split; [|done].
    intros c l' [= <- <-]. left. by apply get_battle_Some in Hb as [? _].
  - unfold run_selected. destruct (heap w !! l) as [b|];
      [|split; [done | by apply fits_other]].
    destruct (_ || _); simpl.
    + split; [eauto 10 with bot | by apply fits_other].
    + split; [apply start_round_wf; eauto 10 with bot|].
      eapply fits_start_round; [exact Ht | reflexivity].
  - unfold run_poll. destruct (heap w !! l) as [b|];
      [|split; [done | by apply fits_other]].
    destruct (_ || _); simpl;
      [|split; [done | eapply fits_park; [exact Ht|done|done]]].
    destruct (decide (status b = cancelled)); simpl.
    { split; [eauto with bot | by apply fits_other]. }
    destruct (decide (idx < length (selected_problems b))%nat) as [Hidx|Hidx]; simpl.
    { split; [eauto with bot | eapply fits_park; [exact Ht|done|done]]. }
    split; [apply start_round_wf; eauto 10 with bot|].
    eapply fits_start_round; [exact Ht | reflexivity].
  - unfold run_next. destruct (heap w !! l) as [b|];
      [|split; [done | by apply fits_other]].
    split; [apply start_round_wf; eauto 10 with bot|].
    eapply fits_start_round; [exact Ht | reflexivity].
  - assert (is_Some (users w !! (chat, user))) as Hu by (destruct Hw; eauto).
    pose proof (claim_verify_wf chat user l handle round_idx (in_subs inp) w Hu Hw) as Hv.
    destruct (claim_verify chat user l handle round_idx (in_subs inp) w) as [res w1].
    simpl in *. split; [by apply finished_button_tail_wf | by apply fits_other].
  - split; [done | by apply fits_other].
Qed.

Lemma resume_wf tid inp w : wf w → wf (resume tid inp w).
Proof.
  intros Hw. unfold resume. destruct (tasks w !! tid) as [t|] eqn:Ht; [|done].
  destruct (step_task_wf t inp w) as [H1 H2]; [by eapply list_elem_of_lookup_2|done|].
  destruct (step_task t inp w) as [t' w1]. simpl in *. by apply wf_set_task.
Qed.

Lemma wf_create chat user u num ratings w :
  ACTIVE_BATTLES w !! chat = None → users w !! (chat, user) = Some u →
  wf w →
  wf (set_active (insert chat (length (heap w)))
        (set_heap (λ h, h ++ [new_battle user (u_handle u) num ratings]) w)).
Proof.
  intros Hfree Hu Hw. set (w' := set_active _ _).
  assert (∀ c l, refs w' c l → refs w c l ∨ (c = chat ∧ l = length (heap w))) as Hrefs.
  { intros c l [H|H]; [|left; by right]. simpl in H.
    apply lookup_insert_Some in H as [[<- <-]|[_ H]]; [by right | left; by left]. }
  assert (∀ l b, heap w' !! l = Some b →
          heap w !! l = Some b
          ∨ (l = length (heap w) ∧ b = new_battle user (u_handle u) num ratings)) as Hheap.
  { intros l b. simpl. intros H.
    apply lookup_app_Some in H as [H|[Hlen H]]; [by left|right].
    apply list_lookup_singleton_Some in H as [H <-]. split; [lia|done]. }
  destruct Hw. split.
  - intros c l H. simpl. rewrite length_app. simpl.
    apply Hrefs in H as [H|[_ ->]]; [apply wf_bound0 in H|]; lia.
  - intros c c' l H H'. apply Hrefs in H as [H|[-> ->]], H' as [H'|[-> Hl]]; eauto.
    + subst l. apply wf_bound0 in H. lia.
    + apply wf_bound0 in H'. lia.
  - intros c l b x Ho Hb Hx. simpl.
    apply Hrefs in Ho as [Ho|[-> ->]]; apply Hheap in Hb as [Hb|[Hl ->]]; eauto.
    + subst l. apply wf_bound0 in Ho. lia.
    + apply lookup_lt_Some in Hb. lia.
    + simpl in Hx. destruct Hx as [h Hx].
      apply lookup_singleton_Some in Hx as [<- _]. by eexists.
  - done.
  - done.
  - done.
  - intros c l b H Hb. simpl in H.
    apply Hheap in Hb as [Hb|[-> ->]]; [|done].
    apply lookup_insert_Some in H as [[<- <-]|[_ H]]; [|eauto].
    apply lookup_lt_Some in Hb. lia.
  - intros l b Hb. apply Hheap in Hb as [Hb|[-> ->]]; [eauto|].
    simpl. by rewrite lookup_singleton_eq.
Qed.

Lemma wf_join chat user handle l w :
  ACTIVE_BATTLES w !! chat = Some l → is_Some (users w !! (chat, user)) →
  wf w → wf (upd_battle l (set_participants (insert user handle)) w).
Proof.
  intros Hact Hu [].
  assert (∀ l' b', heap (upd_battle l (set_participants (insert user handle)) w) !! l'
                   = Some b' →
          ∃ b, heap w !! l' = Some b ∧ creator b' = creator b ∧ status b' = status b
               ∧ (participants b' = participants b
                  ∨ (l' = l ∧ participants b' = <[user := handle]> (participants b))))
    as Hheap.
  { intros l' b'. simpl. destruct (decide (l = l')) as [->|Hne].
    - rewrite list_lookup_alter_eq. destruct (heap w !! l') as [b|]; [|done].
      intros [= <-]. exists b. split_and!; [done..|]. by right.
    - rewrite list_lookup_alter_ne by done. intros Hb. exists b'. split_and!; [done..|].
      by left. }
  split; simpl; try done.
  - intros c l' H. rewrite length_alter. eauto.
  - intros c l' b' x Ho Hb' Hx.
    apply Hheap in Hb' as (b & Hb & _ & _ & [Hp|[-> Hp]]); rewrite Hp in Hx; [eauto|].
    destruct (decide (x = user)) as [->|Hne].
    + assert (c = chat) as -> by (eapply wf_home0; [exact Ho | by left]). done.
    + rewrite lookup_insert_ne in Hx by done. eauto.
  - intros c l' b' Ha Hb'. apply Hheap in Hb' as (b & Hb & _ & -> & _). eauto.
  - intros l' b' Hb'.
    apply Hheap in Hb' as (b & Hb & -> & _ & [Hp|[-> Hp]]); rewrite Hp; [eauto|].
    destruct (decide (creator b = user)) as [->|Hne].
    + by rewrite lookup_insert_eq.
    + rewrite lookup_insert_ne by done. eauto.
Qed.

Lemma wf_cancel chat l w :
  ACTIVE_BATTLES w !! chat = Some l → wf w →
  wf (set_active (delete chat)
        (upd_battle l (λ b, set_round_finished true (set_status cancelled b)) w)).
Proof.
  intros Hact [].
  set (f := λ b, set_round_finished true (set_status cancelled b)).
  assert (∀ c l', refs (set_active (delete chat) (upd_battle l f w)) c l' → refs w c l')
    as Hrefs.
  { intros c l' [H|H]; [|by right]. simpl in H.
    apply lookup_delete_Some in H as [_ H]. by left. }
  assert (∀ l' b', heap (upd_battle l f w) !! l' = Some b' →
          ∃ b, heap w !! l' = Some b ∧ creator b' = creator b
               ∧ participants b' = participants b
               ∧ (l' ≠ l → status b' = status b)) as Hheap.
  { intros l' b'. simpl. destruct (decide (l = l')) as [->|Hne].
    - rewrite list_lookup_alter_eq. destruct (heap w !! l') as [b|]; [|done].
      intros [= <-]. exists b. by split_and!.
    - rewrite list_lookup_alter_ne by done. intros Hb. exists b'. by split_and!. }
  split; simpl; try done.
  - intros c l' H. rewrite length_alter. eauto.
  - eauto.
  - intros c l' b' x Ho Hb' Hx. apply Hheap in Hb' as (b & Hb & _ & Hp & _).
    rewrite Hp in Hx. eauto.
  - intros c l' b' Ha Hb'. apply lookup_delete_Some in Ha as [Hc Ha].
    apply Hheap in Hb' as (b & Hb & _ & _ & Hs).
    rewrite Hs; [eauto|]. intros ->. apply Hc.
    eapply wf_home0; left; eassumption.
  - intros l' b' Hb'. apply Hheap in Hb' as (b & Hb & -> & -> & _). eauto.
Qed.

Lemma exec_wf py_int e w : wf w → wf (exec py_int e w).
Proof.
  intros Hw. destruct e as [chat user full args info|chat user args|chat user
                            |chat user round_idx|chat user prompt_id|chat user
                            |chat from_user|chat from_user|tid inp]; simpl.
  - unfold cmd_sethandle. destruct args; [eauto with bot|].
    destruct info; eauto with bot.
  - unfold cmd_createbattle. destruct (ACTIVE_BATTLES w !! chat) eqn:Hfree; [eauto with bot|].
    destruct (get_user chat user w) as [u|] eqn:Hu; [|eauto with bot].
    destruct (parse_create_args py_int args) as [e|[num ratings]] eqn:Hargs; [eauto with bot|].
    apply wf_spawn; [by apply fits_other|]. apply wf_emit. by apply wf_create.
  - unfold handle_ready_callback.
    destruct (get_battle chat w) as [[l b]|] eqn:Hb; [|eauto with bot].
    destruct (decide (status b = joining)); [|eauto with bot].
    destruct (get_user chat user w) as [u|] eqn:Hu; [|eauto with bot].
    destruct (participants b !! user) eqn:Hp; [eauto with bot|].
    apply wf_emit. apply get_battle_Some in Hb as [Hl Hb].
    apply wf_join with chat; [done | by eexists | done].
  - unfold finished_pressed. destruct (claim_check chat user w) as [why|[l handle]] eqn:Hc.
    + by apply finished_button_tail_wf.
    + apply claim_check_inr in Hc as (b & Hb & Hu & _).
      apply get_battle_Some in Hb as [Hl Hb].
      apply wf_spawn; [|done]. split.
      * intros c l' [= <- <-]. by left.
      * intros c u' l' h i [= <- <- <- <- <-]. destruct Hw.
        eapply wf_members0; [left; exact Hl | exact Hb | by eexists].
  - unfold cmd_cancelbattle. destruct (get_battle chat w) as [[l b]|]; [|eauto with bot].
    destruct (decide (creator b = user)); eauto with bot.
  - unfold cmd_cancelround. destruct (get_battle chat w) as [[l b]|]; [|eauto with bot].
    destruct (decide (creator b = user)); [|eauto with bot].
    destruct (decide (status b = running)); [|eauto with bot].
    destruct (decide (round b = 0%nat)); [eauto with bot|].
    apply wf_emit. apply wf_upd; [|done]. intros b'. done.
  - unfold handle_confirm_cancel.
    destruct (get_battle chat w) as [[l b]|] eqn:Hb; [|eauto with bot].
    apply get_battle_Some in Hb as [Hl Hb].
    apply wf_emit. apply (wf_set_pending (delete chat)). by apply wf_cancel.
  - unfold handle_no_cancel. eauto with bot.
  - by apply resume_wf.
Qed.

Lemma reachable_wf py_int w : reachable py_int w → wf w.
Proof.
  intros [evs ->]. induction evs as [|e evs IH] using rev_ind; [apply wf_init|].
  rewrite run_snoc. by apply exec_wf.
Qed.

(** ** What a handler may change *)

Lemma status_le_refl s : status_le s s.
Proof. by left. Qed.

Lemma status_le_trans s1 s2 s3 : status_le s1 s2 → status_le s2 s3 → status_le s1 s3.
Proof.
  unfold status_le. destruct s1, s2, s3; intros [H1 | [H1 | H1]] [H2 | [H2 | H2]];
    auto; discriminate.
Qed.

Lemma evolves_refl b : evolves b b.
Proof. split; try done. apply status_le_refl. Qed.

Lemma evolves_trans b1 b2 b3 : evolves b1 b2 → evolves b2 b3 → evolves b1 b3.
Proof.
  intros [] []. split; try congruence.
  - by etrans.
  - by eapply status_le_trans.
Qed.

Lemma minor_set_round v : minor (set_round v).
Proof. intros b. split; try done. apply status_le_refl. Qed.
Lemma minor_set_round_winner v : minor (set_round_winner v).
Proof. intros b. split; try done. apply status_le_refl. Qed.
Lemma minor_set_round_finished v : minor (set_round_finished v).
Proof. intros b. split; try done. apply status_le_refl. Qed.
Lemma minor_set_current_problem v : minor (set_current_problem v).
Proof. intros b. split; try done. apply status_le_refl. Qed.
Lemma minor_set_selected_problems v : minor (set_selected_problems v).
Proof. intros b. split; try done. apply status_le_refl. Qed.
Lemma minor_set_cancelled : minor (set_status cancelled).
Proof. intros b. split; try done. right. by right. Qed.
Lemma minor_compose f g : minor f → minor g → minor (λ b, f (g b)).
Proof. intros Hf Hg b. eapply evolves_trans; [apply Hg | apply Hf]. Qed.
Lemma minor_join user handle b :
  participants b !! user = None → evolves b (set_participants (insert user handle) b).
Proof.
  intros Hu. split; try done; [|apply status_le_refl]. simpl. by apply insert_subseteq.
Qed.
Lemma minor_start b : status b ≠ cancelled → evolves b (set_status running b).
Proof.
  intros Hs. split; try done. simpl. destruct (status b); [by right; left|by left|done].
Qed.

Create HintDb frame.
#[local] Hint Resolve minor_set_round minor_set_round_winner minor_set_round_finished
  minor_set_current_problem minor_set_selected_problems minor_set_cancelled
  minor_compose : frame.

Lemma row_le_refl r : row_le r r.
Proof. unfold row_le. lia. Qed.

Lemma row_le_trans r1 r2 r3 : row_le r1 r2 → row_le r2 r3 → row_le r1 r3.
Proof. unfold row_le. lia. Qed.

Lemma changes_refl c L w : changes c L w w.
Proof. split; eauto using evolves_refl, row_le_refl. Qed.

Lemma acc_emit c L o w0 w : changes c L w0 w → changes c L w0 (emit o w).
Proof. intros []. by split. Qed.

Lemma acc_pending_insert c L v w0 w :
  changes c L w0 w → changes c L w0 (set_pending (insert c v) w).
Proof.
  intros []. split; try done. intros c' Hc. simpl.
  rewrite lookup_insert_ne by done. auto.
Qed.

Lemma acc_pending_delete c L w0 w :
  changes c L w0 w → changes c L w0 (set_pending (delete c) w).
Proof.
  intros []. split; try done. intros c' Hc. simpl.
  rewrite lookup_delete_ne by done. auto.
Qed.

Lemma acc_delete c L w0 w : changes c L w0 w → changes c L w0 (set_active (delete c) w).
Proof.
  intros []. split; try done. intros c' Hc. simpl.
  rewrite lookup_delete_ne by done. auto.
Qed.

Lemma acc_register c L l w0 w :
  changes c L w0 w → changes c L w0 (set_active (insert c l) w).
Proof.
  intros []. split; try done. intros c' Hc. simpl.
  rewrite lookup_insert_ne by done. auto.
Qed.

Lemma acc_new c L b w0 w : changes c L w0 w → changes c L w0 (set_heap (λ h, h ++ [b]) w).
Proof.
  intros []. split; try done. intros l b0 Hb0. simpl.
  destruct (ch_heap0 l b0 Hb0) as (b1 & Hb1 & Hev & Hsame).
  exists b1. split_and!; [|done..]. by apply lookup_app_l_Some.
Qed.

Lemma acc_upd_at c (L : nat → Prop) l f w0 w :
  L l → (∀ b, heap w !! l = Some b → evolves b (f b)) →
  changes c L w0 w → changes c L w0 (upd_battle l f w).
Proof.
  intros Hl Hf []. split; try done. intros l0 b0 Hb0. simpl.
  destruct (ch_heap0 l0 b0 Hb0) as (b1 & Hb1 & Hev & Hsame).
  destruct (decide (l = l0)) as [->|Hne].
  - exists (f b1). rewrite list_lookup_alter_eq, Hb1. split_and!; [done| |done].
    eapply evolves_trans; [exact Hev | by apply Hf].
  - exists b1. by rewrite list_lookup_alter_ne.
Qed.

Lemma acc_upd c (L : nat → Prop) l f w0 w :
  L l → minor f → changes c L w0 w → changes c L w0 (upd_battle l f w).
Proof. intros Hl Hf. apply acc_upd_at; [done|]. intros b _. apply Hf. Qed.

Lemma acc_spawn c L t w0 w : changes c L w0 w → changes c L w0 (spawn t w).
Proof.
  intros []. split; try done. intros tid t0 Ht0 Hc. simpl.
  apply lookup_app_l_Some. eauto.
Qed.

Lemma acc_upsert_user c L user full handle rating w0 w :
  changes c L w0 w → changes c L w0 (upsert_user c user full handle rating w).
Proof.
  intros []. split; try done.
  - intros c' u Hc. simpl. rewrite lookup_insert_ne by congruence. auto.
  - intros c' u Hc. simpl. rewrite <- ch_points0 by done. unfold insert_or_ignore.
    destruct (points w !! (c, user)); [done|]. rewrite lookup_insert_ne; [done|congruence].
  - intros k Hk. simpl. destruct (decide ((c, user) = k)) as [<-|Hne].
    + by rewrite lookup_insert_eq.
    + rewrite lookup_insert_ne by done. auto.
  - intros k r Hr. simpl. destruct (ch_rows0 k r Hr) as (r' & Hr' & Hle).
    exists r'. split; [|done]. unfold insert_or_ignore.
    destruct (points w !! (c, user)) eqn:Hp; [done|].
    rewrite lookup_insert_ne; [done|congruence].
Qed.

Lemma acc_add_points c L user delta first w0 w :
  0 ≤ delta → changes c L w0 w → changes c L w0 (add_points c user delta first w).
Proof.
  intros Hdelta []. split; try done.
  - intros c' u Hc. simpl.
    rewrite lookup_alter_ne by congruence. rewrite <- ch_points0 by done.
    unfold insert_or_ignore.
    destruct (points w !! (c, user)); [done|]. rewrite lookup_insert_ne; [done|congruence].
  - intros k r Hr. simpl. destruct (ch_rows0 k r Hr) as (r' & Hr' & Hle).
    assert (insert_or_ignore (c, user) (points w) !! k = Some r') as Hk.
    { unfold insert_or_ignore. destruct (points w !! (c, user)) eqn:Hp; [done|].
      rewrite lookup_insert_ne; [done|congruence]. }
    destruct (decide ((c, user) = k)) as [<-|Hne].
    + rewrite lookup_alter_eq, Hk. simpl. eexists. split; [done|].
      eapply row_le_trans; [exact Hle|]. unfold row_le. destruct first; simpl; lia.
    + rewrite lookup_alter_ne by done. eauto.
Qed.

Lemma acc_increment_battles c L (ids : list Z) w0 w :
  changes c L w0 w → changes c L w0 (increment_battles c ids w).
Proof.
  intros []. split; try done.
  - intros c' u Hc. simpl. rewrite <- ch_points0 by done.
    generalize (points w). induction ids as [|u0 ids IH]; intros tbl; simpl; [done|].
    rewrite IH. rewrite lookup_alter_ne; [done|congruence].
  - intros k r Hr. simpl. destruct (ch_rows0 k r Hr) as (r' & Hr' & Hle).
    revert r' Hr' Hle. generalize (points w).
    induction ids as [|u0 ids IH]; intros tbl r' Hr' Hle; simpl; [eauto|].
    destruct (decide ((c, u0) = k)) as [<-|Hne].
    + apply (IH _ (bump_battles r')); [by rewrite lookup_alter_eq, Hr'|].
      eapply row_le_trans; [exact Hle|]. unfold row_le. simpl. lia.
    + apply (IH _ r'); [by rewrite lookup_alter_ne|done].
Qed.
#[local] Hint Resolve changes_refl acc_emit acc_pending_insert acc_pending_delete acc_delete
  acc_register acc_new acc_upd acc_spawn acc_upsert_user
  acc_increment_battles : frame.

Lemma acc_post_round c (L : nat → Prop) idx prob sent w0 w :
  (∀ l, ACTIVE_BATTLES w !! c = Some l → L l) →
  changes c L w0 w → changes c L w0 (post_round c idx prob sent w).
Proof.
  intros Hcov Hw. unfold post_round.
  destruct (get_battle c w) as [[l b]|] eqn:Hb; [|done].
  apply get_battle_Some in Hb as [Hl _]. destruct sent; [|done].
  apply acc_upd; auto with frame.
Qed.

Lemma acc_finalize_battle c L w0 w :
  changes c L w0 w → changes c L w0 (finalize_battle c w).
Proof.
  intros Hw. unfold finalize_battle.
  destruct (get_battle c w) as [[l b]|]; auto with frame.
Qed.

Lemma acc_start_round c (L : nat → Prop) l idx probs sent w0 w :
  L l → (∀ l', ACTIVE_BATTLES w !! c = Some l' → L l') →
  changes c L w0 w → changes c L w0 (start_round c l idx probs sent w).2.
Proof.
  intros Hl Hcov Hw. unfold start_round. destruct probs as [|prob rest]; simpl.
  - by apply acc_finalize_battle.
  - apply acc_post_round; [exact Hcov|]. apply acc_upd; auto with frame.
Qed.

Lemma acc_claim_verify c (L : nat → Prop) user l handle round_idx subs w0 w :
  L l → changes c L w0 w →
  changes c L w0 (claim_verify c user l handle round_idx subs w).2.
Proof.
  intros Hl Hw. unfold claim_verify. destruct subs as [|s subs]; [done|].
  destruct (heap w !! l) as [b|]; [|done].
  destruct (current_problem b) as [cp|]; [|done].
  destruct (existsb (sub_matches cp) (s :: subs)); simpl; [|done].
  apply acc_upd; [done | auto with frame|].
  apply acc_add_points; [apply rating_to_points_range | auto with frame].
Qed.

Lemma acc_finished_button_tail c L round_idx res w0 w :
  changes c L w0 w → changes c L w0 (finished_button_tail c round_idx res w).
Proof.
  intros Hw. unfold finished_button_tail. destruct res; auto with frame.
  destruct (get_battle c _); auto with frame.
Qed.

Lemma refs_active w c l : ACTIVE_BATTLES w !! c = Some l → refs w c l.
Proof. by left. Qed.

Lemma refs_task w t c l : t ∈ tasks w → task_ref t = Some (c, l) → refs w c l.
Proof. intros Ht Href. right. eauto. Qed.

Lemma step_task_changes t inp w c :
  wf w → t ∈ tasks w → task_chat t = Some c →
  changes c (refs w c) w (step_task t inp w).2.
Proof.
  intros Hw Ht Hc.
  pose proof (refs_active w c) as Hcov.
  destruct t as [chat k|chat|chat l|chat l idx rest|chat l idx rest
                 |chat user l handle round_idx|]; simpl in *; try injection Hc as ->.
  - destruct (decide (k < 6)%nat) as [Hk|Hk].
    + unfold countdown_tick. destruct (get_battle c w) as [[l b]|]; [|auto with frame].
      destruct (decide (status b = joining)); simpl; auto with frame.
    + unfold countdown_elapsed. destruct (get_battle c w) as [[l b]|] eqn:Hb;
        [|auto with frame].
      apply get_battle_Some in Hb as [Hl Hb].
      destruct (Z.ltb_spec (Z.of_nat (size (participants b))) 2); simpl;
        [auto with frame|].
      apply acc_spawn. apply acc_upd_at; [auto | | auto with frame].
      intros b' Hb'. apply minor_start. destruct Hw. eauto.
  - destruct (get_battle c w) as [[l b]|]; simpl; auto with frame.
  - assert (refs w c l) as Hl by (by eapply refs_task).
    unfold run_selected. destruct (heap w !! l) as [b|]; [|auto with frame].
    destruct (_ || _); simpl; [auto 10 with frame|].
    apply acc_start_round; [done | exact Hcov | auto 10 with frame].
  - assert (refs w c l) as Hl by (by eapply refs_task).
    unfold run_poll. destruct (heap w !! l) as [b|]; [|auto with frame].
    destruct (_ || _); simpl; [|auto with frame].
    destruct (decide (status b = cancelled)); simpl; [auto with frame|].
    destruct (decide (idx < length (selected_problems b))%nat) as [Hidx|Hidx]; simpl;
      [auto with frame|].
    apply acc_start_round; [done | exact Hcov | auto 10 with frame].
  - assert (refs w c l) as Hl by (by eapply refs_task).
    unfold run_next. destruct (heap w !! l) as [b|]; [|auto with frame].
    apply acc_start_round; [done | exact Hcov | auto 10 with frame].
  - assert (refs w c l) as Hl by (by eapply refs_task).
    pose proof (acc_claim_verify c (refs w c) user l handle round_idx (in_subs inp) w w
                  Hl (changes_refl _ _ _)) as Hv.
    destruct (claim_verify c user l handle round_idx (in_subs inp) w) as [res w1].
    simpl in *. by apply acc_finished_button_tail.
  - done.
Qed.

Lemma step_task_chat t inp w c :
  task_chat t = Some c →
  task_chat (step_task t inp w).1 = Some c ∨ (step_task t inp w).1 = TDone.
Proof.
  intros Hc.
  destruct t as [chat k|chat|chat l|chat l idx rest|chat l idx rest
                 |chat user l handle round_idx|]; simpl in *; try injection Hc as ->.
  - destruct (decide (k < 6)%nat) as [Hk|Hk].
    + unfold countdown_tick. destruct (get_battle c w) as [[l b]|]; [|auto].
      destruct (decide (status b = joining)); simpl; auto.
    + unfold countdown_elapsed. destruct (get_battle c w) as [[l b]|]; [|auto].
      destruct (_ <? _); auto.
  - destruct (get_battle c w) as [[l b]|]; simpl; auto.
  - unfold run_selected. destruct (heap w !! l) as [b|]; [|auto].
    destruct (_ || _); simpl; [auto|].
    match goal with |- context [start_round ?c ?l ?i ?p ?s ?w'] =>
      destruct (start_round_next c l i p s w') as [->|[r ->]]; auto end.
  - unfold run_poll. destruct (heap w !! l) as [b|]; [|auto].
    destruct (_ || _); simpl; [|auto].
    destruct (decide (status b = cancelled)); simpl; [auto|].
    destruct (decide (idx < length (selected_problems b))%nat) as [Hidx|Hidx]; simpl;
      [auto|].
    match goal with |- context [start_round ?c ?l ?i ?p ?s ?w'] =>
      destruct (start_round_next c l i p s w') as [->|[r ->]]; auto end.
  - unfold run_next. destruct (heap w !! l) as [b|]; [|auto].
    match goal with |- context [start_round ?c ?l ?i ?p ?s ?w'] =>
      destruct (start_round_next c l i p s w') as [->|[r ->]]; auto end.
  - destruct (claim_verify _ _ _ _ _ _ _) as [res w1]. auto.
  - done.
Qed.

Lemma exec_changes py_int e w c :
  wf w → event_chat w e = Some c → changes c (refs w c) w (exec py_int e w).
Proof.
  intros Hw Hc.
  pose proof (refs_active w c) as Hcov.
  destruct e as [chat user full args info|chat user args|chat user
                 |chat user round_idx|chat user prompt_id|chat user
                 |chat from_user|chat from_user|tid inp]; simpl in *;
    try injection Hc as ->.
  - unfold cmd_sethandle. destruct args; [auto with frame|].
    destruct info; auto with frame.
  - unfold cmd_createbattle. destruct (ACTIVE_BATTLES w !! c); [auto with frame|].
    destruct (get_user c user w) as [u|]; [|auto with frame].
    destruct (parse_create_args py_int args) as [e|[num ratings]]; auto 10 with frame.
  - unfold handle_ready_callback.
    destruct (get_battle c w) as [[l b]|] eqn:Hb; [|auto with frame].
    apply get_battle_Some in Hb as [Hl Hb].
    destruct (decide (status b = joining)); [|auto with frame].
    destruct (get_user c user w) as [u|]; [|auto with frame].
    destruct (participants b !! user) eqn:Hp; [auto with frame|].
    apply acc_emit. apply acc_upd_at; [auto| |auto with frame].
    intros b' Hb'. assert (b' = b) as -> by congruence. by apply minor_join.
  - unfold finished_pressed. destruct (claim_check c user w) as [why|[l handle]].
    + by apply acc_finished_button_tail, changes_refl.
    + auto with frame.
  - unfold cmd_cancelbattle. destruct (get_battle c w) as [[l b]|]; [|auto with frame].
    destruct (decide (creator b = user)); auto with frame.
  - unfold cmd_cancelround. destruct (get_battle c w) as [[l b]|] eqn:Hb;
      [|auto with frame].
    apply get_battle_Some in Hb as [Hl Hb].
    destruct (decide (creator b = user)); [|auto with frame].
    destruct (decide (status b = running)); [|auto with frame].
    destruct (decide (round b = 0%nat)); [auto with frame|].
    apply acc_emit. apply acc_upd; auto with frame.
  - unfold handle_confirm_cancel.
    destruct (get_battle c w) as [[l b]|] eqn:Hb; [|auto with frame].
    apply get_battle_Some in Hb as [Hl Hb].
    apply acc_emit, acc_pending_delete, acc_delete. apply acc_upd; auto with frame.
  - unfold handle_no_cancel. auto with frame.
  - unfold resume. destruct (tasks w !! tid) as [t|] eqn:Ht; [|done]. simpl in Hc.
    pose proof (step_task_changes t inp w c Hw (list_elem_of_lookup_2 _ _ _ Ht) Hc) as Hs.
    destruct (step_task t inp w) as [t' w1]. simpl in *.
    destruct Hs. split; try done. intros tid' t0 Ht0 Hc0. simpl.
    rewrite list_lookup_insert_ne; [eauto|]. intros <-. congruence.
Qed.

(** Resuming a coroutine that has finished, or one that does not exist,
    leaves everything but the task list alone. *)
Lemma exec_idle py_int e w :
  event_chat w e = None →
  heap (exec py_int e w) = heap w ∧ ACTIVE_BATTLES (exec py_int e w) = ACTIVE_BATTLES w
  ∧ users (exec py_int e w) = users w ∧ points (exec py_int e w) = points w.
Proof.
  destruct e; try done. simpl. unfold resume.
  destruct (tasks w !! tid) as [t|]; [|done]. by destruct t.
Qed.

(** ** Properties of every reachable world *)

Lemma run_app py_int evs1 evs2 w :
  run py_int (evs1 ++ evs2) w = run py_int evs2 (run py_int evs1 w).
Proof. unfold run. by rewrite foldl_app. Qed.

Lemma reachable_run py_int evs w : reachable py_int w → reachable py_int (run py_int evs w).
Proof. intros [evs0 ->]. exists (evs0 ++ evs). by rewrite run_app. Qed.

(** X8: every row of the points table holds non-negative counts, and its
    points are at most 85 for each first solve it records. *)
Theorem points_rows_bounded py_int w k r :
  reachable py_int w → points w !! k = Some r →
  0 ≤ pts r ≤ 85 * first_solves r ∧ 0 ≤ battles r.
Proof. intros Hw%reachable_wf. destruct Hw. eauto. Qed.

(** X9: [/userstats] answers with statistics exactly for the users who have
    set a handle in the chat, whether or not they ever joined a battle. *)
Theorem userstats_iff_registered py_int w chat user :
  reachable py_int w →
  cmd_userstats chat user w = RNoStats ↔ get_user chat user w = None.
Proof.
  intros Hw%reachable_wf. unfold cmd_userstats, get_user_stats, get_user.
  destruct Hw as [_ _ _ _ Htables _ _ _]. specialize (Htables (chat, user)).
  destruct (points w !! (chat, user)) as [r|], (users w !! (chat, user)) as [u|];
    split; try done.
  - intros _. destruct (proj1 Htables) as [? [=]]. by eexists.
  - intros _. destruct (proj2 Htables) as [? [=]]. by eexists.
Qed.

(** X10: the battle registered for a chat exists, is not cancelled, has its
    creator among the participants, who all have set a handle in that chat,
    has at least two participants once it runs, asks for 1 to 10 problems,
    and is registered for no other chat. *)
Theorem registered_battle_sound py_int w chat l :
  reachable py_int w → ACTIVE_BATTLES w !! chat = Some l →
  ∃ b, get_battle chat w = Some (l, b)
       ∧ status b ≠ cancelled
       ∧ (status b = running → (2 ≤ size (participants b))%nat)
       ∧ 1 ≤ num_problems b ≤ 10
       ∧ is_Some (participants b !! creator b)
       ∧ (∀ u, is_Some (participants b !! u) → is_Some (get_user chat u w))
       ∧ (∀ chat', ACTIVE_BATTLES w !! chat' = Some l → chat' = chat).
Proof.
  intros Hw Hl. pose proof (reachable_inv _ _ Hw) as Hinv.
  apply reachable_wf in Hw as Hwf. destruct Hwf, Hinv.
  destruct (lookup_lt_is_Some_2 (heap w) l) as [b Hb]; [by eapply wf_bound0; left|].
  exists b. split_and!.
  - by apply get_battle_Some.
  - eauto.
  - eauto.
  - eapply inv_count0; eauto.
  - eapply inv_count0; eauto.
  - eauto.
  - intros u Hu. eapply wf_members0; [left; exact Hl | exact Hb | exact Hu].
  - intros chat' Hl'. eapply wf_home0; left; eauto.
Qed.

(** X11: an event that addresses chat [c] leaves every other chat as it
    was: its registered battle and that battle's dictionary, its pending
    cancel prompt, its rows in both tables and its coroutines. *)
Theorem other_chats_untouched py_int w e c c' :
  reachable py_int w → event_chat w e = Some c → c' ≠ c →
  let w' := exec py_int e w in
  get_battle c' w' = get_battle c' w
  ∧ PENDING_CANCELS w' !! c' = PENDING_CANCELS w !! c'
  ∧ (∀ u, get_user c' u w' = get_user c' u w
          ∧ get_user_stats c' u w' = get_user_stats c' u w)
  ∧ (∀ tid t, tasks w !! tid = Some t → task_chat t = Some c' →
              tasks w' !! tid = Some t).
Proof.
  intros Hw%reachable_wf He Hc w'.
  destruct (exec_changes py_int e w c Hw He) as [Hheap Hact Hpend Hus Hpt _ _ Htasks].
  fold w' in Hheap, Hact, Hpend, Hus, Hpt, Htasks.
  split_and!.
  - unfold get_battle. rewrite Hact by done.
    destruct (ACTIVE_BATTLES w !! c') as [l|] eqn:Hl; [|done]. simpl.
    destruct Hw.
    destruct (lookup_lt_is_Some_2 (heap w) l) as [b Hb]; [by eapply wf_bound0; left|].
    destruct (Hheap l b Hb) as (b' & Hb' & _ & Hsame).
    rewrite Hb', Hb, Hsame; [done|].
    intros Href. apply Hc. eapply wf_home0; [left; exact Hl | exact Href].
  - by apply Hpend.
  - intros u. split; [by apply Hus | by apply Hpt].
  - intros tid t Ht Hchat. apply Htasks; [done|]. rewrite Hchat. congruence.
Qed.

Lemma exec_later py_int e w :
  wf w →
  (∀ l b, heap w !! l = Some b → ∃ b', heap (exec py_int e w) !! l = Some b' ∧ evolves b b')
  ∧ (∀ k, is_Some (users w !! k) → is_Some (users (exec py_int e w) !! k))
  ∧ (∀ k r, points w !! k = Some r →
            ∃ r', points (exec py_int e w) !! k = Some r' ∧ row_le r r').
Proof.
  intros Hw. destruct (event_chat w e) as [c|] eqn:He.
  - destruct (exec_changes py_int e w c Hw He) as [Hheap _ _ _ _ Hus Hrows _].
    split_and!; [|done..].
    intros l b Hb. destruct (Hheap l b Hb) as (b' & Hb' & Hev & _). eauto.
  - destruct (exec_idle py_int e w He) as (-> & _ & -> & ->).
    split_and!; eauto using evolves_refl, row_le_refl.
Qed.

Lemma run_later py_int evs w :
  wf w →
  wf (run py_int evs w)
  ∧ (∀ l b, heap w !! l = Some b →
            ∃ b', heap (run py_int evs w) !! l = Some b' ∧ evolves b b')
  ∧ (∀ k, is_Some (users w !! k) → is_Some (users (run py_int evs w) !! k))
  ∧ (∀ k r, points w !! k = Some r →
            ∃ r', points (run py_int evs w) !! k = Some r' ∧ row_le r r').
Proof.
  intros Hw. induction evs as [|e evs IH] using rev_ind.
  - split_and!; eauto using evolves_refl, row_le_refl.
  - rewrite run_snoc. destruct IH as (Hwf & Hheap & Hus & Hrows).
    destruct (exec_later py_int e _ Hwf) as (Hheap' & Hus' & Hrows').
    split_and!.
    + by apply exec_wf.
    + intros l b Hb. destruct (Hheap l b Hb) as (b1 & Hb1 & Hev1).
      destruct (Hheap' l b1 Hb1) as (b2 & Hb2 & Hev2).
      exists b2. split; [done|]. by eapply evolves_trans.
    + auto.
    + intros k r Hr. destruct (Hrows k r Hr) as (r1 & Hr1 & Hle1).
      destruct (Hrows' k r1 Hr1) as (r2 & Hr2 & Hle2).
      exists r2. split; [done|]. by eapply row_le_trans.
Qed.

(** X12: whatever happens later, a battle dictionary keeps its creator,
    problem count and ratings; participants are only added and keep their
    handle; the status never goes back: a battle that left the joining phase
    does not return to it and a cancelled battle stays cancelled. *)
Theorem battle_fields_persist py_int w evs l b :
  reachable py_int w → heap w !! l = Some b →
  ∃ b', heap (run py_int evs w) !! l = Some b'
        ∧ creator b' = creator b ∧ creator_handle b' = creator_handle b
        ∧ num_problems b' = num_problems b ∧ ratings b' = ratings b
        ∧ (∀ u h, participants b !! u = Some h → participants b' !! u = Some h)
        ∧ (status b ≠ joining → status b' ≠ joining)
        ∧ (status b = cancelled → status b' = cancelled).
Proof.
  intros Hw%reachable_wf Hb.
  destruct (run_later py_int evs w Hw) as (_ & Hheap & _).
  destruct (Hheap l b Hb) as (b' & Hb' & [Hc Hh Hn Hr Hp Hs]).
  exists b'. split_and!; try done.
  - intros u h Hu. by eapply lookup_weaken.
  - intros Hj Hj'. destruct Hs as [Hs|[Hs|Hs]]; congruence.
  - intros Hcan. destruct Hs as [Hs|[Hs|Hs]]; congruence.
Qed.

(** X13: a registration is never removed, and a row of the points table
    never disappears nor loses points, battles or first solves; setting the
    handle again keeps what the row holds. *)
Theorem rows_never_shrink py_int w evs chat user :
  reachable py_int w →
  let w' := run py_int evs w in
  (is_Some (get_user chat user w) → is_Some (get_user chat user w'))
  ∧ (∀ r, get_user_stats chat user w = Some r →
          ∃ r', get_user_stats chat user w' = Some r'
                ∧ pts r ≤ pts r' ∧ battles r ≤ battles r'
                ∧ first_solves r ≤ first_solves r').
Proof.
  intros Hw%reachable_wf w'.
  destruct (run_later py_int evs w Hw) as (_ & _ & Hus & Hrows).
  split; [apply Hus|]. intros r Hr. apply Hrows in Hr as (r' & Hr' & Hle). eauto.
Qed.

(** ** Skipping a round *)

(** X14: when the creator skips the current round of a running battle, the
    supervisor waiting for that round leaves it at its next poll without
    any change to the points table: the round has no winner, the
    finished flag is cleared again, and the supervisor either pauses before
    the next round, or (after the last selected problem) goes straight on to
    the remaining problem or finishes the battle. *)
Theorem skipped_round_moves_on py_int w chat user l b tid idx rest inp :
  get_battle chat w = Some (l, b) → creator b = user → status b = running →
  round b ≠ 0%nat → tasks w !! tid = Some (TRunWait chat l idx rest) →
  let w' := run py_int [EvCancelRound chat user; EvResume tid inp] w in
  points w' = points w
  ∧ (∃ b', heap w' !! l = Some b' ∧ round_winner b' = None
           ∧ round_finished b' = false ∧ status b' = running)
  ∧ (if decide (idx < length (selected_problems b))%nat
     then tasks w' !! tid = Some (TRunDelay chat l idx rest)
     else match rest with
          | [] => tasks w' !! tid = Some TDone ∧ ACTIVE_BATTLES w' !! chat = None
          | _ :: rest' => tasks w' !! tid = Some (TRunWait chat l (S idx) rest')
          end).
Proof.
  intros Hget Hcreator Hstatus Hround Htask w'.
  apply get_battle_Some in Hget as Hget'. destruct Hget' as [Hl Hb].
  assert (tid < length (tasks w))%nat as Htid by (by eapply lookup_lt_Some).
  assert (l < length (heap w))%nat as Hlen by (by eapply lookup_lt_Some).
  set (b1 := set_round_winner None (set_round_finished true b)).
  set (w1 := emit (OReply chat (RRoundCancelled (round b)))
               (upd_battle l (λ b, set_round_winner None (set_round_finished true b)) w)).
  assert (exec py_int (EvCancelRound chat user) w = w1) as Hskip.
  { simpl. unfold cmd_cancelround. rewrite Hget.
    rewrite !decide_True by done. by rewrite decide_False. }
  assert (heap w1 !! l = Some b1) as Hb1.
  { simpl. by rewrite list_lookup_alter_eq, Hb. }
  subst w'.
  change (run py_int [EvCancelRound chat user; EvResume tid inp] w)
    with (resume tid inp (exec py_int (EvCancelRound chat user) w)).
  rewrite Hskip.
  unfold resume. change (tasks w1) with (tasks w). rewrite Htask.
  simpl step_task. unfold run_poll. rewrite Hb1.
  change (round_finished b1) with true. cbn [orb].
  change (status b1) with (status b). rewrite Hstatus.
  rewrite decide_False by done.
  change (selected_problems b1) with (selected_problems b).
  set (w2 := upd_battle l (set_round_finished false) w1).
  assert (heap w2 !! l = Some (set_round_finished false b1)) as Hb2.
  { unfold w2. simpl. rewrite !list_lookup_alter_eq, Hb. done. }
  destruct (decide (idx < length (selected_problems b))%nat) as [Hidx|Hidx].
  - simpl. split_and!; [done| |by rewrite list_lookup_insert_eq].
    eexists. split; [exact Hb2|]. by rewrite <- Hstatus.
  - unfold start_round. destruct rest as [|prob rest'].
    + unfold finalize_battle.
      assert (get_battle chat w2 = Some (l, set_round_finished false b1)) as ->
        by (by apply get_battle_Some).
      simpl. split_and!; [done| | |].
      * eexists. split; [rewrite !list_lookup_alter_eq, Hb; done|].
        by rewrite <- Hstatus.
      * by rewrite list_lookup_insert_eq.
      * by rewrite lookup_delete_eq.
    + cbn [fst snd].
      set (b3 := set_round_finished false (set_round_winner None
                   (set_round (S idx) (set_round_finished false b1)))).
      set (w3 := upd_battle l _ w2).
      assert (heap w3 !! l = Some b3) as Hb3.
      { unfold w3. simpl. rewrite !list_lookup_alter_eq, Hb. done. }
      assert (get_battle chat w3 = Some (l, b3)) as Hget3 by (by apply get_battle_Some).
      set (w4 := post_round chat (S idx) prob (in_sent inp) w3).
      assert (tasks w4 = tasks w) as Htasks4
        by (unfold w4; by rewrite post_round_tasks).
      assert (points w4 = points w
              ∧ ∃ b', heap w4 !! l = Some b' ∧ round_winner b' = None
                      ∧ round_finished b' = false ∧ status b' = running) as [Hp4 Hb4].
      { unfold w4, post_round. rewrite Hget3. destruct (in_sent inp).
        - split; [done|]. eexists. split; [simpl; rewrite !list_lookup_alter_eq, Hb; done|].
          by rewrite <- Hstatus.
        - split; [done|]. exists b3. split; [done|]. by rewrite <- Hstatus. }
      split_and!; [exact Hp4 | exact Hb4 |].
      simpl. rewrite Htasks4. by rewrite list_lookup_insert_eq.
Qed.

(** ** Users without a handle *)

(** X15: a user who has not set a handle in a chat cannot create, join,
    claim, skip or ask to cancel there: each of these only produces one
    reply and changes nothing else. *)
Theorem unregistered_user_changes_nothing py_int w chat user e :
  reachable py_int w → get_user chat user w = None → acts_for chat user e →
  ∃ r, exec py_int e w = emit (OReply chat r) w.
Proof.
  intros Hw%reachable_wf Hu He.
  assert (∀ l b, get_battle chat w = Some (l, b) → participants b !! user = None) as Hout.
  { intros l b [Hl Hb]%get_battle_Some.
    destruct (participants b !! user) as [h|] eqn:Hp; [|done].
    destruct Hw. destruct (wf_members0 chat l b user) as [u Hu']; [by left|done|by eexists|].
    unfold get_user in Hu. congruence. }
  assert (∀ l b, get_battle chat w = Some (l, b) → creator b ≠ user) as Hcreator.
  { intros l b Hget Heq. pose proof (Hout l b Hget) as Hp.
    apply get_battle_Some in Hget as [Hl Hb].
    destruct Hw. destruct (wf_creator0 l b Hb) as [h Hh]. congruence. }
  destruct e as [| c u args | c u | c u round_idx | c u prompt_id | c u | | |];
    try done; destruct He as [-> ->]; simpl.
  - unfold cmd_createbattle. destruct (ACTIVE_BATTLES w !! chat); [eauto|].
    rewrite Hu. eauto.
  - unfold handle_ready_callback. destruct (get_battle chat w) as [[l b]|]; [|eauto].
    destruct (decide (status b = joining)); [|eauto]. rewrite Hu. eauto.
  - unfold finished_pressed, claim_check.
    destruct (get_battle chat w) as [[l b]|] eqn:Hget; [|simpl; eauto].
    rewrite (Hout l b eq_refl). simpl. eauto.
  - unfold cmd_cancelbattle. destruct (get_battle chat w) as [[l b]|] eqn:Hget; [|eauto].
    rewrite decide_False by (by apply (Hcreator l b)). eauto.
  - unfold cmd_cancelround. destruct (get_battle chat w) as [[l b]|] eqn:Hget; [|eauto].
    rewrite decide_False by (by apply (Hcreator l b)). eauto.
Qed.

(** ** The problem-set cache *)

(** X16: once the cache holds problems, a failing Codeforces never empties
    it: as long as no successful answer is an empty list, every call returns
    a non-empty list, which is the cache it leaves, however stale. *)
Theorem problemset_cache_kept {T} (expired : T → T → bool) calls (c : Cache T) :
  PROBLEMSET_CACHE c ≠ [] → Forall (λ call, call.2 ≠ Some []) calls →
  Forall (λ res, res ≠ []) (serve expired calls c).1
  ∧ PROBLEMSET_CACHE (serve expired calls c).2 ≠ []
  ∧ last (serve expired calls c).1
    = match calls with
      | [] => None
      | _ :: _ => Some (PROBLEMSET_CACHE (serve expired calls c).2)
      end.
Proof.
  intros Hc Hcalls. revert c Hc.
  induction Hcalls as [|[now reply] calls Hreply Hcalls IH]; intros c Hc; [by split|].
  cbn [serve].
  assert (PROBLEMSET_CACHE (cf_problemset expired now reply c).2 ≠ []
          ∧ (cf_problemset expired now reply c).1
            = PROBLEMSET_CACHE (cf_problemset expired now reply c).2) as [Hc1 Hres].
  { unfold cf_problemset. destruct (_ || _); [|done].
    destruct reply as [problems|]; [|done]. simpl in *. split; [congruence|done]. }
  destruct (cf_problemset expired now reply c) as [res c1]. simpl in Hc1, Hres.
  destruct (IH c1 Hc1) as (Hall & Hlast & Hend).
  destruct (serve expired calls c1) as [ress c2] eqn:Hserve. simpl in *.
  split_and!; [|done|].
  - constructor; [by rewrite Hres | done].
  - destruct calls as [|call calls'].
    + cbn [serve] in Hserve. injection Hserve as <- <-. simpl. by rewrite Hres.
    + destruct ress as [|res' ress']; [done|]. exact Hend.
Qed.

(** ** Decimal literals: [dec_int] reads back what [pretty] prints *)

Lemma digit_of_char (d : N) : (d < 10)%N → digit_of (pretty_N_char d) = Some (Z.of_N d).
Proof.
  intros Hd.
  assert (∃ n : nat, (n < 10)%nat ∧ d = N.of_nat n) as (n & Hn & ->)
    by (exists (N.to_nat d); lia).
  do 10 (destruct n as [|n]; [reflexivity|]). lia.
Qed.

Lemma digits_value_pretty_go (x : N) (s : string) :
  ∃ k : nat, ∀ acc,
    digits_value acc (pretty_N_go x s) = digits_value (acc * 10 ^ Z.of_nat k + Z.of_N x) s.
Proof.
  revert s. induction (N.lt_wf_0 x) as [x _ IH]; intros s.
  destruct (decide (x = 0)%N) as [->|Hx].
  - exists 0%nat. intros acc. rewrite pretty_N_go_0. f_equal. simpl. lia.
  - rewrite pretty_N_go_step by lia.
    destruct (IH (x `div` 10)%N (N.div_lt x 10 ltac:(lia) ltac:(lia))
                (String (pretty_N_char (x `mod` 10)) s)) as [k Hk].
    exists (S k). intros acc. rewrite Hk. cbn [digits_value].
    rewrite digit_of_char by (apply N.mod_lt; lia). cbn [mbind option_bind].
    f_equal. rewrite Nat2Z.inj_succ, Z.pow_succ_r by lia.
    pose proof (N.div_mod x 10 ltac:(lia)) as Hdm. lia.
Qed.

Lemma pretty_N_go_head (x : N) (s : string) :
  (0 < x)%N → ∃ d s', (d < 10)%N ∧ pretty_N_go x s = String (pretty_N_char d) s'.
Proof.
  revert s. induction (N.lt_wf_0 x) as [x _ IH]; intros s Hx.
  rewrite pretty_N_go_step by done.
  destruct (decide (x `div` 10 = 0)%N) as [->|Hq].
  - rewrite pretty_N_go_0. exists (x `mod` 10)%N, s. split; [|done].
    apply N.mod_lt. lia.
  - apply IH; [apply N.div_lt; lia | by apply N.neq_0_lt_0].
Qed.

Lemma dec_int_digit_first (d : N) (s : string) :
  dec_int (String (pretty_N_char d) s) = digits_value 0 (String (pretty_N_char d) s).
Proof. unfold pretty_N_char. by repeat case_match. Qed.

Lemma dec_int_pretty (z : Z) : dec_int (pretty z) = Some z.
Proof.
  assert (∀ p, ∃ d s, pretty (N.pos p) = String (pretty_N_char d) s
               ∧ digits_value 0 (pretty (N.pos p)) = Some (Z.pos p)) as Hpos.
  { intros p. unfold pretty, pretty_N. rewrite decide_False by done.
    destruct (pretty_N_go_head (N.pos p) EmptyString) as (d & s & _ & Hs); [lia|].
    exists d, s. split; [done|].
    destruct (digits_value_pretty_go (N.pos p) EmptyString) as [k ->]. simpl. f_equal. }
  destruct z as [|p|p]; [done| |].
  - destruct (Hpos p) as (d & s & Hs & Hv).
    change (pretty (Z.pos p)) with (pretty (N.pos p)).
    rewrite Hs, dec_int_digit_first, <- Hs. exact Hv.
  - destruct (Hpos p) as (d & s & Hs & Hv).
    change (pretty (Z.neg p)) with (String "-" (pretty (N.pos p))).
    rewrite Hs. cbn [dec_int]. rewrite <- Hs, Hv. done.
Qed.

(** ** Button data *)

Lemma pretty_N_go_colon_free (x : N) (s : string) :
  colon_free s = true → colon_free (pretty_N_go x s) = true.
Proof.
  revert s. induction (N.lt_wf_0 x) as [x _ IH]; intros s Hs.
  destruct (decide (x = 0)%N) as [->|Hx]; [by rewrite pretty_N_go_0|].
  rewrite pretty_N_go_step by lia. apply IH; [apply N.div_lt; lia|].
  simpl. rewrite Hs. unfold pretty_N_char. by repeat case_match.
Qed.

Lemma pretty_colon_free (z : Z) : colon_free (pretty z) = true.
Proof.
  assert (∀ p, colon_free (pretty (N.pos p)) = true) as Hpos.
  { intros p. unfold pretty, pretty_N. rewrite decide_False by done.
    by apply pretty_N_go_colon_free. }
  destruct z as [|p|p]; [done | apply Hpos |].
  unfold pretty, pretty_Z. simpl. apply Hpos.
Qed.

Lemma split_colon_free (s : string) : colon_free s = true → split_colon s = [s].
Proof.
  induction s as [|a s IH]; [done|]. simpl. intros [Ha Hs]%andb_true_iff.
  apply negb_true_iff in Ha. rewrite Ha, IH by done. done.
Qed.

Lemma split_colon_app (s t : string) :
  colon_free s = true → split_colon (s +:+ ":" +:+ t) = s :: split_colon t.
Proof.
  induction s as [|a s IH]; [done|]. simpl. intros [Ha Hs]%andb_true_iff.
  apply negb_true_iff in Ha. rewrite Ha, IH by done. done.
Qed.

Lemma prefix_app (s x : string) : String.prefix s (s +:+ x) = true.
Proof.
  induction s as [|a s IH]; [by destruct x|]. simpl.
  by destruct (ascii_dec a a).
Qed.

Lemma cb_query_ready py_int from_user (x : string) :
  cb_query py_int from_user ("ready:" +:+ x)
  = match py_int x with
    | Some chat => Handled (EvReady chat from_user)
    | None => ErrorOccurred
    end.
Proof. unfold cb_query. by rewrite (prefix_app "ready:" x). Qed.

Lemma cb_query_confirmcancel py_int from_user (x : string) :
  cb_query py_int from_user ("confirmcancel:" +:+ x)
  = match py_int x with
    | Some chat => Handled (EvConfirmCancel chat from_user)
    | None => ErrorOccurred
    end.
Proof.
  unfold cb_query.
  change (String.prefix "ready:" ("confirmcancel:" +:+ x)) with false.
  change (String.prefix "finished:" ("confirmcancel:" +:+ x)) with false.
  by rewrite (prefix_app "confirmcancel:" x).
Qed.

Lemma cb_query_nocancel py_int from_user (x : string) :
  cb_query py_int from_user ("nocancel:" +:+ x)
  = match py_int x with
    | Some chat => Handled (EvNoCancel chat from_user)
    | None => ErrorOccurred
    end.
Proof.
  unfold cb_query.
  change (String.prefix "ready:" ("nocancel:" +:+ x)) with false.
  change (String.prefix "finished:" ("nocancel:" +:+ x)) with false.
  change (String.prefix "confirmcancel:" ("nocancel:" +:+ x)) with false.
  by rewrite (prefix_app "nocancel:" x).
Qed.

Lemma cb_query_finished py_int from_user (x : string) :
  cb_query py_int from_user ("finished:" +:+ x)
  = match callback_round py_int ("finished:" +:+ x) with
    | Some (chat, round_idx) => Handled (EvFinished chat from_user round_idx)
    | None => ErrorOccurred
    end.
Proof.
  unfold cb_query.
  change (String.prefix "ready:" ("finished:" +:+ x)) with false.
  by rewrite (prefix_app "finished:" x).
Qed.

Lemma split_colon_finished (x : string) :
  split_colon ("finished:" +:+ x) = "finished"%string :: split_colon x.
Proof. reflexivity. Qed.

(** X17: every button the bot attaches to a message comes back through
    [cb_query] to the handler of its kind with the chat, and for a Finished
    button the round, it was made for, provided [int] reads back the decimal
    text of these numbers; and two different buttons never carry the same
    data. *)
Theorem buttons_route_back py_int from_user b :
  (∀ z, z ∈ button_ints b → py_int (pretty z) = Some z) →
  cb_query py_int from_user (callback_data b) = Handled (pressed from_user b)
  ∧ ∀ b', callback_data b' = callback_data b → b' = b.
Proof.
  assert (∀ read b0, (∀ z, z ∈ button_ints b0 → read (pretty z) = Some z) →
            cb_query read from_user (callback_data b0) = Handled (pressed from_user b0))
    as Hroute.
  { intros read [chat|chat idx|chat|chat] Hread; unfold callback_data, pressed.
    - rewrite cb_query_ready, Hread; [done|left].
    - rewrite cb_query_finished. unfold callback_round.
      rewrite split_colon_finished.
      rewrite split_colon_app by apply pretty_colon_free.
      rewrite split_colon_free by apply pretty_colon_free.
      cbn [lookup list_lookup mbind option_bind].
      rewrite (Hread chat) by left. cbn [mbind option_bind].
      by rewrite (Hread (Z.of_nat idx)) by (right; left).
    - rewrite cb_query_confirmcancel, Hread; [done|left].
    - rewrite cb_query_nocancel, Hread; [done|left]. }
  intros Hint. split; [by apply Hroute|]. intros b' Hdata.
  pose proof (Hroute dec_int b' (λ z _, dec_int_pretty z)) as Hb'.
  rewrite Hdata, (Hroute dec_int b (λ z _, dec_int_pretty z)) in Hb'.
  destruct b, b'; simplify_eq/=; try done; f_equal; lia.
Qed.

(** ** A battle cancelled while a round is in progress *)

Lemma serial_app py_int evs1 evs2 w :
  serial py_int (evs1 ++ evs2) w
  = serial py_int evs1 w && serial py_int evs2 (run py_int evs1 w).
Proof.
  revert w. induction evs1 as [|e evs1 IH]; intros w; [done|].
  cbn [app serial]. rewrite IH. by rewrite andb_assoc.
Qed.

(** When the dispatcher hands over an update, no Finished handler waits. *)
Lemma serial_update py_int evs e w :
  serial py_int (evs ++ [e]) w = true → is_update e = true →
  claim_pending (run py_int evs w) = false.
Proof.
  rewrite serial_app. intros [_ He]%andb_true_iff Hup. cbn [serial] in He.
  rewrite Hup in He. by destruct (claim_pending (run py_int evs w)).
Qed.

(** The schedules used in this file are schedules the dispatcher allows. *)
Lemma schedules_serial :
  Forall (λ evs, serial dec_int evs init_world = true)
    [ cancel_asked ++ [EvConfirmCancel 7 2]; second_round; hard_round; won_round;
      selecting; two_chats; second_win; double_entry; undelivered_round;
      cancel_asked ++ EvConfirmCancel 7 2 :: after_cancel ].
Proof. repeat constructor; vm_compute; reflexivity. Qed.

Lemma claim_pending_false w t :
  claim_pending w = false → t ∈ tasks w → is_claim t = false.
Proof.
  unfold claim_pending. intros Hno Ht. destruct (is_claim t) eqn:Hc; [|done].
  assert (existsb is_claim (tasks w) = true) as Hex; [|congruence].
  apply existsb_exists. exists t. split; [by apply list_elem_of_In | done].
Qed.

Lemma retired_same l b0 w w' :
  heap w' = heap w → ACTIVE_BATTLES w' = ACTIVE_BATTLES w → tasks w' = tasks w →
  retired l b0 w → retired l b0 w'.
Proof. intros Hh Ha Ht []. split; by rewrite ?Hh, ?Ha, ?Ht. Qed.

Lemma retired_emit l b0 o w : retired l b0 w → retired l b0 (emit o w).
Proof. by apply retired_same. Qed.

Lemma retired_set_pending l b0 f w : retired l b0 w → retired l b0 (set_pending f w).
Proof. by apply retired_same. Qed.

Lemma retired_upsert_user l b0 chat user full handle rating w :
  retired l b0 w → retired l b0 (upsert_user chat user full handle rating w).
Proof. by apply retired_same. Qed.

Lemma retired_add_points l b0 chat user delta first w :
  retired l b0 w → retired l b0 (add_points chat user delta first w).
Proof. by apply retired_same. Qed.

Lemma retired_increment_battles l b0 chat (ids : list Z) w :
  retired l b0 w → retired l b0 (increment_battles chat ids w).
Proof. by apply retired_same. Qed.

Lemma retired_delete l b0 c w : retired l b0 w → retired l b0 (set_active (delete c) w).
Proof.
  intros []. split; try done. intros c' Hc'. simpl in Hc'.
  apply lookup_delete_Some in Hc' as [_ Hc']. by eapply rt_free0.
Qed.

Lemma retired_upd_other l b0 l' f w :
  l' ≠ l → retired l b0 w → retired l b0 (upd_battle l' f w).
Proof.
  intros Hne []. split; try done. simpl. by rewrite list_lookup_alter_ne.
Qed.

Lemma retired_upd_flag l b0 v w :
  retired l b0 w → retired l b0 (upd_battle l (set_round_finished v) w).
Proof.
  intros [(b & Hb & Hfields) ? ?]. split; try done.
  exists (set_round_finished v b). split; [|done]. simpl.
  by rewrite list_lookup_alter_eq, Hb.
Qed.

Lemma retired_spawn l b0 t w :
  (∀ c, task_ref t ≠ Some (c, l)) → retired l b0 w → retired l b0 (spawn t w).
Proof.
  intros Ht []. split; try done. intros t' c Hin Href. simpl in Hin.
  apply elem_of_app in Hin as [Hin|Hin]; [eauto|].
  apply list_elem_of_singleton in Hin as ->. by destruct (Ht c).
Qed.

Lemma retired_set_task l b0 tid t w :
  (∀ c, task_ref t ≠ Some (c, l)) → retired l b0 w →
  retired l b0 (set_tasks (<[tid := t]>) w).
Proof.
  intros Ht []. split; try done. intros t' c Hin Href. simpl in Hin.
  apply elem_of_list_insert_inv in Hin as [->|Hin]; [by destruct (Ht c) | eauto].
Qed.

Lemma retired_create l b0 c b w :
  retired l b0 w →
  retired l b0 (set_active (insert c (length (heap w))) (set_heap (λ h, h ++ [b]) w)).
Proof.
  intros [(b1 & Hb1 & Hfields) ? ?]. split; try done.
  - exists b1. split; [|done]. simpl. by apply lookup_app_l_Some.
  - intros c' Hc'. simpl in Hc'.
    apply lookup_insert_Some in Hc' as [[_ Hlen]|[_ Hc']]; [|by eapply rt_free0].
    apply lookup_lt_Some in Hb1. lia.
Qed.

(** The dictionary a chat has registered is another one. *)
Lemma retired_registered l b0 w c l' b' :
  retired l b0 w → get_battle c w = Some (l', b') → l' ≠ l.
Proof. intros [] [Hl' _]%get_battle_Some ->. by eapply rt_free0. Qed.

(** So is the dictionary of a coroutine that is not polling. *)
Lemma retired_task l b0 w t c l' :
  retired l b0 w → t ∈ tasks w → task_ref t = Some (c, l') →
  (∀ idx rest, t ≠ TRunWait c l' idx rest) → l' ≠ l.
Proof.
  intros [] Ht Href Hno ->. destruct (rt_tasks0 t c Ht Href) as (idx & rest & ->).
  by destruct (Hno idx rest).
Qed.
#[local] Hint Resolve retired_emit retired_set_pending retired_upsert_user
  retired_add_points retired_increment_battles retired_delete retired_create : bot.

Lemma retired_post_round l b0 c idx prob sent w :
  retired l b0 w → retired l b0 (post_round c idx prob sent w).
Proof.
  intros Hw. unfold post_round. destruct (get_battle c w) as [[l' b']|] eqn:Hb; [|done].
  destruct sent; [|done]. apply retired_upd_other; [|by apply retired_emit].
  by eapply retired_registered.
Qed.

Lemma retired_finalize_battle l b0 c w :
  retired l b0 w → retired l b0 (finalize_battle c w).
Proof.
  intros Hw. unfold finalize_battle.
  destruct (get_battle c w) as [[l' b']|]; eauto with bot.
Qed.

Lemma retired_start_round l b0 c l' idx probs sent w :
  l' ≠ l → retired l b0 w →
  retired l b0 (start_round c l' idx probs sent w).2
  ∧ ∀ c', task_ref (start_round c l' idx probs sent w).1 ≠ Some (c', l).
Proof.
  intros Hne Hw. unfold start_round. destruct probs as [|prob rest]; simpl.
  - split; [by apply retired_finalize_battle | done].
  - split; [|intros c' [= _ Hc']; by apply Hne]. apply retired_post_round.
    by apply retired_upd_other.
Qed.

Lemma retired_claim_verify l b0 c user l' handle round_idx subs w :
  l' ≠ l → retired l b0 w →
  retired l b0 (claim_verify c user l' handle round_idx subs w).2.
Proof.
  intros Hne Hw. unfold claim_verify. destruct subs as [|s subs]; [done|].
  destruct (heap w !! l') as [b|]; [|done].
  destruct (current_problem b) as [cp|]; [|done].
  destruct (existsb (sub_matches cp) (s :: subs)); simpl; [|done].
  apply retired_upd_other; [done|]. apply retired_add_points.
  by apply retired_upd_other.
Qed.

Lemma retired_finished_button_tail l b0 c round_idx res w :
  retired l b0 w → retired l b0 (finished_button_tail c round_idx res w).
Proof.
  intros Hw. unfold finished_button_tail. destruct res; eauto with bot.
  destruct (get_battle c _); eauto with bot.
Qed.

Lemma retired_step_task l b0 t inp w :
  t ∈ tasks w → retired l b0 w →
  retired l b0 (step_task t inp w).2
  ∧ ∀ c, task_ref (step_task t inp w).1 ≠ Some (c, l).
Proof.
  intros Ht Hw. destruct t as [chat k|chat|chat l'|chat l' idx rest|chat l' idx rest
                               |chat user l' handle round_idx|]; simpl.
  - destruct (decide (k < 6)%nat) as [Hk|Hk].
    + unfold countdown_tick. destruct (get_battle chat w) as [[l' b]|]; [|done].
      destruct (decide (status b = joining)); simpl; [|done].
      split; [eauto with bot | done].
    + unfold countdown_elapsed. destruct (get_battle chat w) as [[l' b]|] eqn:Hb; [|done].
      destruct (_ <? 2); simpl; (split; [|done]); [eauto with bot|].
      apply retired_spawn; [done|]. apply retired_upd_other; [|done].
      by eapply retired_registered.
  - destruct (get_battle chat w) as [[l' b]|] eqn:Hb; simpl; [|done].
    split; [done|]. intros c [= _ ->]. by eapply retired_registered.
  - assert (l' ≠ l) as Hne by (by eapply retired_task).
    unfold run_selected. destruct (heap w !! l') as [b|]; [|done].
    destruct (_ || _); simpl.
    + split; [|done]. apply retired_delete, retired_emit. by apply retired_upd_other.
    + apply retired_start_round; [done|]. apply retired_increment_battles.
      by apply retired_upd_other.
  - destruct (decide (l' = l)) as [->|Hne].
    + destruct Hw as [(b & Hb & Hs & Hfields) Hfree Htasks]. unfold run_poll.
      rewrite Hb, Hs. rewrite bool_decide_eq_true_2 by done. rewrite orb_true_r.
      rewrite decide_True by done. simpl. split; [|done].
      apply retired_upd_flag. split; [|done..]. exists b. by split.
    + unfold run_poll. destruct (heap w !! l') as [b|]; [|split; [done|]; intros c' [= _ Hc']; by apply Hne].
      destruct (_ || _); simpl; [|split; [done|]; intros c' [= _ Hc']; by apply Hne].
      destruct (decide (status b = cancelled)); simpl.
      { split; [by apply retired_upd_other | done]. }
      destruct (decide (idx < length (selected_problems b))%nat) as [Hidx|Hidx]; simpl.
      { split; [by apply retired_upd_other | intros c' [= _ Hc']; by apply Hne]. }
      apply retired_start_round; [done|]. by apply retired_upd_other.
  - assert (l' ≠ l) as Hne by (by eapply retired_task).
    unfold run_next. destruct (heap w !! l') as [b|]; [|split; [done|]; intros c' [= _ Hc']; by apply Hne].
    apply retired_start_round; [done|]. by apply retired_emit.
  - assert (l' ≠ l) as Hne by (by eapply retired_task).
    pose proof (retired_claim_verify l b0 chat user l' handle round_idx (in_subs inp) w
                  Hne Hw) as Hv.
    destruct (claim_verify chat user l' handle round_idx (in_subs inp) w) as [res w1].
    simpl in *. split; [by apply retired_finished_button_tail | done].
  - done.
Qed.

Lemma exec_retired py_int l b0 e w : retired l b0 w → retired l b0 (exec py_int e w).
Proof.
  intros Hw. destruct e as [chat user full args info|chat user args|chat user
                            |chat user round_idx|chat user prompt_id|chat user
                            |chat from_user|chat from_user|tid inp]; simpl.
  - unfold cmd_sethandle. destruct args; [eauto with bot|].
    destruct info; eauto with bot.
  - unfold cmd_createbattle. destruct (ACTIVE_BATTLES w !! chat); [eauto with bot|].
    destruct (get_user chat user w) as [u|]; [|eauto with bot].
    destruct (parse_create_args py_int args) as [e|[num ratings]]; [eauto with bot|].
    apply retired_spawn; [done|]. eauto with bot.
  - unfold handle_ready_callback.
    destruct (get_battle chat w) as [[l' b]|] eqn:Hb; [|eauto with bot].
    destruct (decide (status b = joining)); [|eauto with bot].
    destruct (get_user chat user w) as [u|]; [|eauto with bot].
    destruct (participants b !! user); [eauto with bot|].
    apply retired_emit, retired_upd_other; [|done]. by eapply retired_registered.
  - unfold finished_pressed. destruct (claim_check chat user w) as [why|[l' handle]] eqn:Hc.
    + by apply retired_finished_button_tail.
    + apply claim_check_inr in Hc as (b & Hb & _).
      apply retired_spawn; [|done]. intros c [= _ ->]. by eapply retired_registered.
  - unfold cmd_cancelbattle. destruct (get_battle chat w) as [[l' b]|]; [|eauto with bot].
    destruct (decide (creator b = user)); eauto with bot.
  - unfold cmd_cancelround. destruct (get_battle chat w) as [[l' b]|] eqn:Hb;
      [|eauto with bot].
    destruct (decide (creator b = user)); [|eauto with bot].
    destruct (decide (status b = running)); [|eauto with bot].
    destruct (decide (round b = 0%nat)); [eauto with bot|].
    apply retired_emit, retired_upd_other; [|done]. by eapply retired_registered.
  - unfold handle_confirm_cancel.
    destruct (get_battle chat w) as [[l' b]|] eqn:Hb; [|eauto with bot].
    apply retired_emit, retired_set_pending, retired_delete, retired_upd_other; [|done].
    by eapply retired_registered.
  - unfold handle_no_cancel. eauto with bot.
  - unfold resume. destruct (tasks w !! tid) as [t|] eqn:Ht; [|done].
    destruct (retired_step_task l b0 t inp w) as [H1 H2];
      [by eapply list_elem_of_lookup_2 | done |].
    destruct (step_task t inp w) as [t' w1]. simpl in *. by apply retired_set_task.
Qed.

Lemma run_retired py_int l b0 evs w : retired l b0 w → retired l b0 (run py_int evs w).
Proof.
  intros Hw. induction evs as [|e evs IH] using rev_ind; [done|].
  rewrite run_snoc. by apply exec_retired.
Qed.

(** Confirming the cancellation of a battle whose coroutines are all
    polling retires its dictionary. *)
Lemma confirm_cancel_retires chat from_user l b w :
  wf w → get_battle chat w = Some (l, b) →
  (∀ t c, t ∈ tasks w → task_ref t = Some (c, l) → ∃ idx rest, t = TRunWait c l idx rest) →
  retired l b (handle_confirm_cancel chat from_user w).
Proof.
  intros Hw Hget Htasks. unfold handle_confirm_cancel. rewrite Hget.
  apply get_battle_Some in Hget as [Hl Hb].
  apply retired_emit, (retired_set_pending _ _ (delete chat)). split.
  - exists (set_round_finished true (set_status cancelled b)). split; [|done].
    simpl. by rewrite list_lookup_alter_eq, Hb.
  - intros c Hc. simpl in Hc. apply lookup_delete_Some in Hc as [Hne Hc].
    apply Hne. destruct Hw. eapply wf_home0; left; eassumption.
  - exact Htasks.
Qed.


(** ** The further theorems at concrete inputs *)

Lemma range_mode_first_fresh_witness :
  let sel := select_problems_for_battle small_catalogue [Some [accepted prob_A]]
               id_shuffle [1100; 1500] 3 in
  sel = [prob_B] ∧ length sel = 1%nat.
Proof.
  intros sel.
  destruct (range_mode_first_fresh small_catalogue [Some [accepted prob_A]]
              id_shuffle [1100; 1500] 3) as [Hsel Hlen].
  - split; [reflexivity | lia].
  - intros i l. reflexivity.
  - split; [reflexivity|]. exact (eq_trans Hlen eq_refl).
Defined.

Lemma target_mode_one_per_target_witness :
  (length (select_problems_for_battle small_catalogue [] id_shuffle [1200%Z] 3%Z) ≤ 1)%nat.
Proof.
  apply (target_mode_one_per_target small_catalogue [] id_shuffle [1200] 3).
  intros [Hlen _]. simpl in Hlen. lia.
Defined.

Lemma selected_from_catalogue_witness :
  prob_B ∈ small_catalogue
  ∧ ((range_mode [1100; 1500] 3 ∧ rated_within (1100 - 50) (1500 + 50) prob_B)
     ∨ (¬ range_mode [1100; 1500] 3
        ∧ ∃ r, r ∈ [1100; 1500] ∧ rated_within (r - 50) (r + 50) prob_B)).
Proof.
  apply (selected_from_catalogue small_catalogue [Some [accepted prob_A]]
           id_shuffle [1100; 1500] 3 prob_B).
  - intros i l. reflexivity.
  - left.
Defined.

Lemma target_mode_complete_witness :
  length (select_problems_for_battle small_catalogue [] id_shuffle [1200; 1400] 2) = 2%nat.
Proof.
  apply (target_mode_complete small_catalogue [] id_shuffle [1200; 1400] 2).
  - intros [_ Hnum]. lia.
  - simpl. lia.
  - intros i l. reflexivity.
  - intros r Hr. apply elem_of_cons in Hr as [->|Hr].
    + exists prob_A. split_and!; [left | exists 1200; split; [reflexivity | lia] |].
      simpl. apply not_elem_of_empty.
    + apply list_elem_of_singleton in Hr as ->.
      exists prob_B. split_and!; [right; left | exists 1400; split; [reflexivity | lia] |].
      simpl. apply not_elem_of_empty.
Defined.

Lemma run_aborts_without_problems_witness :
  let w := run dec_int (selecting_with ["3"; "1200"]%string) init_world in
  let w' := resume 1 (catalogue_input small_catalogue) w in
  ACTIVE_BATTLES w !! 7 = Some 0%nat
  ∧ ACTIVE_BATTLES w' !! 7 = None ∧ points w' = points w
  ∧ tasks w' !! 1%nat = Some TDone.
Proof.
  intros w w'.
  destruct (run_aborts_without_problems w 1 (catalogue_input small_catalogue) 7 0%nat
              (default blank_battle (heap w !! 0%nat))) as (Hact & Hpts & _ & Htask).
  - vm_compute. reflexivity.
  - vm_compute. reflexivity.
  - right. split.
    + intros [Hlen _]. vm_compute in Hlen. discriminate Hlen.
    + vm_compute. reflexivity.
  - split_and!; [vm_compute; reflexivity | exact Hact | exact Hpts | exact Htask].
Defined.

Lemma points_rows_bounded_witness :
  let w := run dec_int won_round init_world in
  points w !! (7, 2) = Some (mkPoints 3 1 1) ∧ 0 ≤ 3 ≤ 85 * 1 ∧ 0 ≤ 1.
Proof.
  intros w.
  assert (points w !! (7, 2) = Some (mkPoints 3 1 1)) as Hrow by (vm_compute; reflexivity).
  split; [exact Hrow|].
  apply (points_rows_bounded dec_int w (7, 2) (mkPoints 3 1 1)); [|exact Hrow].
  exists won_round. reflexivity.
Defined.

Lemma userstats_iff_registered_witness :
  let w := run dec_int won_round init_world in
  cmd_userstats 7 3 w = RNoStats ∧ cmd_userstats 7 2 w ≠ RNoStats.
Proof.
  intros w.
  assert (reachable dec_int w) as Hw by (exists won_round; reflexivity).
  split.
  - apply (userstats_iff_registered dec_int w 7 3 Hw). vm_compute. reflexivity.
  - intros Hno. apply (userstats_iff_registered dec_int w 7 2 Hw) in Hno.
    vm_compute in Hno. discriminate Hno.
Defined.

Lemma registered_battle_sound_witness :
  let w := run dec_int two_chats init_world in
  ∃ b, get_battle 8 w = Some (1%nat, b) ∧ status b ≠ cancelled
       ∧ is_Some (participants b !! creator b).
Proof.
  intros w.
  destruct (registered_battle_sound dec_int w 8 1%nat) as (b & Hb & Hs & _ & _ & Hc & _).
  - exists two_chats. reflexivity.
  - vm_compute. reflexivity.
  - exists b. split_and!; [exact Hb | exact Hs | exact Hc].
Defined.

Lemma other_chats_untouched_witness :
  let w := run dec_int two_chats init_world in
  let w' := exec dec_int (EvConfirmCancel 7 2) w in
  get_battle 7 w' = None ∧ get_battle 8 w' = get_battle 8 w
  ∧ tasks w' !! 2%nat = Some (TCountdown 8 0).
Proof.
  intros w w'.
  destruct (other_chats_untouched dec_int w (EvConfirmCancel 7 2) 7 8)
    as (Hb & _ & _ & Ht).
  - exists two_chats. reflexivity.
  - reflexivity.
  - lia.
  - split_and!; [vm_compute; reflexivity | exact Hb |].
    apply Ht; [vm_compute; reflexivity | reflexivity].
Defined.

Lemma battle_fields_persist_witness :
  let w := run dec_int two_chats init_world in
  let w' := run dec_int [EvCancelBattle 7 1 99; EvConfirmCancel 7 1;
                         EvResume 1 no_input] w in
  ∃ b', heap w' !! 0%nat = Some b' ∧ creator b' = 1 ∧ ratings b' = [1200; 1400]
        ∧ participants b' !! 2 = Some "bob"%string.
Proof.
  intros w w'.
  destruct (battle_fields_persist dec_int w
              [EvCancelBattle 7 1 99; EvConfirmCancel 7 1; EvResume 1 no_input] 0%nat
              (default blank_battle (heap w !! 0%nat)))
    as (b' & Hb' & Hc & _ & _ & Hr & Hp & _).
  - exists two_chats. reflexivity.
  - vm_compute. reflexivity.
  - exists b'. split_and!; [exact Hb' | exact Hc | exact Hr |].
    apply Hp. vm_compute. reflexivity.
Defined.

Lemma rows_never_shrink_witness :
  let w := run dec_int won_round init_world in
  let w' := run dec_int [EvSetHandle 7 2 "Bob" ["bobby"%string] (Some (Some 900))] w in
  is_Some (get_user 7 2 w')
  ∧ ∃ r', get_user_stats 7 2 w' = Some r' ∧ 3 ≤ pts r'.
Proof.
  intros w w'.
  destruct (rows_never_shrink dec_int w
              [EvSetHandle 7 2 "Bob" ["bobby"%string] (Some (Some 900))] 7 2)
    as [Hu Hr].
  - exists won_round. reflexivity.
  - split.
    + apply Hu. vm_compute. eexists. reflexivity.
    + destruct (Hr (mkPoints 3 1 1)) as (r' & Hr' & Hpts & _);
        [vm_compute; reflexivity|].
      exists r'. split; [exact Hr' | exact Hpts].
Defined.

Lemma skipped_round_moves_on_witness :
  let w := run dec_int two_chats init_world in
  let w' := run dec_int [EvCancelRound 7 1; EvResume 1 no_input] w in
  points w' = points w ∧ tasks w' !! 1%nat = Some (TRunDelay 7 0 1 [prob_B]).
Proof.
  intros w w'.
  destruct (skipped_round_moves_on dec_int w 7 1 0%nat
              (default blank_battle (heap w !! 0%nat)) 1 1 [prob_B] no_input)
    as (Hpts & _ & Htask).
  - vm_compute. reflexivity.
  - vm_compute. reflexivity.
  - vm_compute. reflexivity.
  - vm_compute. discriminate.
  - vm_compute. reflexivity.
  - split; [exact Hpts|]. rewrite decide_True in Htask; [exact Htask|].
    vm_compute. lia.
Defined.

Lemma buttons_route_back_witness :
  cb_query dec_int 2 (callback_data (BFinished (-1007) 3)) = Handled (EvFinished (-1007) 2 3)
  ∧ callback_data (BFinished (-1007) 3) = "finished:-1007:3"%string
  ∧ callback_data (BConfirmCancel 7) ≠ callback_data (BNoCancel 7).
Proof.
  split_and!.
  - apply (buttons_route_back dec_int 2 (BFinished (-1007) 3) (λ z _, dec_int_pretty z)).
  - vm_compute. reflexivity.
  - intros Hsame.
    pose proof (proj2 (buttons_route_back dec_int 2 (BNoCancel 7) (λ z _, dec_int_pretty z))
                  (BConfirmCancel 7) Hsame) as Heq.
    discriminate Heq.
Defined.

Lemma unregistered_user_changes_nothing_witness :
  let w := run dec_int two_chats init_world in
  ∃ r, exec dec_int (EvCancelRound 7 3) w = emit (OReply 7 r) w.
Proof.
  intros w.
  apply (unregistered_user_changes_nothing dec_int w 7 3 (EvCancelRound 7 3)).
  - exists two_chats. reflexivity.
  - vm_compute. reflexivity.
  - split; reflexivity.
Defined.

Lemma problemset_cache_kept_witness :
  let calls := [(100, None); (30000, None); (30001, Some [prob_A; prob_B]); (30002, None)] in
  let r := serve expired_Z calls (mkCache [prob_H] 0) in
  r.1 = [[prob_H]; [prob_H]; [prob_A; prob_B]; [prob_A; prob_B]]
  ∧ Forall (λ res, res ≠ []) r.1.
Proof.
  intros calls r. split; [vm_compute; reflexivity|].
  apply (problemset_cache_kept expired_Z calls (mkCache [prob_H] 0)).
  - discriminate.
  - repeat constructor; discriminate.
Defined.

